(** * Cloudflare Gateway Pi-hole scripts: the domain reconciliation engine

    A shallow embedding of [lib/utils.js], [lib/helpers.js], [lib/api.js]
    and [update_filter_lists.js].  JavaScript strings are modelled as
    [string] (one [ascii] per code unit, code units below 256), the two
    [Set]s of the reconciliation loop as [gset string], arrays as lists,
    and the asynchronous, throwing part of the script as a small free
    monad over the calls that leave the process.  The retry loops of
    [lib/utils.js] and of [worker/src] read the answers of [fetch] from a
    list. *)

From Stdlib Require Import String Ascii List ZArith Lia Bool Sorted.
From stdpp Require Import base gmap sets list strings pretty.

Open Scope string_scope.
Open Scope list_scope.

(** ** JavaScript string and array primitives used by the scripts *)

Module JS.

Definition chars (s : string) : list ascii := list_ascii_of_string s.
Definition of_chars (l : list ascii) : string := string_of_list_ascii l.

(** [s.split(sep)] for a one-character separator: never returns the
    empty array, [split sep ""] is the one-element array holding [""]. *)
Fixpoint split (sep : ascii) (s : string) : list string :=
  match s with
  | EmptyString => [EmptyString]
  | String c s' =>
      if Ascii.eqb c sep then EmptyString :: split sep s'
      else match split sep s' with
           | [] => [String c EmptyString]
           | p :: ps => String c p :: ps
           end
  end.

(** [parts.join(sep)] *)
Definition join (sep : string) (parts : list string) : string :=
  String.concat sep parts.

(** [s.startsWith(p)] *)
Definition startsWith (s p : string) : bool := String.prefix p s.

(** The rest of [s] behind the prefix [p], when [s] starts with [p]. *)
Fixpoint after_prefix (p s : string) : option string :=
  match p with
  | EmptyString => Some s
  | String a p' =>
      match s with
      | EmptyString => None
      | String b s' => if Ascii.eqb a b then after_prefix p' s' else None
      end
  end.

(** [s.replace(pat, repl)] with a string pattern: only the first
    occurrence is replaced. *)
Fixpoint replace (pat repl s : string) : string :=
  match after_prefix pat s with
  | Some rest => repl +:+ rest
  | None =>
      match s with
      | EmptyString => EmptyString
      | String c s' => String c (replace pat repl s')
      end
  end.

(** White space and line terminators of ECMAScript among the code
    units below 256: TAB, LF, VT, FF, CR, SP and NBSP. *)
Definition is_white (c : ascii) : bool :=
  let n := nat_of_ascii c in
  (Nat.leb 9 n && Nat.leb n 13) || Nat.eqb n 32 || Nat.eqb n 160.

Fixpoint trimStart (s : string) : string :=
  match s with
  | EmptyString => EmptyString
  | String c s' => if is_white c then trimStart s' else s
  end.

Definition trimEnd (s : string) : string :=
  String.rev (trimStart (String.rev s)).

(** [s.trim()] *)
Definition trim (s : string) : string := trimEnd (trimStart s).

(** [s.slice(0, -n)] on a string: all but the last [n] code units. *)
Definition slice_to_minus (n : nat) (s : string) : string :=
  String.substring 0 (String.length s - n) s.

(** A string used as a condition: [""] is falsy. *)
Definition truthy (s : string) : bool :=
  match s with EmptyString => false | _ => true end.

End JS.

(** ** A backtracking matcher for the regular expressions of [utils.js]

    A position is the code unit before the cursor (needed by [\b] and
    [^]) and the input still to read.  The matcher returns the positions
    a match can end at, in the priority order of a backtracking engine
    (first alternative first, greedy repetition), so that the head of the
    list is the match JavaScript reports. *)

Module Regex.

(** A character class: a union of inclusive code ranges. *)
Definition cls := list (nat * nat).

Definition in_cls (k : cls) (c : ascii) : bool :=
  existsb (fun r => Nat.leb (fst r) (nat_of_ascii c) && Nat.leb (nat_of_ascii c) (snd r)) k.

Inductive re : Type :=
| Eps
| Chr (k : cls)
| Seq (r1 r2 : re)
| Alt (r1 r2 : re)
| Rep (r : re) (lo : nat) (extra : option nat)
    (* r{lo,lo+extra}; [None] is an unbounded repetition *)
| Look (r : re)   (* (?=r) *)
| Bol             (* ^ *)
| Eol             (* $ *)
| WordB.          (* \b *)

Definition Star (r : re) : re := Rep r 0 None.
Definition Plus (r : re) : re := Rep r 1 None.
Definition Opt (r : re) : re := Rep r 0 (Some 1).

(** A literal string. *)
Fixpoint Lit (s : string) : re :=
  match s with
  | EmptyString => Eps
  | String c s' => Seq (Chr [(nat_of_ascii c, nat_of_ascii c)]) (Lit s')
  end.

(** Juxtaposition of several expressions. *)
Fixpoint seqs (rs : list re) : re :=
  match rs with
  | [] => Eps
  | [r] => r
  | r :: rs' => Seq r (seqs rs')
  end.

Definition pos : Type := option ascii * list ascii.

(** [\w] *)
Definition is_word (c : ascii) : bool :=
  in_cls [(97, 122); (65, 90); (48, 57); (95, 95)] c.

Definition word_at (o : option ascii) : bool :=
  match o with Some c => is_word c | None => false end.

Definition shorter (p q : pos) : bool :=
  Nat.ltb (length (snd q)) (length (snd p)).

Section Repetition.
Variable f : pos -> list pos.

(** Exactly [n] iterations. *)
Fixpoint exactly (n : nat) (p : pos) : list pos :=
  match n with
  | 0 => [p]
  | S n' => flat_map (exactly n') (f p)
  end.

(** At most [n] further iterations, greedy; an iteration that reads
    nothing is discarded, as ECMAScript's RepeatMatcher does. *)
Fixpoint upto (n : nat) (p : pos) : list pos :=
  match n with
  | 0 => [p]
  | S n' => flat_map (upto n') (List.filter (shorter p) (f p)) ++ [p]
  end.
End Repetition.

Fixpoint match_re (r : re) (p : pos) : list pos :=
  match r with
  | Eps => [p]
  | Chr k =>
      match snd p with
      | c :: s' => if in_cls k c then [(Some c, s')] else []
      | [] => []
      end
  | Seq r1 r2 => flat_map (match_re r2) (match_re r1 p)
  | Alt r1 r2 => match_re r1 p ++ match_re r2 p
  | Rep r lo extra =>
      flat_map
        (fun q => upto (match_re r)
                    (match extra with
                     | Some n => n
                     | None => length (snd q)
                     end) q)
        (exactly (match_re r) lo p)
  | Look r => match match_re r p with [] => [] | _ :: _ => [p] end
  | Bol => match fst p with None => [p] | Some _ => [] end
  | Eol => match snd p with [] => [p] | _ :: _ => [] end
  | WordB => if xorb (word_at (fst p)) (word_at (head (snd p))) then [p] else []
  end.

(** The leftmost match: the input skipped before it and the input left
    behind it. *)
Fixpoint exec_from (r : re) (prev : option ascii) (s : list ascii)
  : option (list ascii * list ascii) :=
  match match_re r (prev, s) with
  | q :: _ => Some ([], snd q)
  | [] =>
      match s with
      | [] => None
      | c :: s' =>
          match exec_from r (Some c) s' with
          | Some (skipped, rest) => Some (c :: skipped, rest)
          | None => None
          end
      end
  end.

(** [re.test(s)] *)
Definition test (r : re) (s : string) : bool :=
  match exec_from r None (JS.chars s) with Some _ => true | None => false end.

(** [s.replace(re, repl)] for an expression without the [g] flag. *)
Definition replace (r : re) (repl s : string) : string :=
  match exec_from r None (JS.chars s) with
  | Some (skipped, rest) => JS.of_chars skipped +:+ repl +:+ JS.of_chars rest
  | None => s
  end.

(** The words an expression can read, the assertions ([^], [$], [\b]
    and lookahead) read nothing and are not looked at any further. *)
Inductive lang : re -> list ascii -> Prop :=
| lang_eps : lang Eps []
| lang_chr k c : in_cls k c = true -> lang (Chr k) [c]
| lang_seq r1 r2 w1 w2 :
    lang r1 w1 -> lang r2 w2 -> lang (Seq r1 r2) (w1 ++ w2)
| lang_alt_l r1 r2 w : lang r1 w -> lang (Alt r1 r2) w
| lang_alt_r r1 r2 w : lang r2 w -> lang (Alt r1 r2) w
| lang_rep_stop r e : lang (Rep r 0 e) []
| lang_rep_more r e w1 w2 :
    lang r w1 -> lang (Rep r 0 e) w2 -> lang (Rep r 0 e) (w1 ++ w2)
| lang_rep_must r lo e w1 w2 :
    lang r w1 -> lang (Rep r lo e) w2 -> lang (Rep r (S lo) e) (w1 ++ w2)
| lang_look r : lang (Look r) []
| lang_bol : lang Bol []
| lang_eol : lang Eol []
| lang_wordb : lang WordB [].

(** [q] is reached from [p] by reading a word of [r]. *)
Definition reads (r : re) (p q : pos) : Prop :=
  exists w, snd p = w ++ snd q /\ lang r w.

(** Every character of every word of [r] satisfies [P]. *)
Fixpoint all_chars (P : ascii -> Prop) (r : re) : Prop :=
  match r with
  | Chr k => forall c, in_cls k c = true -> P c
  | Seq r1 r2 | Alt r1 r2 => all_chars P r1 /\ all_chars P r2
  | Rep r _ _ => all_chars P r
  | Eps | Look _ | Bol | Eol | WordB => True
  end.

(** Every word of [r] has a character that satisfies [P]. *)
Fixpoint some_char (P : ascii -> Prop) (r : re) : Prop :=
  match r with
  | Chr k => forall c, in_cls k c = true -> P c
  | Seq r1 r2 => some_char P r1 \/ some_char P r2
  | Alt r1 r2 => some_char P r1 /\ some_char P r2
  | Rep r (S _) _ => some_char P r
  | Rep _ 0 _ | Eps | Look _ | Bol | Eol | WordB => False
  end.

(** An expression that ends with [$] matches up to the end only. *)
Fixpoint at_end (r : re) : Prop :=
  match r with
  | Eol => True
  | Seq _ r2 => at_end r2
  | _ => False
  end.

(** [^ ... $] *)
Definition anchored (r : re) : Prop :=
  match r with
  | Seq Bol r' => at_end r'
  | _ => False
  end.

(** Deciding an inclusion of classes on the 256 characters. *)
Definition cls_sub (k k' : cls) : bool :=
  forallb (fun n => implb (in_cls k (ascii_of_nat n)) (in_cls k' (ascii_of_nat n)))
          (seq 0 256).

(** Deciding that two classes share no character. *)
Definition cls_apart (k k' : cls) : bool :=
  forallb (fun n => negb (in_cls k (ascii_of_nat n) && in_cls k' (ascii_of_nat n)))
          (seq 0 256).

End Regex.

(** ** [lib/utils.js] *)

Import Regex.

Definition lower : cls := [(97, 122)].
Definition alnum : cls := [(97, 122); (48, 57)].
Definition alnum_hyphen : cls := [(97, 122); (48, 57); (45, 45)].
Definition hyphen : cls := [(45, 45)].
Definition dot : cls := [(46, 46)].
(** [\s] among the code units below 256 *)
Definition space : cls := [(9, 13); (32, 32); (160, 160)].

(** [/^\b((?=[a-z0-9-]{1,63}\.)(xn--)?[a-z0-9]+(-[a-z0-9]+)*\.)+[a-z]{2,63}\b$/] *)
Definition validDomainRe : re :=
  seqs [ Bol; WordB;
         Plus (seqs [ Look (seqs [Rep (Chr alnum_hyphen) 1 (Some 62); Chr dot]);
                      Opt (Lit "xn--");
                      Plus (Chr alnum);
                      Star (seqs [Chr hyphen; Plus (Chr alnum)]);
                      Chr dot ]);
         Rep (Chr lower) 2 (Some 61);
         WordB; Eol ].

Definition isValidDomain (value : string) : bool :=
  Regex.test validDomainRe value.

(** The characters of a valid domain: [a-z0-9.-]. *)
Definition domain_cls : cls := [(97, 122); (48, 57); (45, 45); (46, 46)].
Definition domain_char (c : ascii) : Prop := in_cls domain_cls c = true.

(** The loop of [extractDomain]: [i] runs over the indices of [parts] and
    each suffix is put in front of the ones found so far ([unshift]). *)
Definition extractDomain (domain : string) : list string :=
  let parts := JS.split "." domain in
  fold_left
    (fun extractedDomains i => JS.join "." (drop i parts) :: extractedDomains)
    (seq 0 (length parts)) [].

Definition isComment (value : string) : bool :=
  JS.startsWith value "#" ||
  JS.startsWith value "//" ||
  JS.startsWith value "!" ||
  JS.startsWith value "/*" ||
  JS.startsWith value "*/".

(** ** [lib/helpers.js] *)

(** [/(0\.0\.0\.0|127\.0\.0\.1|::1|::)\s+/] *)
Definition ipPrefixRe : re :=
  Seq (Alt (Lit "0.0.0.0") (Alt (Lit "127.0.0.1") (Alt (Lit "::1") (Lit "::"))))
      (Plus (Chr space)).

Definition normalizeDomain (value : string) (isAllowlisting : bool) : string :=
  let init := if isAllowlisting then JS.replace "@@||" "" value else value in
  let normalized :=
    JS.replace "^" ""
      (JS.replace "*." ""
         (JS.replace "^$important" ""
            (JS.replace "||" ""
               (Regex.replace ipPrefixRe "" init)))) in
  normalized.

(** ** [lib/constants.js]

    Only [LIST_ITEM_SIZE] is a literal of the repository; the other
    constants are read from the environment of the process when the
    module is loaded, and are the fields of a record here.  A list of
    URLs that is not configured is a falsy value ([None]). *)

Definition LIST_ITEM_SIZE : Z := 1000.

Record Constants : Type := mkConstants {
  LIST_ITEM_LIMIT : Z;
  BLOCK_BASED_ON_SNI : bool;
  DEBUG : bool;
  USER_DEFINED_ALLOWLIST_URLS : option (list string);
  USER_DEFINED_BLOCKLIST_URLS : option (list string);
  RECOMMENDED_ALLOWLIST_URLS : list string;
  RECOMMENDED_BLOCKLIST_URLS : list string
}.

(** [a || b] on a list of URLs that may be missing. *)
Definition or_else {A : Type} (a : option A) (b : A) : A :=
  match a with Some x => x | None => b end.

(** ** The reconciliation loop of [processLists] *)

Record Stats : Type := mkStats {
  processed : nat;
  duplicates : nat;
  allowed : nat
}.

(** What the loop owns: the counters, the [blocklist] set and the
    [domains] array. *)
Record Reconciled : Type := mkReconciled {
  stats : Stats;
  blocklist : gset string;
  domains : list string
}.

Definition count_processed (r : Reconciled) : Reconciled :=
  mkReconciled
    (mkStats (S (processed (stats r))) (duplicates (stats r)) (allowed (stats r)))
    (blocklist r) (domains r).

Definition count_allowed (r : Reconciled) : Reconciled :=
  mkReconciled
    (mkStats (processed (stats r)) (duplicates (stats r)) (S (allowed (stats r))))
    (blocklist r) (domains r).

Definition count_duplicate (r : Reconciled) : Reconciled :=
  mkReconciled
    (mkStats (processed (stats r)) (S (duplicates (stats r))) (allowed (stats r)))
    (blocklist r) (domains r).

Definition blocklist_add (domain : string) (r : Reconciled) : Reconciled :=
  mkReconciled (stats r) ({[domain]} ∪ blocklist r) (domains r).

Definition domains_push (domain : string) (r : Reconciled) : Reconciled :=
  mkReconciled (stats r) (blocklist r) (domains r ++ [domain]).

(** How the inner [for ... of] loop is left through a [break]. *)
Inductive Hit : Type := HitAllowed | HitDuplicate.

(** The inner loop over [extractDomain(domain).slice(1)]: the first item
    found in the allowlist or in the blocklist ends it. *)
Fixpoint scanItems (allowlist blocklist : gset string) (items : list string)
  : option Hit :=
  match items with
  | [] => None
  | item :: rest =>
      if bool_decide (item ∈ allowlist) then Some HitAllowed
      else if negb (bool_decide (item ∈ blocklist))
           then scanItems allowlist blocklist rest
           else Some HitDuplicate
  end.

Section Reconciliation.

Variable limit : Z.                 (* LIST_ITEM_LIMIT *)
Variable allowlist : gset string.

(** One iteration of [for (const domain of rawBlocklist)]. *)
Definition processDomain (r : Reconciled) (domain : string) : Reconciled :=
  let r := count_processed r in
  if bool_decide (domain ∈ allowlist) then count_allowed r
  else if bool_decide (domain ∈ blocklist r) then count_duplicate r
  else
    match scanItems allowlist (blocklist r) (drop 1 (extractDomain domain)) with
    | Some HitAllowed => count_allowed r
    | Some HitDuplicate => count_duplicate r
    | None =>
        let r := blocklist_add domain r in
        if (Z.of_nat (length (domains r)) >? limit - LIST_ITEM_SIZE)%Z
        then r
        else domains_push domain r
    end.

Definition reconcile_from (r : Reconciled) (rawBlocklist : list string)
  : Reconciled :=
  fold_left processDomain rawBlocklist r.

Definition reconcile (rawBlocklist : list string) : Reconciled :=
  reconcile_from (mkReconciled (mkStats 0 0 0) ∅ []) rawBlocklist.

End Reconciliation.

(** ** Domains and the domains above them *)

(** The labels of a domain and the domains above it. *)
Definition labels (d : string) : list string := JS.split "." d.

(** The domain made of the labels of [d] from index [i] on. *)
Definition from_label (d : string) (i : nat) : string :=
  JS.join "." (drop i (labels d)).

Definition strict_ancestor (a d : string) : Prop :=
  exists i, 0 < i < length (labels d) /\ a = from_label d i.

(** [domain] is allowed, or one of the items scanned for it is allowed or
    blocked already. *)
Definition covered (allowlist blocklist : gset string) (domain : string) : Prop :=
  domain ∈ allowlist \/
  exists item, In item (drop 1 (extractDomain domain)) /\
               (item ∈ allowlist \/ item ∈ blocklist).

(** The domain made of the last [k] labels of [d]. *)
Definition last_labels (d : string) (k : nat) : string :=
  from_label d (length (labels d) - k).

(** Following the specification: the strict ancestors of [d], from the
    most specific one outward. *)
Definition spec_strict_ancestors (d : string) : list string :=
  map (from_label d) (seq 1 (length (labels d) - 1)).

(** No item before index [i] is in either set. *)
Definition none_before (A B : gset string) (items : list string) (i : nat) : Prop :=
  forall j b, j < i -> items !! j = Some b -> (b ∉ A) /\ (b ∉ B).

Section Iteration.

Variable limit : Z.
Variable A : gset string.

(** What an iteration does, by cases. *)
Inductive iteration (r : Reconciled) (d : string) : Reconciled -> Prop :=
| it_allowed :
    covered A (blocklist r) d ->
    iteration r d (count_allowed (count_processed r))
| it_duplicate :
    d ∈ blocklist r \/ covered A (blocklist r) d ->
    iteration r d (count_duplicate (count_processed r))
| it_dropped :
    d ∉ A -> d ∉ blocklist r -> ~ covered A (blocklist r) d ->
    (Z.of_nat (length (domains r)) > limit - LIST_ITEM_SIZE)%Z ->
    iteration r d (blocklist_add d (count_processed r))
| it_accepted :
    d ∉ A -> d ∉ blocklist r -> ~ covered A (blocklist r) d ->
    (Z.of_nat (length (domains r)) <= limit - LIST_ITEM_SIZE)%Z ->
    iteration r d (domains_push d (blocklist_add d (count_processed r))).

(** The length the output never exceeds. *)
Definition within_bound (r : Reconciled) : Prop :=
  (Z.of_nat (length (domains r)) <= Z.max 0 (limit - LIST_ITEM_SIZE + 1))%Z.

End Iteration.

(** ** The rule expression of [processLists] *)

Record ZeroTrustList : Type := mkList { list_id : string; list_name : string }.
Record ZeroTrustRule : Type := mkRule { rule_id : string; rule_name : string }.

(** The [reduce] over the remote lists and the [.slice(0, -4)] behind it.
    The two expressions of the script differ in the field only. *)
Definition wirefilterExpression (field : string) (lists : list ZeroTrustList)
  : string :=
  JS.slice_to_minus 4
    (fold_left
       (fun previous current =>
          if negb (JS.startsWith (list_name current) "CGPS List") then previous
          else previous +:+ " any(" +:+ field +:+ "[*] in $" +:+ list_id current
                        +:+ ") or ")
       lists "").

Definition wirefilterDNSExpression : list ZeroTrustList -> string :=
  wirefilterExpression "dns.domains".

Definition wirefilterSNIExpression : list ZeroTrustList -> string :=
  wirefilterExpression "net.sni.domains".

(** One clause of the rule expression, as the [reduce] writes it: with a
    space in front. *)
Definition clause (field : string) (l : ZeroTrustList) : string :=
  " any(" +:+ field +:+ "[*] in $" +:+ list_id l +:+ ")".

(** What the [reduce] has built before the slice. *)
Fixpoint trailing (clauses : list string) : string :=
  match clauses with
  | [] => ""
  | c :: rest => c +:+ " or " +:+ trailing rest
  end.

(** ** Calls that leave the process

    [fetch] of a feed, [requestGateway] of [lib/helpers.js] (one request
    per path and method used by [lib/api.js]) and the Telegram notifier
    are the boundary of the model: what they answer is chosen by a
    handler.  Console output is not modelled. *)

Record Response : Type := mkResponse {
  ok : bool;
  status : nat;
  statusText : string;
  text : string
}.

Inductive FetchOutcome : Type :=
| NetworkError (message : string)     (* the promise of [fetch] rejects *)
| Responded (response : Response).

Inductive Outcome (A : Type) : Type :=
| Rejected (message : string)
| Resolved (a : A).
Arguments Rejected {A} message.
Arguments Resolved {A} a.

(** [buildRulePayload], without the fields that are constants. *)
Record RulePayload : Type := mkPayload {
  payload_name : string;
  payload_filters : list string;
  payload_traffic : string
}.

Inductive Notification : Type :=
| UpdateComplete (totalProcessed allowlisted blocked listsCreated : nat)
| UpdateFailed (message : string).

Inductive request : Type :=
| Fetch (url : string)
| GetLists                                        (* GET /lists *)
| CreateList (name : string) (items : list string) (* POST /lists *)
| DeleteList (id : string)                        (* DELETE /lists/id *)
| GetRules                                        (* GET /rules *)
| CreateRule (payload : RulePayload)              (* POST /rules *)
| UpdateRule (id : string) (payload : RulePayload) (* PUT /rules/id *)
| DeleteRule (id : string)                        (* DELETE /rules/id *)
| Telegram (message : Notification) (isError : bool).

Definition answer (c : request) : Type :=
  match c with
  | Fetch _ => FetchOutcome
  | GetLists => Outcome (option (list ZeroTrustList))
  | GetRules => Outcome (option (list ZeroTrustRule))
  | CreateList _ _ | DeleteList _ | CreateRule _ | UpdateRule _ _ | DeleteRule _ =>
      Outcome unit
  | Telegram _ _ => unit
  end.

(** The requests that change the remote account. *)
Definition mutates (c : request) : bool :=
  match c with
  | CreateList _ _ | DeleteList _ | CreateRule _ | UpdateRule _ _ | DeleteRule _ => true
  | Fetch _ | GetLists | GetRules | Telegram _ _ => false
  end.

(** An asynchronous computation: it returns, throws, or awaits a call. *)
Inductive prog (A : Type) : Type :=
| Ret (a : A)
| Throw (error : string)
| Do (c : request) (k : answer c -> prog A).
Arguments Ret {A} a.
Arguments Throw {A} error.
Arguments Do {A} c k.

Fixpoint bind {A B : Type} (p : prog A) (f : A -> prog B) : prog B :=
  match p with
  | Ret a => f a
  | Throw e => Throw e
  | Do c k => Do c (fun x => bind (k x) f)
  end.

(** [try { p } catch (error) { h error }] *)
Fixpoint try_catch {A : Type} (p : prog A) (h : string -> prog A) : prog A :=
  match p with
  | Ret a => Ret a
  | Throw e => h e
  | Do c k => Do c (fun x => try_catch (k x) h)
  end.

#[export] Instance prog_ret : MRet prog := @Ret.
#[export] Instance prog_bind : MBind prog := fun A B f p => bind p f.

Definition await (c : request) : prog (answer c) := Do c Ret.

(** [for (const x of l) await f(x)] *)
Fixpoint forEach {A : Type} (f : A -> prog unit) (l : list A) : prog unit :=
  match l with
  | [] => Ret tt
  | x :: l' => f x ;; forEach f l'
  end.

(** [await Promise.all(l.map(f))], when no [f x] rejects the answers come
    in the order of [l]. *)
Fixpoint awaitAll {A B : Type} (f : A -> prog B) (l : list A) : prog (list B) :=
  match l with
  | [] => Ret []
  | x :: l' => y ← f x; ys ← awaitAll f l'; Ret (y :: ys)
  end.

(** Running a computation against a handler with a state of its own: the
    calls made, in order, and how the computation ended. *)
Section Run.
Context {W : Type}.
Variable handler : forall c : request, W -> answer c * W.

Fixpoint run {A : Type} (p : prog A) (w : W)
  : list request * (string + A) * W :=
  match p with
  | Ret a => ([], inr a, w)
  | Throw e => ([], inl e, w)
  | Do c k =>
      let '(x, w') := handler c w in
      let '(calls, result, w'') := run (k x) w' in
      (c :: calls, result, w'')
  end.

Definition calls_of {A : Type} (p : prog A) (w : W) : list request :=
  fst (fst (run p w)).

Definition result_of {A : Type} (p : prog A) (w : W) : string + A :=
  snd (fst (run p w)).
End Run.

(** A computation that only fetches feeds and never throws. *)
Inductive fetch_only {A : Type} : prog A -> Prop :=
| fetch_only_ret a : fetch_only (Ret a)
| fetch_only_do url k :
    (forall x, fetch_only (k x)) -> fetch_only (Do (Fetch url) k).

(** A fetch that fails: the promise rejects, or the status is not a
    success. *)
Definition fetch_fails (o : FetchOutcome) : Prop :=
  match o with
  | NetworkError _ => True
  | Responded response => ok response = false
  end.

(** ** [lib/api.js] *)

(** [requestGateway(path, options)]: the parsed answer, or the error of
    the request thrown on.  One call stands for one call of [request] of
    [lib/helpers.js] as a whole: the attempts [fetchRetry] makes for it,
    and the notification [fetchRetry] sends before it gives up, are not
    calls of their own here; that loop is the subject of [Retry] below.
    A request is [Rejected] when [fetchRetry] gives up or the body of the
    answer cannot be parsed. *)
Definition requestGateway {A : Type} (sent : prog (Outcome A)) : prog A :=
  x ← sent;
  match x with
  | Rejected e => Throw e
  | Resolved a => Ret a
  end.

Definition getZeroTrustLists : prog (option (list ZeroTrustList)) :=
  requestGateway (await GetLists).

Definition createZeroTrustList (name : string) (items : list string) : prog unit :=
  requestGateway (await (CreateList name items)).

Definition deleteZeroTrustList (id : string) : prog unit :=
  requestGateway (await (DeleteList id)).

Definition getZeroTrustRules : prog (option (list ZeroTrustRule)) :=
  requestGateway (await GetRules).

(** The loop of [createZeroTrustListsOneByOne]; [i] advances by
    [LIST_ITEM_SIZE], so [length items] iterations are always enough. *)
Fixpoint createLists (fuel : nat) (items : list string) (i listNumber : nat)
  : prog unit :=
  match fuel with
  | 0 => Ret tt
  | S fuel' =>
      if Nat.ltb i (length items) then
        let chunk := take (Z.to_nat LIST_ITEM_SIZE) (drop i items) in
        let listName := "CGPS List - Chunk " +:+ pretty listNumber in
        try_catch (createZeroTrustList listName chunk) (fun err => Throw err) ;;
        createLists fuel' items (i + Z.to_nat LIST_ITEM_SIZE) (S listNumber)
      else Ret tt
  end.

Definition createZeroTrustListsOneByOne (items : list string) : prog unit :=
  createLists (length items) items 0 1.

Definition deleteZeroTrustListsOneByOne (lists : list ZeroTrustList) : prog unit :=
  if Nat.eqb (length lists) 0 then Ret tt
  else forEach
         (fun l => try_catch (deleteZeroTrustList (list_id l)) (fun error => Throw error))
         lists.

Definition buildRulePayload (wirefilterExpression name : string)
    (filters : list string) : RulePayload :=
  mkPayload name filters wirefilterExpression.

Definition createZeroTrustRule (wirefilterExpression name : string)
    (filters : list string) : prog unit :=
  let payload := buildRulePayload wirefilterExpression name filters in
  try_catch (requestGateway (await (CreateRule payload)))
            (fun error => Throw error).

Definition updateZeroTrustRule (id wirefilterExpression name : string)
    (filters : list string) : prog unit :=
  let payload := buildRulePayload wirefilterExpression name filters in
  try_catch (requestGateway (await (UpdateRule id payload)))
            (fun error => Throw error).

Definition deleteZeroTrustRule (id : string) : prog unit :=
  try_catch (requestGateway (await (DeleteRule id)))
            (fun err => Throw err).

(** Reading a property of [undefined]. *)
Definition TypeError : string := "TypeError".

(** With [DEBUG] set and no rule of that name, the message logged before
    the creation reads [existingRule.name] of [undefined]. *)
Definition upsertZeroTrustRule (debug : bool)
    (wirefilterExpression name : string) (filters : list string) : prog unit :=
  existingRules ← getZeroTrustRules;
  match existingRules with
  | None => Throw TypeError
  | Some existingRules =>
      match List.find (fun rule => String.eqb (rule_name rule) name) existingRules with
      | Some existingRule =>
          updateZeroTrustRule (rule_id existingRule) wirefilterExpression name filters
      | None =>
          if debug then Throw TypeError
          else createZeroTrustRule wirefilterExpression name filters
      end
  end.

(** [sendTelegramNotification]: best effort, its own failures are caught. *)
Definition sendTelegramNotification (message : Notification) (isError : bool)
  : prog unit :=
  await (Telegram message isError).

(** ** [update_filter_lists.js] *)

(** [!process.env[key]] *)
Definition env_missing (env : gmap string string) (key : string) : bool :=
  match env !! key with
  | Some v => negb (JS.truthy v)
  | None => true
  end.

Definition validateEnvironment (env : gmap string string) : prog unit :=
  let required := ["CLOUDFLARE_API_TOKEN"; "CLOUDFLARE_ACCOUNT_ID"] in
  let missing := List.filter (env_missing env) required in
  if Nat.ltb 0 (length missing) then
    Throw ("Missing required environment variables: " +:+ JS.join ", " missing)
  else if env_missing env "ALLOWLIST_URLS" && env_missing env "BLOCKLIST_URLS" then
    Throw "At least one of ALLOWLIST_URLS or BLOCKLIST_URLS must be provided"
  else Ret tt.

(** [new Set(array)]: the elements in the order of their first insertion. *)
Definition new_Set (array : list string) : list string :=
  fold_left (fun (set : list string) (x : string) =>
               if bool_decide (x ∈ set) then set else set ++ [x])
            array [].

Definition LF : ascii := "010"%char.

(** The pipeline of [fetchDomains] on the text of a feed. *)
Definition parseDomains (feed : string) (isAllowlist : bool) : list string :=
  new_Set
    (List.filter (fun domain => isValidDomain domain)
       (map (fun line => normalizeDomain line isAllowlist)
          (List.filter (fun line => JS.truthy line && negb (isComment line))
             (map (fun line => JS.trim line) (JS.split LF feed))))).

Definition fetch (url : string) : prog Response :=
  outcome ← await (Fetch url);
  match outcome with
  | NetworkError message => Throw message
  | Responded response => Ret response
  end.

Definition fetchDomains (url : string) (isAllowlist : bool) : prog (list string) :=
  try_catch
    (response ← fetch url;
     if negb (ok response) then
       Throw ("HTTP " +:+ pretty (status response) +:+ ": " +:+ statusText response)
     else Ret (parseDomains (text response) isAllowlist))
    (fun error => Ret (new_Set [])).

Definition fetchAndProcessUrls (urlList : list string) (isAllowlist : bool)
  : prog (list string) :=
  domainSets ← awaitAll (fun url => fetchDomains url isAllowlist) urlList;
  Ret (new_Set (concat domainSets)).

(** [Math.ceil(n / LIST_ITEM_SIZE)] *)
Definition numberOfLists (n : nat) : nat :=
  Z.to_nat ((Z.of_nat n + LIST_ITEM_SIZE - 1) / LIST_ITEM_SIZE).

Definition is_cgps_rule (rule : ZeroTrustRule) : bool :=
  String.eqb (rule_name rule) "CGPS Filter Lists" ||
  String.eqb (rule_name rule) "CGPS Filter Lists - SNI Based Filtering".

Definition is_cgps_list (l : ZeroTrustList) : bool :=
  JS.startsWith (list_name l) "CGPS List".

Section Script.

Variable K : Constants.
Variable env : gmap string string.   (* process.env *)

(** The two downloads of [processLists]. *)
Definition fetchLists : prog (list string * list string) :=
  allowlist ← fetchAndProcessUrls
    (or_else (USER_DEFINED_ALLOWLIST_URLS K) (RECOMMENDED_ALLOWLIST_URLS K)) true;
  rawBlocklist ← fetchAndProcessUrls
    (or_else (USER_DEFINED_BLOCKLIST_URLS K) (RECOMMENDED_BLOCKLIST_URLS K)) false;
  Ret (allowlist, rawBlocklist).

(** [processLists] behind the test for an empty result.  Both listings
    of the [Promise.all] are sent.  When both are rejected the script
    throws the rejection that comes first; here it is the one of the
    rules. *)
Definition synchronise (allowlistSize : nat) (r : Reconciled) : prog unit :=
  rules ← await GetRules;
  lists ← await GetLists;
  match rules, lists with
  | Rejected e, _ => Throw e
  | _, Rejected e => Throw e
  | Resolved existingRules, Resolved existingLists =>
      let cgpsRules := List.filter is_cgps_rule (or_else existingRules []) in
      forEach (fun rule => deleteZeroTrustRule (rule_id rule)) cgpsRules ;;
      let cgpsLists := List.filter is_cgps_list (or_else existingLists []) in
      (if Nat.eqb (length cgpsLists) 0 then Ret tt
       else deleteZeroTrustListsOneByOne cgpsLists) ;;
      createZeroTrustListsOneByOne (domains r) ;;
      lists ← getZeroTrustLists;
      match lists with
      | None => Throw TypeError
      | Some lists =>
          upsertZeroTrustRule (DEBUG K) (wirefilterDNSExpression lists)
            "CGPS Filter Lists" ["dns"] ;;
          (if BLOCK_BASED_ON_SNI K then
             upsertZeroTrustRule (DEBUG K) (wirefilterSNIExpression lists)
               "CGPS Filter Lists - SNI Based Filtering" ["l4"]
           else Ret tt) ;;
          sendTelegramNotification
            (UpdateComplete (processed (stats r)) allowlistSize
               (length (domains r)) (numberOfLists (length (domains r))))
            false
      end
  end.

Definition processLists : prog unit :=
  validateEnvironment env ;;
  lists ← fetchLists;
  let allowlist := fst lists in
  let rawBlocklist := snd lists in
  let r := reconcile (LIST_ITEM_LIMIT K) (list_to_set allowlist) rawBlocklist in
  if Nat.eqb (length (domains r)) 0 then Ret tt
  else synchronise (length allowlist) r.

(** The last statement of the script: [processLists().catch(...)]. *)
Definition main : prog nat :=
  try_catch (processLists ;; Ret 0)
    (fun error =>
       sendTelegramNotification (UpdateFailed error) true ;;
       Ret 1).

End Script.

(** ** A small remote account, to run the script on concrete feeds *)

Module Example.

Record Account : Type := mkAccount {
  account_lists : list ZeroTrustList;
  account_rules : list ZeroTrustRule;
  account_next : nat
}.

(** Every request to the gateway succeeds; a created list or rule gets
    the next free number as its id. *)
Definition gateway (feeds : string -> FetchOutcome) (c : request) (w : Account)
  : answer c * Account :=
  match c as c0 return answer c0 * Account with
  | Fetch url => (feeds url, w)
  | GetLists => (Resolved (Some (account_lists w)), w)
  | GetRules => (Resolved (Some (account_rules w)), w)
  | CreateList name _ =>
      (Resolved tt,
       mkAccount (account_lists w ++ [mkList (pretty (account_next w)) name])
                 (account_rules w) (S (account_next w)))
  | DeleteList id =>
      (Resolved tt,
       mkAccount (List.filter (fun l => negb (String.eqb (list_id l) id)) (account_lists w))
                 (account_rules w) (account_next w))
  | CreateRule payload =>
      (Resolved tt,
       mkAccount (account_lists w)
                 (account_rules w ++ [mkRule (pretty (account_next w)) (payload_name payload)])
                 (S (account_next w)))
  | UpdateRule _ _ => (Resolved tt, w)
  | DeleteRule id =>
      (Resolved tt,
       mkAccount (account_lists w)
                 (List.filter (fun r => negb (String.eqb (rule_id r) id)) (account_rules w))
                 (account_next w))
  | Telegram _ _ => (tt, w)
  end.

Definition empty_account : Account := mkAccount [] [] 10.

Definition constants : Constants :=
  mkConstants 300000 false false
    (Some ["https://feeds.test/allow.txt"])
    (Some ["https://feeds.test/block.txt"; "https://feeds.test/down.txt"])
    [] [].

Definition environment : gmap string string :=
  {[ "CLOUDFLARE_API_TOKEN" := "token";
     "CLOUDFLARE_ACCOUNT_ID" := "account";
     "BLOCKLIST_URLS" := "https://feeds.test/block.txt" ]}.

Definition lines (l : list string) : string := JS.join (String LF EmptyString) l.

(** One allow feed, one block feed, and a block feed that is down. *)
Definition feeds (url : string) : FetchOutcome :=
  if String.eqb url "https://feeds.test/allow.txt" then
    Responded (mkResponse true 200 "OK" (lines ["# allowed"; "@@||good.example.org^"]))
  else if String.eqb url "https://feeds.test/block.txt" then
    Responded
      (mkResponse true 200 "OK"
         (lines ["! blocked"; "0.0.0.0 ads.example.com"; "||tracker.example.net^";
                 "cdn.good.example.org"; ""; "not a domain"]))
  else Responded (mkResponse false 503 "Service Unavailable" "").

(** Feeds whose block entries are all allowed. *)
Definition quiet_feeds (url : string) : FetchOutcome :=
  if String.eqb url "https://feeds.test/allow.txt" then
    Responded (mkResponse true 200 "OK" (lines ["example.com"]))
  else if String.eqb url "https://feeds.test/block.txt" then
    Responded (mkResponse true 200 "OK" (lines ["sub.example.com"]))
  else NetworkError "fetch failed".

End Example.

(** ** Vocabulary for the properties of the loop and of the requests *)

(** ** What the loop keeps *)

(** What the loop keeps between its three variables. *)
Definition consistent (r : Reconciled) : Prop :=
  NoDup (domains r) /\
  (forall x, x ∈ domains r -> x ∈ blocklist r) /\
  allowed (stats r) + duplicates (stats r) + size (blocklist r)
  = processed (stats r).

(** As long as the output is short enough nothing is dropped, and the
    block set is the set of the output. *)
Definition nothing_dropped (seen : nat) (r : Reconciled) : Prop :=
  length (domains r) <= seen /\ blocklist r = list_to_set (domains r).

(** What a literal matches: the input behind it, when the input starts
    with it. *)
Fixpoint lit_end (s : list ascii) (p : pos) : list pos :=
  match s with
  | [] => [p]
  | c :: s' =>
      match snd p with
      | c' :: rest => if Ascii.eqb c c' then lit_end s' (Some c', rest) else []
      | [] => []
      end
  end.

(** Every call a computation can make satisfies [P], whatever the answers. *)
Fixpoint all_calls {A : Type} (P : request -> Prop) (p : prog A) : Prop :=
  match p with
  | Ret _ | Throw _ => True
  | Do c k => P c /\ forall x, all_calls P (k x)
  end.

(** Whenever the computation returns, what it returns satisfies [Q]. *)
Fixpoint returns_only {A : Type} (Q : A -> Prop) (p : prog A) : Prop :=
  match p with
  | Ret a => Q a
  | Throw _ => True
  | Do c k => forall x, returns_only Q (k x)
  end.

(** What the script may ask the gateway to create: lists and rules that
    its own clean-up will find again, lists of 1 to 1000 valid domains. *)
Definition well_formed_request (c : request) : Prop :=
  match c with
  | CreateList name items =>
      is_cgps_list (mkList "" name) = true /\
      1 <= length items <= 1000 /\
      Forall (fun d => isValidDomain d = true) items
  | CreateRule payload | UpdateRule _ payload =>
      is_cgps_rule (mkRule "" (payload_name payload)) = true
  | _ => True
  end.

(** The name of the list number [listNumber]. *)
Definition chunk_name (listNumber : nat) : string :=
  "CGPS List - Chunk " +:+ pretty listNumber.

(** The step of [processLists] a request that changes the account belongs
    to: rules are deleted, then lists, then lists are created, then rules
    are written. *)
Definition stage (c : request) : nat :=
  match c with
  | DeleteRule _ => 1
  | DeleteList _ => 2
  | CreateList _ _ => 3
  | CreateRule _ | UpdateRule _ _ => 4
  | Fetch _ | GetLists | GetRules | Telegram _ _ => 0
  end.

(** On every path of [p] the changing requests come in stages that never
    go down, none below [lo]. *)
Fixpoint staged {A : Type} (lo : nat) (p : prog A) : Prop :=
  match p with
  | Ret _ | Throw _ => True
  | Do c k =>
      (mutates c = true -> lo <= stage c) /\
      forall x, staged (if mutates c then stage c else lo) (k x)
  end.

(** Every changing request of [p] is of stage [s]. *)
Definition in_stage {A : Type} (s : nat) (p : prog A) : Prop :=
  all_calls (fun c => mutates c = true -> stage c = s) p.

(** Feeding the output of the loop to the loop again gives it back. *)
Definition replays (limit : Z) (allowlist : gset string) (r : Reconciled) : Prop :=
  let again := reconcile limit allowlist (domains r) in
  domains again = domains r /\
  blocklist again ⊆ blocklist r /\
  allowed (stats again) = 0 /\ duplicates (stats again) = 0.

(** ** [fetchRetry] of [lib/utils.js]

    The answers of the successive calls of [fetch] are given as a list;
    the delays between the calls are not modelled. *)
Module Retry.

(** [FETCH_CONFIG] *)
Definition MAX_ATTEMPTS : Z := 5.
Definition RATE_LIMIT_STATUS : nat := 429.

(** How a call of [fetchRetry] stands when the answers are used up. *)
Inductive Finished : Type :=
| Returned (response : Response)
| LeftLoop                                  (* the [while] test fails *)
| Failed (notification message : string)    (* notified, then thrown *)
| Waiting.                                  (* no answer left to read *)

Definition fetched (r : Finished * nat) : Finished * nat := (fst r, S (snd r)).

(** The loop from the value [attempt] on; the second component counts the
    calls of [fetch]. *)
Fixpoint fetchRetry_from (attempt : Z) (answers : list FetchOutcome)
  : Finished * nat :=
  if (attempt <? MAX_ATTEMPTS)%Z then
    match answers with
    | [] => (Waiting, 0)
    | Responded response :: rest =>
        if ok response then fetched (Returned response, 0)
        else if Nat.eqb (status response) RATE_LIMIT_STATUS then
          fetched (fetchRetry_from (attempt - 1) rest)
        else
          let message :=
            "HTTP " +:+ pretty (status response) +:+ ":" +:+ statusText response
            +:+ " - " +:+ text response in
          let attempt := (attempt + 1)%Z in
          if (attempt =? MAX_ATTEMPTS)%Z then
            fetched (Failed ("Failed to fetch after " +:+ pretty attempt
                             +:+ " attempts: " +:+ message) message, 0)
          else fetched (fetchRetry_from attempt rest)
    | NetworkError message :: rest =>
        let attempt := (attempt + 1)%Z in
        if (attempt =? MAX_ATTEMPTS)%Z then
          fetched (Failed ("Failed to fetch after " +:+ pretty attempt
                           +:+ " attempts: " +:+ message) message, 0)
        else fetched (fetchRetry_from attempt rest)
    end
  else (LeftLoop, 0).

Definition fetchRetry (answers : list FetchOutcome) : Finished * nat :=
  fetchRetry_from 0 answers.

(** The three kinds of answer the loop tells apart. *)
Definition succeeds (answer : FetchOutcome) : bool :=
  match answer with
  | Responded response => ok response
  | NetworkError _ => false
  end.

Definition rate_limited (answer : FetchOutcome) : bool :=
  match answer with
  | Responded response =>
      negb (ok response) && Nat.eqb (status response) RATE_LIMIT_STATUS
  | NetworkError _ => false
  end.

Definition fails (answer : FetchOutcome) : bool :=
  negb (succeeds answer) && negb (rate_limited answer).

Definition count (f : FetchOutcome -> bool) (answers : list FetchOutcome) : Z :=
  Z.of_nat (length (List.filter f answers)).

End Retry.

(** ** [memoize] of [lib/utils.js], for a function of strings *)
Section Memoize.
Context {R : Type}.
Variable fn : list string -> R.

(** One call of the function [memoize(fn)] returns, on the cache it
    closes over. *)
Definition memoized (cache : gmap string R) (args : list string)
  : R * gmap string R :=
  let key := JS.join "-" args in
  match cache !! key with
  | Some cached => (cached, cache)
  | None =>
      let result := fn args in
      (result, <[key := result]> cache)
  end.

(** The results of successive calls. *)
Fixpoint memoized_calls (cache : gmap string R) (calls : list (list string))
  : list R :=
  match calls with
  | [] => []
  | args :: rest =>
      let '(result, cache) := memoized cache args in
      result :: memoized_calls cache rest
  end.

End Memoize.

(** ** The worker: [requestGateway] and [createZeroTrustListsOneByOne]

    [worker/src/constants] is not part of the sources at hand: its two
    constants are variables here.  The answers of the successive calls of
    [fetch] are given as a list, and what is left of it is returned. *)
Module Worker.
Section Worker.

Variable LIST_ITEM_SIZE : nat.
Variable RATE_LIMITING_HTTP_ERROR_CODE : nat.

Inductive Settled : Type :=
| Json (response : Response)     (* [return response.json()] *)
| LeftLoop                       (* the [while] test fails: [undefined] *)
| Thrown (message : string)
| Waiting.                       (* no answer left to read *)

(** The loop of [requestGateway] from the value [retries] on. *)
Fixpoint requestGateway_from (retries : nat) (answers : list FetchOutcome)
  : Settled * list FetchOutcome :=
  match retries with
  | 0 => (LeftLoop, answers)
  | S fewer =>
      match answers with
      | [] => (Waiting, [])
      | Responded response :: rest =>
          if negb (ok response) then
            if Nat.eqb (status response) RATE_LIMITING_HTTP_ERROR_CODE then
              requestGateway_from fewer rest
            else if Nat.eqb retries 0 then
              (Thrown ("HTTP " +:+ pretty (status response) +:+ ": "
                       +:+ text response), rest)
            else requestGateway_from fewer rest
          else (Json response, rest)
      | NetworkError message :: rest =>
          if Nat.eqb retries 0 then (Thrown message, rest)
          else requestGateway_from fewer rest
      end
  end.

Definition requestGateway (answers : list FetchOutcome)
  : Settled * list FetchOutcome :=
  requestGateway_from 3 answers.

Inductive Ended : Type :=
| Done
| Threw (message : string)
| Stalled          (* no answer left to read *)
| OutOfFuel.

(** The loop of [createZeroTrustListsOneByOne]; the second component
    lists the name and the items of the lists posted. *)
Fixpoint createLists (fuel : nat) (items : list string) (i listNumber : nat)
    (answers : list FetchOutcome)
  : Ended * list (string * list string) * list FetchOutcome :=
  match fuel with
  | 0 => (if Nat.ltb i (length items) then OutOfFuel else Done, [], answers)
  | S fuel' =>
      if Nat.ltb i (length items) then
        let chunk := take LIST_ITEM_SIZE (drop i items) in
        let listName := "CGPS List - Chunk " +:+ pretty listNumber in
        match requestGateway answers with
        | (Thrown message, rest) => (Threw message, [(listName, chunk)], rest)
        | (Waiting, rest) => (Stalled, [(listName, chunk)], rest)
        | (_, rest) =>
            let '(ended, posted, rest) :=
              createLists fuel' items (i + LIST_ITEM_SIZE) (S listNumber) rest in
            (ended, (listName, chunk) :: posted, rest)
        end
      else (Done, [], answers)
  end.

Definition createZeroTrustListsOneByOne (items : list string)
    (answers : list FetchOutcome)
  : Ended * list (string * list string) * list FetchOutcome :=
  createLists (length items) items 0 1 answers.

End Worker.
End Worker.

(** * Properties *)

(** ** The model on the examples of the documentation *)

Example extractDomain_example :
  extractDomain "a.b.example.com"
  = ["com"; "example.com"; "b.example.com"; "a.b.example.com"].
Proof. vm_compute. reflexivity. Qed.

Example isValidDomain_examples :
  map isValidDomain
      ["example.com"; "xn--80ak6aa92e.com"; "a-b.example.com"; "com";
       "a--b.com"; "-a.com"; "Example.com"; "example.com."; "1.2.3.4"; ""]
  = [true; true; true; false; false; false; false; false; false; false].
Proof. vm_compute. reflexivity. Qed.

Example normalizeDomain_examples :
  normalizeDomain "0.0.0.0 tracker.example.com" false = "tracker.example.com" /\
  normalizeDomain "@@||example.com" true = "example.com" /\
  normalizeDomain "||ads.example.com^$important" false = "ads.example.com" /\
  normalizeDomain "*.example.com" false = "example.com".
Proof. vm_compute. repeat split; reflexivity. Qed.

Example reconcile_covered_subdomain :
  domains (reconcile 300000 ∅ ["ads.example.com"; "example.com"; "x.example.com"])
  = ["ads.example.com"; "example.com"] /\
  stats (reconcile 300000 ∅ ["ads.example.com"; "example.com"; "x.example.com"])
  = mkStats 3 1 0.
Proof. vm_compute. split; reflexivity. Qed.

Example reconcile_allowed_ancestor :
  domains (reconcile 300000 {["example.com"]} ["sub.example.com"]) = [] /\
  stats (reconcile 300000 {["example.com"]} ["sub.example.com"]) = mkStats 1 0 1.
Proof. vm_compute. split; reflexivity. Qed.

(** ** The matcher *)

Module RegexFacts.

Import Regex.

Lemma upto_reads f r e :
  (forall p q, In q (f p) -> reads r p q) ->
  forall n p q, In q (upto f n p) -> reads (Rep r 0 e) p q.
Proof.
  intros Hf n. induction n as [|n IH]; intros p q Hq; simpl in Hq.
  - destruct Hq as [<-|[]]. exists []. split; [reflexivity | constructor].
  - apply in_app_or in Hq. destruct Hq as [Hq | [<-|[]]].
    + apply in_flat_map in Hq. destruct Hq as (p' & Hp' & Hq).
      apply filter_In in Hp'. destruct Hp' as [Hp' _].
      destruct (Hf _ _ Hp') as (w1 & E1 & L1).
      destruct (IH _ _ Hq) as (w2 & E2 & L2).
      exists (w1 ++ w2). split.
      * rewrite E1, E2. now rewrite app_assoc.
      * now constructor.
    + exists []. split; [reflexivity | constructor].
Qed.

Lemma exactly_reads f r e :
  (forall p q, In q (f p) -> reads r p q) ->
  forall n p p' q,
    In p' (exactly f n p) -> reads (Rep r 0 e) p' q -> reads (Rep r n e) p q.
Proof.
  intros Hf n. induction n as [|n IH]; intros p p' q Hp' Hq; simpl in Hp'.
  - destruct Hp' as [<-|[]]. exact Hq.
  - apply in_flat_map in Hp'. destruct Hp' as (p1 & Hp1 & Hp').
    destruct (Hf _ _ Hp1) as (w1 & E1 & L1).
    destruct (IH _ _ _ Hp' Hq) as (w2 & E2 & L2).
    exists (w1 ++ w2). split.
    + rewrite E1, E2. now rewrite app_assoc.
    + now constructor.
Qed.

(** The matcher only reports ends of words of the expression. *)
Lemma match_re_reads r : forall p q, In q (match_re r p) -> reads r p q.
Proof.
  induction r as [| k | r1 IH1 r2 IH2 | r1 IH1 r2 IH2 | r IH lo e | r IH | | |];
    intros p q Hq; simpl in Hq.
  - destruct Hq as [<-|[]]. exists []. split; [reflexivity | constructor].
  - destruct p as [prev [|c s]]; simpl in Hq; [contradiction|].
    destruct (in_cls k c) eqn:Hk; [|contradiction].
    destruct Hq as [<-|[]]. exists [c]. split; [reflexivity | now constructor].
  - apply in_flat_map in Hq. destruct Hq as (p' & Hp' & Hq).
    destruct (IH1 _ _ Hp') as (w1 & E1 & L1).
    destruct (IH2 _ _ Hq) as (w2 & E2 & L2).
    exists (w1 ++ w2). split.
    + rewrite E1, E2. now rewrite app_assoc.
    + now constructor.
  - apply in_app_or in Hq. destruct Hq as [Hq|Hq].
    + destruct (IH1 _ _ Hq) as (w & E & L). exists w. split; [easy | now apply lang_alt_l].
    + destruct (IH2 _ _ Hq) as (w & E & L). exists w. split; [easy | now apply lang_alt_r].
  - apply in_flat_map in Hq. destruct Hq as (p' & Hp' & Hq).
    eapply exactly_reads; [exact IH | exact Hp' |].
    eapply upto_reads; [exact IH | exact Hq].
  - destruct (match_re r p); [contradiction|]. destruct Hq as [<-|[]].
    exists []. split; [reflexivity | constructor].
  - destruct (fst p); [contradiction|]. destruct Hq as [<-|[]].
    exists []. split; [reflexivity | constructor].
  - destruct (snd p) eqn:E; [|contradiction]. destruct Hq as [<-|[]].
    exists []. split; [now rewrite E | constructor].
  - destruct (xorb _ _); [|contradiction]. destruct Hq as [<-|[]].
    exists []. split; [reflexivity | constructor].
Qed.

Lemma exec_from_reads r : forall s prev skipped rest,
  exec_from r prev s = Some (skipped, rest) ->
  exists w, s = skipped ++ w ++ rest /\ lang r w.
Proof.
  induction s as [|c s IH]; intros prev skipped rest H; simpl in H.
  - destruct (match_re r (prev, [])) as [|q l] eqn:E; [discriminate|].
    injection H as <- <-.
    destruct (match_re_reads r (prev, []) q) as (w & Ew & L); [rewrite E; now left|].
    exists w. split; [exact Ew | exact L].
  - destruct (match_re r (prev, c :: s)) as [|q l] eqn:E.
    + destruct (exec_from r (Some c) s) as [[sk rs]|] eqn:E'; [|discriminate].
      injection H as <- <-.
      destruct (IH _ _ _ E') as (w & Ew & L).
      exists w. split; [simpl; now rewrite Ew | exact L].
    + injection H as <- <-.
      destruct (match_re_reads r (prev, c :: s) q) as (w & Ew & L); [rewrite E; now left|].
      exists w. split; [exact Ew | exact L].
Qed.

Lemma lang_all_chars P r w : lang r w -> all_chars P r -> Forall P w.
Proof.
  induction 1; simpl; intros HP;
    try (apply Forall_app; split); try constructor; intuition auto.
Qed.

Lemma lang_some_char P r w : lang r w -> some_char P r -> Exists P w.
Proof.
  induction 1; simpl; intros HP; try contradiction.
  - constructor. auto.
  - apply Exists_app. tauto.
  - tauto.
  - tauto.
  - apply Exists_app. left. auto.
Qed.

(** An expression that starts with [^] matches at the start only. *)
Lemma exec_from_bol_some r : forall s c, exec_from (Seq Bol r) (Some c) s = None.
Proof.
  induction s as [|c' s IH]; intros c; simpl; [reflexivity|].
  now rewrite IH.
Qed.

Lemma exec_from_bol r s skipped rest :
  exec_from (Seq Bol r) None s = Some (skipped, rest) ->
  skipped = [] /\ exists q, In q (match_re (Seq Bol r) (None, s)) /\ rest = snd q.
Proof.
  destruct s as [|c s].
  - cbn [exec_from]. destruct (match_re (Seq Bol r) (None, [])) as [|q l] eqn:E; [discriminate|].
    intros H. injection H as <- <-. split; [reflexivity|]. exists q. split; [now left | reflexivity].
  - cbn [exec_from]. destruct (match_re (Seq Bol r) (None, c :: s)) as [|q l] eqn:E.
    + now rewrite exec_from_bol_some.
    + intros H. injection H as <- <-. split; [reflexivity|]. exists q. split; [now left | reflexivity].
Qed.

Lemma match_re_at_end r : at_end r -> forall p q, In q (match_re r p) -> snd q = [].
Proof.
  induction r; simpl; try contradiction; intros H p q Hq.
  - apply in_flat_map in Hq. destruct Hq as (p' & _ & Hq). eauto.
  - destruct (snd p) eqn:E; [|contradiction]. destruct Hq as [<-|[]]. exact E.
Qed.

Lemma test_anchored r s :
  anchored r -> test r s = true -> lang r (JS.chars s).
Proof.
  destruct r as [| |r1 r| | | | | |]; try contradiction.
  destruct r1; try contradiction. simpl.
  unfold test. intros Hend H.
  destruct (exec_from (Seq Bol r) None (JS.chars s)) as [[skipped rest]|] eqn:E;
    [clear H | discriminate].
  destruct (exec_from_bol _ _ _ _ E) as (-> & q & Hq & ->).
  assert (snd q = []) as Hnil by (eapply (match_re_at_end (Seq Bol r)); [exact Hend | exact Hq]).
  destruct (match_re_reads _ _ _ Hq) as (w & Ew & L).
  simpl in Ew. rewrite Hnil, app_nil_r in Ew. now subst w.
Qed.

Lemma cls_sub_correct k k' :
  cls_sub k k' = true -> forall c, in_cls k c = true -> in_cls k' c = true.
Proof.
  unfold cls_sub. rewrite forallb_forall. intros H c Hc.
  specialize (H (nat_of_ascii c)).
  rewrite ascii_nat_embedding, Hc in H. apply H.
  apply in_seq. pose proof (nat_ascii_bounded c). lia.
Qed.


Lemma cls_apart_correct k k' :
  cls_apart k k' = true -> forall c, in_cls k c = true -> in_cls k' c = false.
Proof.
  unfold cls_apart. rewrite forallb_forall. intros H c Hc.
  assert (In (nat_of_ascii c) (seq 0 256)) as Hin
    by (apply in_seq; pose proof (nat_ascii_bounded c); lia).
  apply H in Hin. rewrite ascii_nat_embedding, Hc in Hin.
  now apply negb_true_iff in Hin.
Qed.

End RegexFacts.

Import RegexFacts.

(** ** Valid domains and [normalizeDomain] *)

Lemma validDomainRe_lang s :
  isValidDomain s = true -> lang validDomainRe (JS.chars s).
Proof. intros H. apply test_anchored; [exact I | exact H]. Qed.

Lemma in_cls_single n c : in_cls [(n, n)] c = true -> c = ascii_of_nat n.
Proof.
  unfold in_cls. simpl. rewrite orb_false_r, andb_true_iff, !Nat.leb_le.
  intros [H1 H2]. rewrite <- (ascii_nat_embedding c). f_equal. lia.
Qed.

Lemma validDomain_chars s :
  isValidDomain s = true -> Forall domain_char (JS.chars s).
Proof.
  intros H. eapply lang_all_chars; [apply validDomainRe_lang, H|].
  unfold domain_char, validDomainRe, Plus, Star, Opt. cbn [seqs Lit all_chars].
  repeat split; apply cls_sub_correct; vm_compute; reflexivity.
Qed.

Lemma validDomain_has_dot s :
  isValidDomain s = true -> In "."%char (JS.chars s).
Proof.
  intros H.
  assert (Exists (fun c => c = "."%char) (JS.chars s)) as E.
  { eapply lang_some_char; [apply validDomainRe_lang, H|].
    unfold validDomainRe, Plus, Star, Opt. cbn [seqs Lit some_char].
    right. right. left. right. right. right. right.
    intros c Hc. now apply in_cls_single in Hc. }
  apply List.Exists_exists in E. destruct E as (c & Hin & ->). exact Hin.
Qed.

Lemma after_prefix_chars p : forall s rest,
  JS.after_prefix p s = Some rest -> JS.chars s = JS.chars p ++ JS.chars rest.
Proof.
  induction p as [|a p IH]; intros s rest H; simpl in H.
  - now injection H as ->.
  - destruct s as [|b s]; [discriminate|].
    destruct (Ascii.eqb a b) eqn:E; [|discriminate].
    apply Ascii.eqb_eq in E. subst b. simpl. f_equal. now apply IH.
Qed.

Lemma replace_absent pat repl c : forall s,
  In c (JS.chars pat) -> ~ In c (JS.chars s) -> JS.replace pat repl s = s.
Proof.
  intros s Hc. induction s as [|b s IH]; intros Hs.
  - simpl. destruct (JS.after_prefix pat "") eqn:E; [|reflexivity].
    apply after_prefix_chars in E. exfalso. apply Hs. rewrite E.
    apply in_or_app. now left.
  - cbn [JS.replace]. destruct (JS.after_prefix pat (String b s)) eqn:E.
    + apply after_prefix_chars in E. exfalso. apply Hs. rewrite E.
      apply in_or_app. now left.
    + f_equal. apply IH. intros Hin. apply Hs. now right.
Qed.

Lemma regex_replace_absent (P : ascii -> Prop) r repl s :
  some_char P r -> Forall (fun c => ~ P c) (JS.chars s) ->
  Regex.replace r repl s = s.
Proof.
  intros Hr Hs. unfold Regex.replace.
  destruct (exec_from r None (JS.chars s)) as [[skipped rest]|] eqn:E; [|reflexivity].
  exfalso. apply exec_from_reads in E. destruct E as (w & Ew & L).
  apply (lang_some_char P) in L; [|exact Hr].
  apply List.Exists_exists in L. destruct L as (c & Hin & Hc).
  rewrite List.Forall_forall in Hs. apply (Hs c); [|exact Hc].
  rewrite Ew. apply in_or_app. right. apply in_or_app. now left.
Qed.

(** [normalizeDomain] leaves a string of domain characters as it is. *)
Lemma normalizeDomain_domain_chars s b :
  Forall domain_char (JS.chars s) -> normalizeDomain s b = s.
Proof.
  intros H. rewrite List.Forall_forall in H.
  assert (forall n, in_cls domain_cls (ascii_of_nat n) = false ->
                    ~ In (ascii_of_nat n) (JS.chars s)) as Hno.
  { intros n Hn Hin. apply H in Hin. unfold domain_char in Hin. congruence. }
  assert (Regex.replace ipPrefixRe "" s = s) as E1.
  { apply (regex_replace_absent (fun c => in_cls space c = true)).
    - unfold ipPrefixRe, Plus. cbn [some_char]. right. auto.
    - apply List.Forall_forall. intros c Hin Hc. apply H in Hin. unfold domain_char in Hin.
      assert (in_cls domain_cls c = false); [|congruence].
      now apply (cls_apart_correct space domain_cls). }
  assert (forall pat n, In (ascii_of_nat n) (JS.chars pat) ->
            in_cls domain_cls (ascii_of_nat n) = false ->
            JS.replace pat "" s = s) as R.
  { intros pat n Hin Hn. eapply replace_absent; [exact Hin | now apply Hno]. }
  assert (JS.replace "@@||" "" s = s) as E0 by (apply (R _ 64); [now left | reflexivity]).
  assert (JS.replace "||" "" s = s) as E2 by (apply (R _ 124); [now left | reflexivity]).
  assert (JS.replace "^$important" "" s = s) as E3 by (apply (R _ 94); [now left | reflexivity]).
  assert (JS.replace "*." "" s = s) as E4 by (apply (R _ 42); [now left | reflexivity]).
  assert (JS.replace "^" "" s = s) as E5 by (apply (R _ 94); [now left | reflexivity]).
  unfold normalizeDomain. destruct b; rewrite ?E0, E1, E2, E3, E4, E5; reflexivity.
Qed.

(** ** Labels, [extractDomain] and the inner loop *)

Lemma split_not_nil sep s : JS.split sep s <> [].
Proof.
  destruct s as [|c s]; simpl; [discriminate|].
  destruct (Ascii.eqb c sep); [discriminate|].
  destruct (JS.split sep s); discriminate.
Qed.

Lemma split_no_sep sep : forall s,
  Forall (fun p => ~ In sep (JS.chars p)) (JS.split sep s).
Proof.
  induction s as [|c s IH]; simpl.
  - constructor; [|constructor]. simpl. tauto.
  - destruct (Ascii.eqb c sep) eqn:E.
    + constructor; [simpl; tauto | exact IH].
    + destruct (JS.split sep s) as [|p ps].
      * constructor; [|constructor]. simpl. intros [->|[]].
        now rewrite Ascii.eqb_refl in E.
      * inversion IH as [|? ? Hp Hps]; subst. constructor; [|exact Hps].
        simpl. intros [->|Hin]; [now rewrite Ascii.eqb_refl in E | auto].
Qed.

Lemma unshift_loop {A} (f : nat -> A) : forall l acc,
  fold_left (fun extracted i => f i :: extracted) l acc = rev (map f l) ++ acc.
Proof.
  induction l as [|i l IH]; intros acc; simpl; [reflexivity|].
  rewrite IH. now rewrite <- app_assoc.
Qed.

Lemma extractDomain_rev d :
  extractDomain d = rev (map (from_label d) (seq 0 (length (labels d)))).
Proof.
  unfold extractDomain. rewrite unshift_loop. now rewrite app_nil_r.
Qed.

(** [.slice(1)] takes the last label away, the first of the array. *)
Lemma scanned_items d :
  drop 1 (extractDomain d)
  = rev (map (from_label d) (seq 0 (length (labels d) - 1))).
Proof.
  rewrite extractDomain_rev.
  pose proof (split_not_nil "." d) as Hn. fold (labels d) in Hn.
  destruct (length (labels d)) as [|n] eqn:E.
  - destruct (labels d); [congruence | discriminate].
  - replace (S n - 1) with n by lia.
    rewrite seq_S, map_app, rev_app_distr. reflexivity.
Qed.

Lemma in_scanned_items d a :
  In a (drop 1 (extractDomain d)) <->
  exists i, i < length (labels d) - 1 /\ a = from_label d i.
Proof.
  rewrite scanned_items, <- in_rev, in_map_iff. split.
  - intros (i & <- & Hi). apply in_seq in Hi. exists i. split; [lia | reflexivity].
  - intros (i & Hi & ->). exists i. split; [reflexivity | apply in_seq; lia].
Qed.

(** The last label alone has no dot. *)
Lemma last_label_no_dot d :
  ~ In "."%char (JS.chars (from_label d (length (labels d) - 1))).
Proof.
  unfold from_label.
  pose proof (split_no_sep "." d) as H. fold (labels d) in H.
  pose proof (split_not_nil "." d) as Hn. fold (labels d) in Hn.
  destruct (labels d) as [|p ps] using rev_ind; [congruence|]. clear IHps.
  rewrite length_app. simpl. replace (length ps + 1 - 1) with (length ps) by lia.
  rewrite drop_app_length. simpl.
  apply Forall_app in H. destruct H as [_ H]. now inversion H.
Qed.

(** A valid domain above [d] is among the items scanned for [d]. *)
Lemma valid_ancestor_scanned a d :
  isValidDomain a = true -> strict_ancestor a d ->
  In a (drop 1 (extractDomain d)).
Proof.
  intros Hv (i & Hi & ->). apply in_scanned_items. exists i. split; [|reflexivity].
  destruct (Nat.eq_dec i (length (labels d) - 1)) as [->|Hne]; [|lia].
  exfalso. apply (last_label_no_dot d). now apply validDomain_has_dot.
Qed.

(** *** The inner loop *)

Lemma scanItems_None A B items :
  scanItems A B items = None <->
  forall item, In item items -> (item ∉ A) /\ (item ∉ B).
Proof.
  induction items as [|x items IH]; simpl.
  - split; [intros _ ? [] | reflexivity].
  - destruct (bool_decide (x ∈ A)) eqn:EA.
    + apply bool_decide_eq_true in EA. split; [discriminate|].
      intros H. destruct (H x) as [HA _]; [now left | contradiction].
    + apply bool_decide_eq_false in EA.
      destruct (bool_decide (x ∈ B)) eqn:EB; simpl.
      * apply bool_decide_eq_true in EB. split; [discriminate|].
        intros H. destruct (H x) as [_ HB]; [now left | contradiction].
      * apply bool_decide_eq_false in EB. rewrite IH. split.
        -- intros H y [<-|Hy]; [split; assumption | now apply H].
        -- intros H y Hy. apply H. now right.
Qed.

Lemma scanItems_Some A B items h :
  scanItems A B items = Some h ->
  exists item, In item items /\ (item ∈ A \/ item ∈ B).
Proof.
  induction items as [|x items IH]; simpl; [discriminate|].
  destruct (bool_decide (x ∈ A)) eqn:EA.
  { apply bool_decide_eq_true in EA. intros _. exists x. auto. }
  destruct (bool_decide (x ∈ B)) eqn:EB; simpl.
  { apply bool_decide_eq_true in EB. intros _. exists x. auto. }
  intros H. destruct (IH H) as (y & Hy & Hhit). exists y. auto.
Qed.

Lemma covered_scan A B d :
  d ∉ A -> covered A B d -> scanItems A B (drop 1 (extractDomain d)) <> None.
Proof.
  intros Hd [HA | (x & Hx & Hhit)]; [contradiction|].
  rewrite scanItems_None. intros H. destruct (H x Hx). tauto.
Qed.

Lemma covered_mono A B B' d : B ⊆ B' -> covered A B d -> covered A B' d.
Proof.
  intros Hsub [HA | (x & Hx & [Hhit|Hhit])]; [now left | |].
  - right. exists x. auto.
  - right. exists x. split; [exact Hx | right; set_solver].
Qed.

(** ** One iteration and the whole loop *)

Section IterationFacts.

Variable limit : Z.
Variable A : gset string.

Lemma processDomain_cases r d : iteration limit A r d (processDomain limit A r d).
Proof.
  unfold processDomain.
  destruct (bool_decide (d ∈ A)) eqn:EA.
  { apply bool_decide_eq_true in EA. apply it_allowed. now left. }
  apply bool_decide_eq_false in EA.
  cbn [blocklist count_processed].
  destruct (bool_decide (d ∈ blocklist r)) eqn:EB.
  { apply bool_decide_eq_true in EB. apply it_duplicate. now left. }
  apply bool_decide_eq_false in EB.
  destruct (scanItems A (blocklist r) (drop 1 (extractDomain d))) as [[]|] eqn:ES.
  - apply it_allowed. right. eapply scanItems_Some, ES.
  - apply it_duplicate. right. right. eapply scanItems_Some, ES.
  - assert (~ covered A (blocklist r) d) as Hnc.
    { intros Hc. now apply (covered_scan _ _ _ EA Hc). }
    cbn [domains blocklist_add count_processed].
    destruct (Z.of_nat (length (domains r)) >? limit - LIST_ITEM_SIZE)%Z eqn:EL.
    + apply it_dropped; auto. apply Z.gtb_lt in EL. lia.
    + apply it_accepted; auto.
      rewrite Z.gtb_ltb in EL. apply Z.ltb_ge in EL. exact EL.
Qed.

Lemma processDomain_blocklist_mono r d :
  blocklist r ⊆ blocklist (processDomain limit A r d).
Proof. destruct (processDomain_cases r d); simpl; set_solver. Qed.

Lemma reconcile_from_blocklist_mono l : forall r,
  blocklist r ⊆ blocklist (reconcile_from limit A r l).
Proof.
  induction l as [|x l IH]; intros r; simpl; [set_solver|].
  etransitivity; [apply (processDomain_blocklist_mono r x) | apply IH].
Qed.

(** A covered domain is never pushed, whatever comes later. *)
Lemma covered_never_pushed d l : forall r,
  covered A (blocklist r) d -> d ∉ domains r ->
  d ∉ domains (reconcile_from limit A r l).
Proof.
  induction l as [|x l IH]; intros r Hc Hd; simpl; [exact Hd|].
  apply IH.
  - eapply covered_mono; [apply processDomain_blocklist_mono | exact Hc].
  - destruct (processDomain_cases r x) as [ | | | HA HB Hnc _]; simpl; try exact Hd.
    rewrite elem_of_app, list_elem_of_singleton. intros [Hin| ->]; [contradiction|].
    contradiction.
Qed.

(** A domain covered without being in the block set never enters it. *)
Lemma covered_never_blocked d l : forall r,
  covered A (blocklist r) d -> d ∉ blocklist r ->
  d ∉ blocklist (reconcile_from limit A r l).
Proof.
  induction l as [|x l IH]; intros r Hc Hd; simpl; [exact Hd|].
  apply IH.
  - eapply covered_mono; [apply processDomain_blocklist_mono | exact Hc].
  - destruct (processDomain_cases r x) as [ | |HA HB Hnc _|HA HB Hnc _];
      simpl; try exact Hd.
    + rewrite elem_of_union, elem_of_singleton. intros [->|Hin]; contradiction.
    + rewrite elem_of_union, elem_of_singleton. intros [->|Hin]; contradiction.
Qed.

(** After its iteration a domain is in the block set or covered. *)
Lemma processed_blocked_or_covered r d :
  d ∈ blocklist (processDomain limit A r d) \/
  covered A (blocklist (processDomain limit A r d)) d.
Proof.
  destruct (processDomain_cases r d) as [Hc|[HB|Hc]| |]; simpl.
  - now right.
  - now left.
  - now right.
  - left. set_solver.
  - left. set_solver.
Qed.

(** What is pushed is in the block set. *)
Lemma domains_blocked l : forall r,
  (forall x, x ∈ domains r -> x ∈ blocklist r) ->
  forall x, x ∈ domains (reconcile_from limit A r l) ->
            x ∈ blocklist (reconcile_from limit A r l).
Proof.
  induction l as [|y l IH]; intros r Hr; simpl; [exact Hr|].
  apply IH. intros x.
  destruct (processDomain_cases r y); simpl; try (intros Hx; apply Hr in Hx; set_solver).
  rewrite elem_of_app, list_elem_of_singleton. intros [Hx| ->]; [apply Hr in Hx|]; set_solver.
Qed.

(** What is pushed comes from the raw list. *)
Lemma domains_from_raw l : forall r x,
  x ∈ domains (reconcile_from limit A r l) -> x ∈ domains r \/ x ∈ l.
Proof.
  induction l as [|y l IH]; intros r x; simpl; [now left|].
  intros Hx. apply IH in Hx. destruct Hx as [Hx|Hx]; [|right; now right].
  revert Hx. destruct (processDomain_cases r y); simpl; try (now left).
  rewrite elem_of_app, list_elem_of_singleton. intros [Hx| ->]; [now left | right; now left].
Qed.

Lemma reconcile_from_app l1 l2 r :
  reconcile_from limit A r (l1 ++ l2)
  = reconcile_from limit A (reconcile_from limit A r l1) l2.
Proof. apply fold_left_app. Qed.

Lemma processDomain_within_bound r d :
  within_bound limit r -> within_bound limit (processDomain limit A r d).
Proof.
  unfold within_bound. intros H.
  destruct (processDomain_cases r d); simpl; try exact H.
  rewrite length_app. simpl. lia.
Qed.

Lemma reconcile_from_within_bound l : forall r,
  within_bound limit r -> within_bound limit (reconcile_from limit A r l).
Proof.
  induction l as [|x l IH]; intros r H; simpl; [exact H|].
  apply IH. now apply processDomain_within_bound.
Qed.

Lemma processDomain_full r d :
  (Z.of_nat (length (domains r)) > limit - LIST_ITEM_SIZE)%Z ->
  domains (processDomain limit A r d) = domains r.
Proof.
  intros H. destruct (processDomain_cases r d); simpl; try reflexivity. lia.
Qed.

Lemma reconcile_from_full l : forall r,
  (Z.of_nat (length (domains r)) > limit - LIST_ITEM_SIZE)%Z ->
  domains (reconcile_from limit A r l) = domains r.
Proof.
  induction l as [|x l IH]; intros r H; simpl; [reflexivity|].
  rewrite IH; rewrite processDomain_full; auto.
Qed.

End IterationFacts.

(** ** Allowed and blocked ancestors *)

(** C1: when every member of the allow set is a valid domain and the allow
    set holds [d] itself or a domain strictly above [d], the loop never
    puts [d] in the final block list. *)
Theorem allow_overrides_block_of_descendant
    (limit : Z) (allowlist : gset string) (rawBlocklist : list string)
    (d a : string) :
  (forall x, x ∈ allowlist -> isValidDomain x = true) ->
  a ∈ allowlist ->
  a = d \/ strict_ancestor a d ->
  d ∉ domains (reconcile limit allowlist rawBlocklist).
Proof.
  intros Hvalid Ha Hrel. apply covered_never_pushed; [|simpl; set_solver].
  destruct Hrel as [->|Hanc]; [now left|].
  right. exists a. split; [|now left].
  apply valid_ancestor_scanned; [now apply Hvalid | exact Hanc].
Qed.

(** C1 at [example.com] allowed and [sub.example.com] in the raw list. *)
Lemma allow_overrides_block_of_descendant_witness :
  "sub.example.com"
  ∉ domains (reconcile 300000 ({["example.com"]} : gset string) ["sub.example.com"]).
Proof.
  apply (allow_overrides_block_of_descendant
           300000 ({["example.com"]} : gset string) ["sub.example.com"]
           "sub.example.com" "example.com").
  - intros x Hx. apply elem_of_singleton in Hx. subst x. vm_compute. reflexivity.
  - apply elem_of_singleton. reflexivity.
  - right. exists 1. split; [vm_compute; lia | vm_compute; reflexivity].
Defined.

(** C2 as stated fails: a subdomain that comes before its ancestor in the
    raw list stays in the final block list next to it. *)
Lemma descendant_before_ancestor_stays :
  strict_ancestor "example.com" "ads.example.com" /\
  "example.com" <> "ads.example.com" /\
  domains (reconcile 300000 ∅ ["ads.example.com"; "example.com"; "x.example.com"])
  = ["ads.example.com"; "example.com"].
Proof.
  split; [|split].
  - exists 1. split; [vm_compute; lia | reflexivity].
  - discriminate.
  - vm_compute. reflexivity.
Qed.

(** C2, amended: when a valid domain [a] strictly above [d] is in the final
    block list and [d] does not come before [a] in the raw list, [d] is not
    in the final block list. *)
Theorem blocked_ancestor_excludes_later_descendant
    (limit : Z) (allowlist : gset string) (before after : list string)
    (a d : string) :
  isValidDomain a = true ->
  strict_ancestor a d ->
  a <> d ->
  d ∉ before ->
  a ∈ domains (reconcile limit allowlist (before ++ a :: after)) ->
  d ∉ domains (reconcile limit allowlist (before ++ a :: after)).
Proof.
  intros Hv Hanc Hne Hd Ha.
  unfold reconcile in *. rewrite reconcile_from_app in *. simpl in *.
  set (r0 := mkReconciled (mkStats 0 0 0) ∅ []) in *.
  set (r1 := reconcile_from limit allowlist r0 before) in *.
  set (r2 := processDomain limit allowlist r1 a) in *.
  assert (forall x, x ∈ domains r2 -> x ∈ blocklist r2) as Hinv.
  { apply (domains_blocked limit allowlist [a] r1).
    apply domains_blocked. simpl. set_solver. }
  assert (a ∈ blocklist r2) as Hblocked.
  { destruct (processed_blocked_or_covered limit allowlist r1 a) as [H|Hc]; [exact H|].
    fold r2 in Hc. destruct (decide (a ∈ blocklist r2)) as [H|Hnb]; [exact H|].
    exfalso. apply (covered_never_blocked limit allowlist a after r2 Hc Hnb).
    apply domains_blocked; [exact Hinv | exact Ha]. }
  apply covered_never_pushed.
  - right. exists a. split; [now apply valid_ancestor_scanned | now right].
  - intros Hin. apply (domains_from_raw limit allowlist [a] r1) in Hin.
    destruct Hin as [Hin|Hin].
    + apply domains_from_raw in Hin. destruct Hin as [Hin|Hin]; [|contradiction].
      simpl in Hin. set_solver.
    + apply list_elem_of_singleton in Hin. congruence.
Qed.

Lemma blocked_ancestor_excludes_later_descendant_witness :
  "x.example.com"
  ∉ domains (reconcile 300000 ∅
               (["ads.example.com"] ++ "example.com" :: ["x.example.com"])).
Proof.
  apply (blocked_ancestor_excludes_later_descendant
           300000 ∅ ["ads.example.com"] ["x.example.com"]
           "example.com" "x.example.com").
  - vm_compute. reflexivity.
  - exists 1. split; [vm_compute; lia | vm_compute; reflexivity].
  - discriminate.
  - intros H. apply list_elem_of_singleton in H. discriminate H.
  - apply list_elem_of_In. vm_compute. right. left. reflexivity.
Defined.

(** ** The order of the scan *)

Lemma rev_map_seq {A} (f : nat -> A) : forall n c,
  rev (map f (seq 0 n)) = map (fun k => f (n + c - k)) (seq (S c) n).
Proof.
  induction n as [|n IH]; intros c; [reflexivity|].
  rewrite seq_S, map_app, rev_app_distr. cbn [map rev app seq].
  f_equal; [f_equal; lia|].
  rewrite (IH (S c)). apply map_ext. intros k. f_equal. lia.
Qed.

(** The scan goes from the domain of the last two labels up to [d]. *)
Lemma scanned_items_order d :
  drop 1 (extractDomain d)
  = map (last_labels d) (seq 2 (length (labels d) - 1)).
Proof.
  rewrite scanned_items, (rev_map_seq _ _ 1).
  apply map_ext_in. intros k Hk. apply in_seq in Hk.
  unfold last_labels. f_equal. lia.
Qed.

Lemma scanItems_first_hit A B items :
  match scanItems A B items with
  | Some HitAllowed =>
      exists i a, items !! i = Some a /\ none_before A B items i /\ a ∈ A
  | Some HitDuplicate =>
      exists i a, items !! i = Some a /\ none_before A B items i /\
                  (a ∉ A) /\ a ∈ B
  | None => forall a, In a items -> (a ∉ A) /\ (a ∉ B)
  end.
Proof.
  induction items as [|x items IH]; simpl; [intros ? []|].
  destruct (bool_decide (x ∈ A)) eqn:EA.
  { apply bool_decide_eq_true in EA. exists 0, x.
    split; [reflexivity|]. split; [intros j b Hj; lia | exact EA]. }
  apply bool_decide_eq_false in EA.
  destruct (bool_decide (x ∈ B)) eqn:EB; simpl.
  { apply bool_decide_eq_true in EB. exists 0, x.
    split; [reflexivity|]. split; [intros j b Hj; lia | auto]. }
  apply bool_decide_eq_false in EB.
  assert (forall i, none_before A B items i -> none_before A B (x :: items) (S i)) as Hnb.
  { intros i H [|j] b Hj; simpl.
    - intros [= <-]. auto.
    - apply H. lia. }
  destruct (scanItems A B items) as [[]|].
  - destruct IH as (i & a & Hi & Hb & Ha). exists (S i), a. auto.
  - destruct IH as (i & a & Hi & Hb & Ha). exists (S i), a. auto.
  - intros a [<-|Ha]; auto.
Qed.

(** C3 as stated fails: with [b.example.com] allowed and [example.com]
    blocked, a scan of the strict ancestors of [a.b.example.com] from the
    most specific one would count it as allowed; the loop meets
    [example.com] first and counts a duplicate. *)
Lemma scan_most_specific_first_fails :
  ("a.b.example.com" ∉ ({["b.example.com"]} : gset string)) /\
  ("a.b.example.com"
   ∉ blocklist (reconcile 300000 {["b.example.com"]} ["example.com"])) /\
  spec_strict_ancestors "a.b.example.com" = ["b.example.com"; "example.com"; "com"] /\
  scanItems {["b.example.com"]}
    (blocklist (reconcile 300000 {["b.example.com"]} ["example.com"]))
    (spec_strict_ancestors "a.b.example.com") = Some HitAllowed /\
  drop 1 (extractDomain "a.b.example.com")
  = ["example.com"; "b.example.com"; "a.b.example.com"] /\
  scanItems {["b.example.com"]}
    (blocklist (reconcile 300000 {["b.example.com"]} ["example.com"]))
    (drop 1 (extractDomain "a.b.example.com")) = Some HitDuplicate /\
  stats (reconcile 300000 {["b.example.com"]} ["example.com"; "a.b.example.com"])
  = mkStats 2 1 0.
Proof.
  vm_compute. repeat split; try reflexivity; intros H; discriminate H.
Qed.

(** C3, amended: for a domain [d] that is neither allowed nor blocked
    itself, the loop scans the domains made of the last two, three, ...
    labels of [d] in that order, from the least specific one up to [d]
    itself and without the last label alone, and stops at the first one
    found in the allow set (counting [d] as allowed) or in the block set
    (counting [d] as duplicate); when none is found [d] is accepted. *)
Theorem scan_goes_from_least_specific
    (limit : Z) (allowlist : gset string) (r : Reconciled) (d : string) :
  d ∉ allowlist -> d ∉ blocklist r ->
  let items := map (last_labels d) (seq 2 (length (labels d) - 1)) in
  let r' := count_processed r in
  drop 1 (extractDomain d) = items /\
  ((exists i a, items !! i = Some a /\
                none_before allowlist (blocklist r) items i /\
                ((a ∈ allowlist /\
                  processDomain limit allowlist r d = count_allowed r') \/
                 ((a ∉ allowlist) /\ a ∈ blocklist r /\
                  processDomain limit allowlist r d = count_duplicate r')))
   \/
   ((forall a, In a items -> (a ∉ allowlist) /\ (a ∉ blocklist r)) /\
    processDomain limit allowlist r d
    = if (Z.of_nat (length (domains r)) >? limit - LIST_ITEM_SIZE)%Z
      then blocklist_add d r'
      else domains_push d (blocklist_add d r'))).
Proof.
  intros HA HB items r'. split; [apply scanned_items_order|].
  unfold processDomain. fold r'.
  rewrite (bool_decide_eq_false_2 _ HA).
  cbn [blocklist r' count_processed].
  rewrite (bool_decide_eq_false_2 _ HB).
  pose proof (scanItems_first_hit allowlist (blocklist r) (drop 1 (extractDomain d))) as H.
  rewrite scanned_items_order in *. fold items in H |- *.
  destruct (scanItems allowlist (blocklist r) items) as [[]|].
  - left. destruct H as (i & a & Hi & Hb & Ha). exists i, a. auto.
  - left. destruct H as (i & a & Hi & Hb & Ha & Ha'). exists i, a. auto 10.
  - right. split; [exact H | reflexivity].
Qed.

Lemma scan_goes_from_least_specific_witness :
  drop 1 (extractDomain "a.b.example.com")
  = map (last_labels "a.b.example.com") (seq 2 (length (labels "a.b.example.com") - 1)).
Proof.
  destruct (scan_goes_from_least_specific
              300000 {["b.example.com"]}
              (reconcile 300000 {["b.example.com"]} ["example.com"])
              "a.b.example.com")
    as [Hitems _].
  - vm_compute. intros H. discriminate H.
  - vm_compute. intros H. discriminate H.
  - exact Hitems.
Defined.

(** ** The ceiling *)

(** C4 as stated fails: with a limit of 1002 and lists of 1000 items the
    loop returns three domains, one more than the difference. *)
Lemma output_one_above_headroom :
  domains (reconcile 1002 ∅ ["a.com"; "b.com"; "c.com"; "d.com"])
  = ["a.com"; "b.com"; "c.com"] /\
  ~ (Z.of_nat (length (domains (reconcile 1002 ∅ ["a.com"; "b.com"; "c.com"; "d.com"])))
     <= 1002 - LIST_ITEM_SIZE)%Z.
Proof.
  split; [vm_compute; reflexivity|]. vm_compute. intros H. apply H. reflexivity.
Qed.

(** C4, amended: the final block list has at most
    [LIST_ITEM_LIMIT - LIST_ITEM_SIZE + 1] domains (none when that is
    negative), and once its length is above [LIST_ITEM_LIMIT -
    LIST_ITEM_SIZE] nothing more is added to it. *)
Theorem output_bounded_by_headroom_plus_one
    (limit : Z) (allowlist : gset string) (rawBlocklist : list string) :
  (Z.of_nat (length (domains (reconcile limit allowlist rawBlocklist)))
   <= Z.max 0 (limit - LIST_ITEM_SIZE + 1))%Z /\
  (forall r rest,
      (Z.of_nat (length (domains r)) > limit - LIST_ITEM_SIZE)%Z ->
      domains (reconcile_from limit allowlist r rest) = domains r).
Proof.
  split.
  - apply reconcile_from_within_bound. unfold within_bound. simpl. lia.
  - intros r rest H. now apply reconcile_from_full.
Qed.

Lemma output_bounded_by_headroom_plus_one_witness :
  (Z.of_nat (length (domains (reconcile 1002 ∅ ["a.com"; "b.com"; "c.com"; "d.com"])))
   <= 3)%Z /\
  domains (reconcile_from 1002 ∅ (reconcile 1002 ∅ ["a.com"; "b.com"; "c.com"])
             ["d.com"; "e.com"])
  = ["a.com"; "b.com"; "c.com"].
Proof.
  destruct (output_bounded_by_headroom_plus_one
              1002 ∅ ["a.com"; "b.com"; "c.com"; "d.com"]) as [Hbound Hfull].
  split; [exact Hbound|].
  rewrite Hfull; [vm_compute; reflexivity | vm_compute; reflexivity].
Defined.




(** ** Normalisation *)

(** C6 as stated fails: only the first [||] is removed, so a second pass
    still changes the string, in the blocklist and in the allowlist
    variant. *)
Lemma normalizeDomain_twice_differs :
  normalizeDomain "||||a.com" false = "||a.com" /\
  normalizeDomain (normalizeDomain "||||a.com" false) false = "a.com" /\
  normalizeDomain "||||a.com" true = "||a.com" /\
  normalizeDomain (normalizeDomain "||||a.com" true) true = "a.com".
Proof. vm_compute. repeat split; reflexivity. Qed.

(** C6, amended: when the normalisation of [s] is a valid domain,
    normalising it again gives the same string, in both variants. *)
Theorem normalizeDomain_idempotent_on_domains (s : string) (b : bool) :
  isValidDomain (normalizeDomain s b) = true ->
  normalizeDomain (normalizeDomain s b) b = normalizeDomain s b.
Proof.
  intros H. apply normalizeDomain_domain_chars. now apply validDomain_chars.
Qed.

Lemma normalizeDomain_idempotent_on_domains_witness :
  normalizeDomain (normalizeDomain "0.0.0.0 tracker.example.com" false) false
  = normalizeDomain "0.0.0.0 tracker.example.com" false.
Proof.
  apply (normalizeDomain_idempotent_on_domains "0.0.0.0 tracker.example.com" false).
  vm_compute. reflexivity.
Defined.

(** ** The rule expression *)

Lemma str_app_cons x a b : String x a +:+ b = String x (a +:+ b).
Proof. reflexivity. Qed.

Lemma str_app_assoc a b c : (a +:+ b) +:+ c = a +:+ (b +:+ c).
Proof.
  induction a as [|x a IH]; [reflexivity|].
  rewrite !str_app_cons. now rewrite IH.
Qed.

Lemma str_app_nil_r s : s +:+ "" = s.
Proof.
  induction s as [|x s IH]; [reflexivity|]. rewrite str_app_cons. now rewrite IH.
Qed.

Lemma str_length_app a b :
  String.length (a +:+ b) = String.length a + String.length b.
Proof.
  induction a as [|x a IH]; [reflexivity|].
  rewrite str_app_cons. simpl. now rewrite IH.
Qed.

Lemma substring_app a b : String.substring 0 (String.length a) (a +:+ b) = a.
Proof.
  induction a as [|x a IH].
  - destruct b; reflexivity.
  - rewrite str_app_cons. simpl. now rewrite IH.
Qed.

Lemma slice_to_minus_app a b n :
  String.length b = n -> JS.slice_to_minus n (a +:+ b) = a.
Proof.
  intros <-. unfold JS.slice_to_minus. rewrite str_length_app.
  replace (String.length a + String.length b - String.length b)
    with (String.length a) by lia.
  apply substring_app.
Qed.

Lemma reduce_trailing field : forall lists previous,
  fold_left
    (fun previous current =>
       if negb (JS.startsWith (list_name current) "CGPS List") then previous
       else previous +:+ " any(" +:+ field +:+ "[*] in $" +:+ list_id current
                     +:+ ") or ")
    lists previous
  = previous +:+ trailing (map (clause field) (List.filter is_cgps_list lists)).
Proof.
  induction lists as [|l lists IH]; intros previous; simpl.
  - now rewrite str_app_nil_r.
  - rewrite IH. unfold is_cgps_list at 2.
    destruct (JS.startsWith (list_name l) "CGPS List"); simpl; [|reflexivity].
    rewrite str_app_assoc. f_equal. unfold clause.
    rewrite !str_app_assoc. reflexivity.
Qed.

Lemma trailing_join clauses :
  clauses <> [] -> trailing clauses = JS.join " or " clauses +:+ " or ".
Proof.
  induction clauses as [|c [|c' rest] IH]; intros Hne; [congruence | |].
  - simpl. now rewrite str_app_nil_r.
  - change (trailing (c :: c' :: rest)) with (c +:+ " or " +:+ trailing (c' :: rest)).
    rewrite IH by discriminate.
    change (JS.join " or " (c :: c' :: rest))
      with (c +:+ " or " +:+ JS.join " or " (c' :: rest)).
    now rewrite !str_app_assoc.
Qed.

(** C7 as stated fails: the expression built for the ids 10 and 20 starts
    with a space and has two spaces behind [or]. *)
Lemma expression_has_extra_spaces :
  wirefilterDNSExpression
    [mkList "10" "CGPS List - Chunk 1"; mkList "20" "CGPS List - Chunk 2"]
  <> "any(dns.domains[*] in $10) or any(dns.domains[*] in $20)".
Proof. vm_compute. intros H. discriminate H. Qed.

(** C7, amended: the expression is the clauses of the lists named
    [CGPS List...] joined with [" or "], where a clause is
    [" any(<field>[*] in $<id>)"] with a space in front; for the ids 10 and
    20 and the field [dns.domains] it is
    [" any(dns.domains[*] in $10) or  any(dns.domains[*] in $20)"], and it
    is empty when no list matches. *)
Theorem expression_joins_spaced_clauses :
  (forall field lists,
      wirefilterExpression field lists
      = JS.join " or " (map (clause field) (List.filter is_cgps_list lists))) /\
  wirefilterDNSExpression
    [mkList "10" "CGPS List - Chunk 1"; mkList "20" "CGPS List - Chunk 2"]
  = " any(dns.domains[*] in $10) or  any(dns.domains[*] in $20)" /\
  (forall field lists,
      List.filter is_cgps_list lists = [] -> wirefilterExpression field lists = "").
Proof.
  assert (forall field lists,
      wirefilterExpression field lists
      = JS.join " or " (map (clause field) (List.filter is_cgps_list lists))) as H.
  { intros field lists. unfold wirefilterExpression. rewrite reduce_trailing.
    destruct (List.filter is_cgps_list lists) as [|l ls] eqn:E; [reflexivity|].
    rewrite trailing_join by discriminate.
    change ("" +:+ ?x) with x. now apply slice_to_minus_app. }
  split; [exact H|]. split; [vm_compute; reflexivity|].
  intros field lists E. rewrite H, E. reflexivity.
Qed.

Lemma expression_joins_spaced_clauses_witness :
  wirefilterExpression "net.sni.domains" [mkList "15" "Office networks"] = "".
Proof.
  destruct expression_joins_spaced_clauses as (_ & _ & Hempty).
  apply Hempty. vm_compute. reflexivity.
Defined.

(** ** Running the script *)

Lemma bind_unfold {A B} (p : prog A) (f : A -> prog B) : p ≫= f = bind p f.
Proof. reflexivity. Qed.

Lemma fetch_only_bind {A B} (p : prog A) (f : A -> prog B) :
  fetch_only p -> (forall a, fetch_only (f a)) -> fetch_only (p ≫= f).
Proof.
  intros Hp Hf. rewrite bind_unfold.
  induction Hp as [a | url k _ IH]; simpl; [apply Hf|].
  constructor. exact IH.
Qed.

Lemma fetchDomains_fetch_only url b : fetch_only (fetchDomains url b).
Proof.
  unfold fetchDomains, fetch, await. rewrite !bind_unfold. simpl.
  constructor. intros [message|response]; simpl; [constructor|].
  destruct (ok response); simpl; constructor.
Qed.

Lemma awaitAll_fetch_only {A B} (f : A -> prog B) l :
  (forall x, fetch_only (f x)) -> fetch_only (awaitAll f l).
Proof.
  intros Hf. induction l as [|x l IH]; simpl; [constructor|].
  apply fetch_only_bind; [apply Hf|]. intros y.
  apply fetch_only_bind; [exact IH|]. intros ys. constructor.
Qed.

Lemma fetchAndProcessUrls_fetch_only urls b :
  fetch_only (fetchAndProcessUrls urls b).
Proof.
  unfold fetchAndProcessUrls. apply fetch_only_bind.
  - apply awaitAll_fetch_only. intros url. apply fetchDomains_fetch_only.
  - intros sets. constructor.
Qed.

Lemma fetchLists_fetch_only K : fetch_only (fetchLists K).
Proof.
  unfold fetchLists.
  apply fetch_only_bind; [apply fetchAndProcessUrls_fetch_only|]. intros allowlist.
  apply fetch_only_bind; [apply fetchAndProcessUrls_fetch_only|]. intros raw.
  constructor.
Qed.

Section RunFacts.
Context {W : Type}.
Variable handler : forall c : request, W -> answer c * W.

Lemma run_bind {A B} (p : prog A) (f : A -> prog B) : forall w,
  run handler (p ≫= f) w
  = let '(calls, result, w') := run handler p w in
    match result with
    | inl e => (calls, inl e, w')
    | inr a =>
        let '(calls', result', w'') := run handler (f a) w' in
        (calls ++ calls', result', w'')
    end.
Proof.
  rewrite bind_unfold.
  induction p as [a | e | c k IH]; intros w; simpl.
  - destruct (run handler (f a) w) as [[calls result] w']. reflexivity.
  - reflexivity.
  - destruct (handler c w) as [x w1]. rewrite IH.
    destruct (run handler (k x) w1) as [[calls result] w2].
    destruct result as [e|a]; [reflexivity|].
    destruct (run handler (f a) w2) as [[calls' result'] w3]. reflexivity.
Qed.

Lemma run_try_catch_returns {A} (p : prog A) (h : string -> prog A) w calls a w' :
  run handler p w = (calls, inr a, w') ->
  run handler (try_catch p h) w = (calls, inr a, w').
Proof.
  revert w calls. induction p as [a0 | e | c k IH]; intros w calls; simpl.
  - trivial.
  - discriminate.
  - destruct (handler c w) as [x w1].
    destruct (run handler (k x) w1) as [[calls1 result1] w2] eqn:E.
    intros [= <- -> ->]. now rewrite (IH x w1 calls1 E).
Qed.

Lemma fetch_only_run {A} (p : prog A) :
  fetch_only p ->
  forall w, exists a, result_of handler p w = inr a /\
                      Forall (fun c => mutates c = false) (calls_of handler p w).
Proof.
  unfold result_of, calls_of.
  induction 1 as [a | url k _ IH]; intros w; simpl.
  - exists a. split; [reflexivity | constructor].
  - destruct (handler (Fetch url) w) as [x w1].
    destruct (IH x w1) as (a & Hres & Hcalls).
    destruct (run handler (k x) w1) as [[calls result] w2]. simpl in *.
    exists a. split; [exact Hres|]. constructor; [reflexivity | exact Hcalls].
Qed.
End RunFacts.

(** C8: when the environment is complete and the reconciliation of the
    downloaded lists gives no domain, [processLists] returns, the script
    ends with status 0, and the only calls made are the downloads: no
    list or rule is created, updated or deleted. *)
Theorem empty_result_makes_no_remote_mutation
    (K : Constants) (env : gmap string string)
    {W : Type} (handler : forall c : request, W -> answer c * W) (w w' : W)
    (calls : list request) (allowlist rawBlocklist : list string) :
  validateEnvironment env = Ret tt ->
  run handler (fetchLists K) w = (calls, inr (allowlist, rawBlocklist), w') ->
  domains (reconcile (LIST_ITEM_LIMIT K) (list_to_set allowlist) rawBlocklist) = [] ->
  run handler (processLists K env) w = (calls, inr tt, w') /\
  run handler (main K env) w = (calls, inr 0, w') /\
  Forall (fun c => mutates c = false) calls.
Proof.
  intros Henv Hfetch Hempty.
  assert (run handler (processLists K env) w = (calls, inr tt, w')) as Hrun.
  { unfold processLists. rewrite Henv.
    change (Ret tt ≫= ?f) with (f tt). cbv beta.
    rewrite run_bind, Hfetch. cbn [fst snd]. rewrite Hempty. simpl.
    now rewrite app_nil_r. }
  split; [exact Hrun|]. split.
  - unfold main. apply run_try_catch_returns.
    rewrite run_bind, Hrun. simpl. now rewrite app_nil_r.
  - destruct (fetch_only_run handler _ (fetchLists_fetch_only K) w) as (a & _ & H).
    unfold calls_of in H. now rewrite Hfetch in H.
Qed.

Lemma empty_result_makes_no_remote_mutation_witness :
  run (Example.gateway Example.quiet_feeds)
      (main Example.constants Example.environment) Example.empty_account
  = ([Fetch "https://feeds.test/allow.txt";
      Fetch "https://feeds.test/block.txt";
      Fetch "https://feeds.test/down.txt"], inr 0, Example.empty_account).
Proof.
  destruct (empty_result_makes_no_remote_mutation
              Example.constants Example.environment
              (Example.gateway Example.quiet_feeds)
              Example.empty_account Example.empty_account
              [Fetch "https://feeds.test/allow.txt";
               Fetch "https://feeds.test/block.txt";
               Fetch "https://feeds.test/down.txt"]
              ["example.com"] ["sub.example.com"]) as (_ & Hmain & _).
  - vm_compute. reflexivity.
  - vm_compute. reflexivity.
  - vm_compute. reflexivity.
  - exact Hmain.
Defined.

(** C9 as stated fails: the feed [down.txt] answers 503, [fetchDomains]
    returns the empty set for it, and the script goes on to create a list
    and a rule and ends with status 0. *)
Lemma failed_feed_does_not_abort :
  fetch_fails (fst (Example.gateway Example.feeds
                      (Fetch "https://feeds.test/down.txt") Example.empty_account)) /\
  result_of (Example.gateway Example.feeds)
            (fetchDomains "https://feeds.test/down.txt" false)
            Example.empty_account = inr [] /\
  result_of (Example.gateway Example.feeds)
            (main Example.constants Example.environment)
            Example.empty_account = inr 0 /\
  calls_of (Example.gateway Example.feeds)
           (main Example.constants Example.environment)
           Example.empty_account
  = [Fetch "https://feeds.test/allow.txt";
     Fetch "https://feeds.test/block.txt";
     Fetch "https://feeds.test/down.txt"; GetRules; GetLists;
     CreateList "CGPS List - Chunk 1" ["ads.example.com"; "tracker.example.net"];
     GetLists; GetRules;
     CreateRule (mkPayload "CGPS Filter Lists" ["dns"] " any(dns.domains[*] in $10)");
     Telegram (UpdateComplete 3 1 2 1) false].
Proof. vm_compute. repeat split; reflexivity. Qed.

(** The downloads return, whatever the feeds answer. *)

Section DownloadRuns.
Context {W : Type}.
Variable handler : forall c : request, W -> answer c * W.

Lemma fetchDomains_returns url b w :
  exists found,
    run handler (fetchDomains url b) w
    = ([Fetch url], inr found, snd (handler (Fetch url) w)).
Proof.
  unfold fetchDomains, fetch, await. rewrite !bind_unfold. simpl.
  destruct (handler (Fetch url) w) as [[message|response] w1]; simpl.
  - now exists [].
  - destruct (ok response); simpl; eauto.
Qed.

Lemma awaitAll_fetchDomains_returns b : forall urls w,
  exists sets w',
    run handler (awaitAll (fun url => fetchDomains url b) urls) w
    = (map Fetch urls, inr sets, w').
Proof.
  induction urls as [|url urls IH]; intros w.
  - now exists [], w.
  - cbn [awaitAll map]. rewrite run_bind.
    destruct (fetchDomains_returns url b w) as (found & ->).
    rewrite run_bind.
    destruct (IH (snd (handler (Fetch url) w))) as (sets & w' & ->).
    exists (found :: sets), w'. simpl. now rewrite app_nil_r.
Qed.

Lemma fetchAndProcessUrls_returns urls b w :
  exists found w',
    run handler (fetchAndProcessUrls urls b) w = (map Fetch urls, inr found, w').
Proof.
  unfold fetchAndProcessUrls. rewrite run_bind.
  destruct (awaitAll_fetchDomains_returns b urls w) as (sets & w' & ->).
  exists (new_Set (concat sets)), w'. simpl. now rewrite app_nil_r.
Qed.

Lemma fetchLists_returns K w :
  exists allowlist rawBlocklist w',
    run handler (fetchLists K) w
    = (map Fetch
         (or_else (USER_DEFINED_ALLOWLIST_URLS K) (RECOMMENDED_ALLOWLIST_URLS K)
          ++ or_else (USER_DEFINED_BLOCKLIST_URLS K) (RECOMMENDED_BLOCKLIST_URLS K)),
       inr (allowlist, rawBlocklist), w').
Proof.
  unfold fetchLists. rewrite run_bind.
  destruct (fetchAndProcessUrls_returns
              (or_else (USER_DEFINED_ALLOWLIST_URLS K) (RECOMMENDED_ALLOWLIST_URLS K))
              true w) as (allowlist & w1 & ->).
  rewrite run_bind.
  destruct (fetchAndProcessUrls_returns
              (or_else (USER_DEFINED_BLOCKLIST_URLS K) (RECOMMENDED_BLOCKLIST_URLS K))
              false w1) as (rawBlocklist & w2 & ->).
  exists allowlist, rawBlocklist, w2. simpl. now rewrite app_nil_r, map_app.
Qed.
End DownloadRuns.

(** C9, amended: when the fetch of a feed fails (the promise rejects or the
    status is not a success), [fetchDomains] makes that one call, catches
    the failure and returns the empty set; nothing is thrown to the
    caller.  The run is not aborted: [fetchAndProcessUrls] goes on with
    the feeds behind the failed one and returns what they give; and
    whichever feeds fail, [processLists] fetches every URL of both lists
    and then goes on with the domains gathered, returning when there is
    none and synchronising the account otherwise. *)
Theorem failed_feed_is_absorbed
    (K : Constants) (env : gmap string string)
    {W : Type} (handler : forall c : request, W -> answer c * W) (w : W)
    (url : string) (isAllowlist : bool) :
  fetch_fails (fst (handler (Fetch url) w)) ->
  validateEnvironment env = Ret tt ->
  run handler (fetchDomains url isAllowlist) w
  = ([Fetch url], inr [], snd (handler (Fetch url) w)) /\
  (forall behind,
      run handler (fetchAndProcessUrls (url :: behind) isAllowlist) w
      = (let '(calls, result, w') :=
           run handler (fetchAndProcessUrls behind isAllowlist)
               (snd (handler (Fetch url) w)) in
         (Fetch url :: calls, result, w'))) /\
  (forall start, exists allowlist rawBlocklist w1,
      run handler (fetchLists K) start
      = (map Fetch
           (or_else (USER_DEFINED_ALLOWLIST_URLS K) (RECOMMENDED_ALLOWLIST_URLS K)
            ++ or_else (USER_DEFINED_BLOCKLIST_URLS K) (RECOMMENDED_BLOCKLIST_URLS K)),
         inr (allowlist, rawBlocklist), w1) /\
      run handler (processLists K env) start
      = (let downloads :=
           map Fetch
             (or_else (USER_DEFINED_ALLOWLIST_URLS K) (RECOMMENDED_ALLOWLIST_URLS K)
              ++ or_else (USER_DEFINED_BLOCKLIST_URLS K)
                   (RECOMMENDED_BLOCKLIST_URLS K)) in
         let r := reconcile (LIST_ITEM_LIMIT K) (list_to_set allowlist)
                    rawBlocklist in
         if Nat.eqb (length (domains r)) 0 then (downloads, inr tt, w1)
         else
           let '(calls, result, w2) :=
             run handler (synchronise K (length allowlist) r) w1 in
           (downloads ++ calls, result, w2))).
Proof.
  intros Hfail Henv.
  assert (run handler (fetchDomains url isAllowlist) w
          = ([Fetch url], inr [], snd (handler (Fetch url) w))) as Hone.
  { unfold fetchDomains, fetch, await. rewrite !bind_unfold. simpl.
    destruct (handler (Fetch url) w) as [[message|response] w1]; simpl in *.
    - reflexivity.
    - rewrite Hfail. reflexivity. }
  split; [exact Hone|]. split.
  - intros behind. unfold fetchAndProcessUrls. rewrite !run_bind.
    cbn [awaitAll]. rewrite run_bind, Hone, run_bind.
    destruct (awaitAll_fetchDomains_returns handler isAllowlist behind
                (snd (handler (Fetch url) w))) as (sets & w' & ->).
    simpl. now rewrite !app_nil_r.
  - intros start.
    destruct (fetchLists_returns handler K start)
      as (allowlist & rawBlocklist & w1 & Hlists).
    exists allowlist, rawBlocklist, w1. split; [exact Hlists|].
    unfold processLists. rewrite Henv.
    change (Ret tt ≫= ?f) with (f tt). cbv beta.
    rewrite run_bind, Hlists. cbn [fst snd]. cbv zeta.
    destruct (Nat.eqb _ 0); [simpl; now rewrite app_nil_r | reflexivity].
Qed.

Lemma failed_feed_is_absorbed_witness :
  run (Example.gateway Example.feeds)
      (fetchDomains "https://feeds.test/down.txt" false) Example.empty_account
  = ([Fetch "https://feeds.test/down.txt"], inr [], Example.empty_account) /\
  calls_of (Example.gateway Example.feeds) (fetchLists Example.constants)
           Example.empty_account
  = [Fetch "https://feeds.test/allow.txt";
     Fetch "https://feeds.test/block.txt";
     Fetch "https://feeds.test/down.txt"].
Proof.
  destruct (failed_feed_is_absorbed Example.constants Example.environment
              (Example.gateway Example.feeds)
              Example.empty_account "https://feeds.test/down.txt" false)
    as (Hone & _ & Hrun).
  - vm_compute. reflexivity.
  - vm_compute. reflexivity.
  - split; [exact Hone|].
    destruct (Hrun Example.empty_account) as (allowlist & rawBlocklist & w1 & Hlists & _).
    unfold calls_of. rewrite Hlists. reflexivity.
Defined.

(** ** The stages of [fetchDomains] *)

Lemma elem_of_new_Set x array : x ∈ new_Set array <-> x ∈ array.
Proof.
  unfold new_Set.
  assert (forall l acc,
            x ∈ fold_left (fun (set : list string) (y : string) =>
                             if bool_decide (y ∈ set) then set else set ++ [y]) l acc
            <-> x ∈ acc \/ x ∈ l) as H.
  { induction l as [|y l IH]; intros acc; simpl.
    - rewrite elem_of_nil. tauto.
    - rewrite IH, elem_of_cons. destruct (bool_decide (y ∈ acc)) eqn:E.
      + apply bool_decide_eq_true in E. split; [tauto|].
        intros [H|[->|H]]; auto.
      + rewrite elem_of_app, list_elem_of_singleton. tauto. }
  rewrite H, elem_of_nil. tauto.
Qed.

(** C10: [normalizeDomain] returns a string for every input: the empty
    line, a comment line and a line that is no domain come back as
    strings; a feed line is rejected by the stages around it only, the
    filter on empty and comment lines before it and [isValidDomain] behind
    it. *)
Theorem normalizeDomain_total_filters_outside (feed : string) (isAllowlist : bool) :
  (forall value, exists normalized : string,
      normalizeDomain value isAllowlist = normalized) /\
  normalizeDomain "" isAllowlist = "" /\
  normalizeDomain "# comment" isAllowlist = "# comment" /\
  normalizeDomain "not a domain" isAllowlist = "not a domain" /\
  (forall domain,
      domain ∈ parseDomains feed isAllowlist <->
      exists line,
        In line (JS.split LF feed) /\
        JS.truthy (JS.trim line) = true /\
        isComment (JS.trim line) = false /\
        domain = normalizeDomain (JS.trim line) isAllowlist /\
        isValidDomain domain = true).
Proof.
  split; [intros value; eexists; reflexivity|].
  split; [destruct isAllowlist; vm_compute; reflexivity|].
  split; [destruct isAllowlist; vm_compute; reflexivity|].
  split; [destruct isAllowlist; vm_compute; reflexivity|].
  intros domain. unfold parseDomains.
  rewrite elem_of_new_Set, list_elem_of_In, filter_In, in_map_iff. split.
  - intros [(l & <- & Hl) Hv]. apply filter_In in Hl. destruct Hl as [Hl Hc].
    apply in_map_iff in Hl. destruct Hl as (line & <- & Hline).
    apply andb_true_iff in Hc. destruct Hc as [Ht Hc]. apply negb_true_iff in Hc.
    exists line. auto.
  - intros (line & Hline & Ht & Hc & -> & Hv). split; [|exact Hv].
    exists (JS.trim line). split; [reflexivity|].
    apply filter_In. split.
    + apply in_map_iff. exists line. auto.
    + now rewrite Ht, Hc.
Qed.

Lemma normalizeDomain_total_filters_outside_witness :
  "ads.example.com"
  ∈ parseDomains (Example.lines ["! blocked"; "  0.0.0.0 ads.example.com "; ""]) false.
Proof.
  destruct (normalizeDomain_total_filters_outside
              (Example.lines ["! blocked"; "  0.0.0.0 ads.example.com "; ""]) false)
    as (_ & _ & _ & _ & Hstages).
  apply Hstages. exists "  0.0.0.0 ads.example.com ".
  split; [vm_compute; right; left; reflexivity|].
  repeat split; vm_compute; reflexivity.
Defined.

(** * More of the code *)

(** ** More on the reconciliation loop *)

Section LoopInvariants.

Variable limit : Z.
Variable A : gset string.


Lemma processDomain_consistent r d :
  consistent r -> consistent (processDomain limit A r d).
Proof.
  intros (Hnd & Hsub & Hcount).
  destruct (processDomain_cases limit A r d) as [ | |HA HB Hnc _|HA HB Hnc _];
    unfold consistent; simpl.
  - repeat split; [exact Hnd | exact Hsub | lia].
  - repeat split; [exact Hnd | exact Hsub | lia].
  - repeat split; [exact Hnd | intros x Hx; apply Hsub in Hx; set_solver |].
    rewrite size_union by set_solver. rewrite size_singleton. lia.
  - repeat split.
    + apply NoDup_app. repeat split; [exact Hnd | | apply NoDup_singleton].
      intros x Hx Hx'. apply list_elem_of_singleton in Hx'. subst x.
      apply HB. now apply Hsub.
    + intros x. rewrite elem_of_app, list_elem_of_singleton.
      intros [Hx| ->]; [apply Hsub in Hx|]; set_solver.
    + rewrite size_union by set_solver. rewrite size_singleton. lia.
Qed.

Lemma reconcile_from_consistent l : forall r,
  consistent r -> consistent (reconcile_from limit A r l).
Proof.
  induction l as [|x l IH]; intros r H; simpl; [exact H|].
  apply IH. now apply processDomain_consistent.
Qed.

Lemma reconcile_from_processed l : forall r,
  processed (stats (reconcile_from limit A r l))
  = processed (stats r) + length l.
Proof.
  induction l as [|x l IH]; intros r; simpl; [lia|].
  rewrite IH. destruct (processDomain_cases limit A r x); simpl; lia.
Qed.

Lemma reconcile_from_sublist l : forall r,
  exists pushed,
    domains (reconcile_from limit A r l) = domains r ++ pushed /\
    sublist pushed l /\ Forall (fun x => x ∉ A) pushed.
Proof.
  induction l as [|x l IH]; intros r; simpl.
  - exists []. rewrite app_nil_r. repeat split; constructor.
  - destruct (IH (processDomain limit A r x)) as (pushed & E & Hs & HA).
    destruct (processDomain_cases limit A r x) as [ | | |Hx _ _ _];
      simpl in E.
    1-3: exists pushed; repeat split; [exact E | now apply sublist_cons | exact HA].
    exists (x :: pushed). rewrite E, <- app_assoc. simpl.
    repeat split; [now apply sublist_skip | now constructor].
Qed.


Lemma processDomain_nothing_dropped seen r d :
  (Z.of_nat seen <= limit - LIST_ITEM_SIZE)%Z ->
  nothing_dropped seen r -> nothing_dropped (S seen) (processDomain limit A r d).
Proof.
  intros Hroom [Hlen Hset].
  destruct (processDomain_cases limit A r d) as [ | |_ _ _ Hfull| ];
    unfold nothing_dropped; simpl.
  - split; [lia | exact Hset].
  - split; [lia | exact Hset].
  - lia.
  - rewrite length_app. simpl. split; [lia|].
    rewrite list_to_set_app_L, Hset. simpl.
    rewrite union_empty_r_L. apply union_comm_L.
Qed.

Lemma reconcile_from_nothing_dropped l : forall seen r,
  (Z.of_nat (seen + length l) <= limit - LIST_ITEM_SIZE + 1)%Z ->
  nothing_dropped seen r ->
  nothing_dropped (seen + length l) (reconcile_from limit A r l).
Proof.
  induction l as [|x l IH]; intros seen r Hroom H; simpl.
  - now rewrite Nat.add_0_r.
  - simpl in Hroom. replace (seen + S (length l)) with (S seen + length l) in * by lia.
    apply IH; [exact Hroom|].
    apply processDomain_nothing_dropped; [lia | exact H].
Qed.

(** A domain of the raw list ends in the block set or covered. *)
Lemma raw_blocked_or_covered d l : forall r,
  d ∈ l ->
  d ∈ blocklist (reconcile_from limit A r l) \/
  covered A (blocklist (reconcile_from limit A r l)) d.
Proof.
  induction l as [|x l IH]; intros r Hd; [now apply elem_of_nil in Hd|].
  apply elem_of_cons in Hd. simpl. destruct Hd as [->|Hd]; [|now apply IH].
  destruct (processed_blocked_or_covered limit A r x) as [H|H].
  - left. now apply (reconcile_from_blocklist_mono limit A l).
  - right. eapply covered_mono; [apply reconcile_from_blocklist_mono | exact H].
Qed.

End LoopInvariants.

Lemma consistent_start :
  consistent (mkReconciled (mkStats 0 0 0) ∅ []).
Proof.
  unfold consistent. simpl. repeat split; [constructor | set_solver].
Qed.

(** X1: the final block list [domains] of the reconciliation loop holds no
    domain twice, whatever the raw list, the allow set and the limit. *)
Theorem final_list_has_no_duplicates
    (limit : Z) (allowlist : gset string) (rawBlocklist : list string) :
  NoDup (domains (reconcile limit allowlist rawBlocklist)).
Proof.
  apply (reconcile_from_consistent limit allowlist rawBlocklist _ consistent_start).
Qed.

(** X2: when the loop ends, [stats.processed] is the number of raw
    domains, each of them was counted as allowed, counted as duplicate or
    added to the [blocklist] set, and [domains] is never longer than that
    set. *)
Theorem counters_account_for_every_domain
    (limit : Z) (allowlist : gset string) (rawBlocklist : list string) :
  let r := reconcile limit allowlist rawBlocklist in
  processed (stats r) = length rawBlocklist /\
  allowed (stats r) + duplicates (stats r) + size (blocklist r)
  = processed (stats r) /\
  length (domains r) <= size (blocklist r).
Proof.
  intros r.
  destruct (reconcile_from_consistent limit allowlist rawBlocklist _ consistent_start)
    as (Hnd & Hsub & Hcount). fold (reconcile limit allowlist rawBlocklist) in *. fold r in Hnd, Hsub, Hcount.
  split; [apply (reconcile_from_processed limit allowlist rawBlocklist)|].
  split; [exact Hcount|].
  rewrite <- (size_list_to_set (C := gset string) (domains r)) by exact Hnd.
  apply subseteq_size. intros x Hx. apply elem_of_list_to_set in Hx. now apply Hsub.
Qed.

(** X3: [domains] is a subsequence of the raw list, in the same order,
    and none of its members is in the allow set. *)
Theorem final_list_keeps_raw_order
    (limit : Z) (allowlist : gset string) (rawBlocklist : list string) :
  sublist (domains (reconcile limit allowlist rawBlocklist)) rawBlocklist /\
  Forall (fun d => d ∉ allowlist) (domains (reconcile limit allowlist rawBlocklist)).
Proof.
  destruct (reconcile_from_sublist limit allowlist rawBlocklist
              (mkReconciled (mkStats 0 0 0) ∅ [])) as (pushed & E & Hs & HA).
  unfold reconcile. rewrite E. simpl. split; assumption.
Qed.

(** X4: a raw list of at most [LIST_ITEM_LIMIT - LIST_ITEM_SIZE + 1]
    domains loses nothing to the limit: each of its domains is allowed, is
    in the final list, or has one of the items scanned for it allowed or
    in the final list. *)
Theorem short_raw_list_is_fully_covered
    (limit : Z) (allowlist : gset string) (rawBlocklist : list string)
    (d : string) :
  (Z.of_nat (length rawBlocklist) <= limit - LIST_ITEM_SIZE + 1)%Z ->
  d ∈ rawBlocklist ->
  d ∈ allowlist \/
  d ∈ domains (reconcile limit allowlist rawBlocklist) \/
  exists item, In item (drop 1 (extractDomain d)) /\
               (item ∈ allowlist \/
                item ∈ domains (reconcile limit allowlist rawBlocklist)).
Proof.
  intros Hroom Hd.
  destruct (reconcile_from_nothing_dropped limit allowlist rawBlocklist 0
              (mkReconciled (mkStats 0 0 0) ∅ [])) as [_ Hset].
  { simpl. exact Hroom. }
  { split; [simpl; lia | reflexivity]. }
  fold (reconcile limit allowlist rawBlocklist) in Hset.
  destruct (raw_blocked_or_covered limit allowlist d rawBlocklist
              (mkReconciled (mkStats 0 0 0) ∅ []) Hd) as [H|[H|(item & Hin & H)]];
    fold (reconcile limit allowlist rawBlocklist) in H.
  - right. left. rewrite Hset in H. now apply elem_of_list_to_set in H.
  - now left.
  - right. right. exists item. split; [exact Hin|].
    destruct H as [H|H]; [now left | right].
    rewrite Hset in H. now apply elem_of_list_to_set in H.
Qed.

Lemma short_raw_list_is_fully_covered_witness :
  "x.a.com" ∈ (∅ : gset string) \/
  "x.a.com" ∈ domains (reconcile 300000 ∅ ["a.com"; "x.a.com"]) \/
  exists item, In item (drop 1 (extractDomain "x.a.com")) /\
               (item ∈ (∅ : gset string) \/
                item ∈ domains (reconcile 300000 ∅ ["a.com"; "x.a.com"])).
Proof.
  apply (short_raw_list_is_fully_covered 300000 ∅ ["a.com"; "x.a.com"] "x.a.com").
  - vm_compute. discriminate.
  - repeat constructor.
Defined.

(** ** Splitting and joining *)

Lemma concat_cons_char sep a p ps :
  String.concat sep (String a p :: ps) = String a (String.concat sep (p :: ps)).
Proof. destruct ps; reflexivity. Qed.

Lemma join_split c s : JS.join (String c "") (JS.split c s) = s.
Proof.
  unfold JS.join. induction s as [|a s IH]; [reflexivity|].
  cbn [JS.split]. destruct (Ascii.eqb a c) eqn:E.
  - apply Ascii.eqb_eq in E. subst a.
    destruct (JS.split c s) as [|p ps] eqn:Es; [now apply split_not_nil in Es|].
    change (String.concat (String c "") ("" :: p :: ps))
      with (String c (String.concat (String c "") (p :: ps))).
    now rewrite IH.
  - destruct (JS.split c s) as [|p ps] eqn:Es; [now apply split_not_nil in Es|].
    rewrite concat_cons_char. now rewrite IH.
Qed.

Lemma split_no_sep_id c s :
  ~ In c (JS.chars s) -> JS.split c s = [s].
Proof.
  induction s as [|a s IH]; intros H; [reflexivity|].
  cbn [JS.split]. destruct (Ascii.eqb a c) eqn:E.
  - apply Ascii.eqb_eq in E. subst a. exfalso. apply H. now left.
  - rewrite IH; [reflexivity|]. intros Hin. apply H. now right.
Qed.

Lemma split_app_sep c s t :
  ~ In c (JS.chars s) ->
  JS.split c (s +:+ String c t) = s :: JS.split c t.
Proof.
  induction s as [|a s IH]; intros H.
  - change ("" +:+ String c t) with (String c t). cbn [JS.split].
    now rewrite Ascii.eqb_refl.
  - rewrite str_app_cons. cbn [JS.split]. destruct (Ascii.eqb a c) eqn:E.
    + apply Ascii.eqb_eq in E. subst a. exfalso. apply H. now left.
    + rewrite IH; [reflexivity|]. intros Hin. apply H. now right.
Qed.

Lemma split_join c l :
  l <> [] -> Forall (fun s => ~ In c (JS.chars s)) l ->
  JS.split c (JS.join (String c "") l) = l.
Proof.
  unfold JS.join. induction l as [|s [|s' l] IH]; intros Hne H; [congruence| |].
  - simpl. apply split_no_sep_id. now inversion H.
  - change (String.concat (String c "") (s :: s' :: l))
      with (s +:+ String c "" +:+ String.concat (String c "") (s' :: l)).
    change (String c "" +:+ ?x) with (String c x).
    inversion H as [|? ? Hs Hl]; subst.
    rewrite split_app_sep by exact Hs. f_equal. apply IH; [discriminate | exact Hl].
Qed.

(** ** [extractDomain] *)

(** X5: [extractDomain(domain)] lists the suffixes of [domain] made of
    its last 1, 2, ... labels, one per label, and ends with [domain]
    itself. *)
Theorem extractDomain_lists_suffixes (domain : string) :
  extractDomain domain
  = map (last_labels domain) (seq 1 (length (labels domain))) /\
  length (extractDomain domain) = length (labels domain) /\
  last (extractDomain domain) = Some domain.
Proof.
  assert (extractDomain domain
          = map (last_labels domain) (seq 1 (length (labels domain)))) as E.
  { rewrite extractDomain_rev, (rev_map_seq _ _ 0).
    apply map_ext. intros k. unfold last_labels. f_equal. lia. }
  split; [exact E|]. split; [now rewrite E, length_map, length_seq|].
  rewrite extractDomain_rev.
  pose proof (split_not_nil "." domain) as Hn. fold (labels domain) in Hn.
  destruct (length (labels domain)) as [|n] eqn:En.
  { destruct (labels domain); [congruence | discriminate]. }
  rewrite <- cons_seq. cbn [map].
  cbn [rev]. rewrite last_snoc. f_equal.
  unfold from_label, labels. rewrite drop_0. apply join_split.
Qed.

(** ** Valid domains *)

Lemma chars_rev_app s : forall t,
  JS.chars (String.rev_app s t) = rev (JS.chars s) ++ JS.chars t.
Proof.
  induction s as [|a s IH]; intros t; [reflexivity|].
  cbn [String.rev_app]. rewrite IH. simpl. now rewrite <- app_assoc.
Qed.

Lemma chars_rev s : JS.chars (String.rev s) = rev (JS.chars s).
Proof. unfold String.rev. rewrite chars_rev_app. simpl. now rewrite app_nil_r. Qed.

Lemma chars_inj s t : JS.chars s = JS.chars t -> s = t.
Proof.
  intros H. rewrite <- (string_of_list_ascii_of_string s),
    <- (string_of_list_ascii_of_string t). unfold JS.chars in H. now rewrite H.
Qed.

Lemma trimStart_id s :
  Forall (fun c => JS.is_white c = false) (JS.chars s) -> JS.trimStart s = s.
Proof.
  destruct s as [|a s]; [reflexivity|]. intros H. inversion H as [|? ? Ha _]; subst.
  simpl. now rewrite Ha.
Qed.

Lemma trim_id s :
  Forall (fun c => JS.is_white c = false) (JS.chars s) -> JS.trim s = s.
Proof.
  intros H. unfold JS.trim, JS.trimEnd. rewrite (trimStart_id s H).
  rewrite trimStart_id.
  - apply chars_inj. rewrite !chars_rev. apply rev_involutive.
  - rewrite chars_rev. now apply Forall_rev.
Qed.

(** A test that holds on the 256 characters holds on every character. *)
Lemma ascii_forall (f : ascii -> bool) :
  forallb (fun n => f (ascii_of_nat n)) (seq 0 256) = true -> forall c, f c = true.
Proof.
  rewrite forallb_forall. intros H c.
  rewrite <- (ascii_nat_embedding c). apply H.
  apply in_seq. pose proof (nat_ascii_bounded c). lia.
Qed.

Lemma domain_char_not_white c : domain_char c -> JS.is_white c = false.
Proof.
  unfold domain_char. intros H.
  pose proof (ascii_forall
                (fun c => implb (in_cls domain_cls c) (negb (JS.is_white c)))
                eq_refl c) as T.
  cbv beta in T. rewrite H in T. simpl in T. now apply negb_true_iff in T.
Qed.

Lemma valid_first_char d :
  isValidDomain d = true ->
  exists a rest, d = String a rest /\ domain_char a.
Proof.
  intros H. pose proof (validDomain_chars d H) as Hc.
  pose proof (validDomain_has_dot d H) as Hd.
  destruct d as [|a rest]; [contradiction|].
  exists a, rest. split; [reflexivity|]. now inversion Hc.
Qed.

Lemma prefix_cons_ne a b s t :
  a <> b -> String.prefix (String a s) (String b t) = false.
Proof. intros H. simpl. destruct (ascii_dec a b); [contradiction | reflexivity]. Qed.

Lemma valid_two_labels d : isValidDomain d = true -> 2 <= length (labels d).
Proof.
  intros H. pose proof (validDomain_has_dot d H) as Hdot.
  pose proof (split_not_nil "." d) as Hn. fold (labels d) in Hn.
  destruct (labels d) as [|p [|q ps]] eqn:E; [congruence| |simpl; lia].
  exfalso. pose proof (last_label_no_dot d) as Hl.
  unfold from_label in Hl. rewrite E in Hl. simpl in Hl.
  pose proof (join_split "." d) as J. fold (labels d) in J. rewrite E in J.
  simpl in J. subst p. contradiction.
Qed.

Lemma valid_trim d : isValidDomain d = true -> JS.trim d = d.
Proof.
  intros H. apply trim_id.
  eapply Forall_impl; [apply validDomain_chars, H|]. apply domain_char_not_white.
Qed.

Lemma valid_truthy d : isValidDomain d = true -> JS.truthy d = true.
Proof. intros H. destruct (valid_first_char d H) as (a & rest & -> & _). reflexivity. Qed.

Lemma valid_not_comment d : isValidDomain d = true -> isComment d = false.
Proof.
  intros H. destruct (valid_first_char d H) as (a & rest & -> & Ha).
  unfold domain_char in Ha.
  assert ("#"%char <> a) by (intros <-; vm_compute in Ha; discriminate).
  assert ("/"%char <> a) by (intros <-; vm_compute in Ha; discriminate).
  assert ("!"%char <> a) by (intros <-; vm_compute in Ha; discriminate).
  assert ("*"%char <> a) by (intros <-; vm_compute in Ha; discriminate).
  unfold isComment, JS.startsWith. rewrite !prefix_cons_ne by assumption.
  reflexivity.
Qed.

(** X6: a string accepted by [isValidDomain] is made of the characters
    [a-z0-9.-] only, has at least two labels, is left as it is by [trim],
    is not the empty string and is not a comment. *)
Theorem valid_domain_shape (d : string) :
  isValidDomain d = true ->
  Forall domain_char (JS.chars d) /\
  2 <= length (labels d) /\
  JS.trim d = d /\
  JS.truthy d = true /\
  isComment d = false.
Proof.
  intros H. split; [now apply validDomain_chars|].
  split; [now apply valid_two_labels|].
  split; [now apply valid_trim|].
  split; [now apply valid_truthy | now apply valid_not_comment].
Qed.

Lemma valid_domain_shape_witness :
  2 <= length (labels "ads.example.com") /\ JS.trim "ads.example.com" = "ads.example.com".
Proof.
  destruct (valid_domain_shape "ads.example.com") as (_ & H2 & H3 & _).
  - vm_compute. reflexivity.
  - split; [exact H2 | exact H3].
Defined.

(** ** [normalizeDomain] on the syntaxes of the feeds *)

Lemma chars_app s t : JS.chars (s +:+ t) = JS.chars s ++ JS.chars t.
Proof.
  induction s as [|a s IH]; [reflexivity|].
  rewrite str_app_cons. simpl. now rewrite IH.
Qed.

Lemma after_prefix_app pat s : JS.after_prefix pat (pat +:+ s) = Some s.
Proof.
  induction pat as [|a pat IH]; [reflexivity|].
  rewrite str_app_cons. simpl. now rewrite Ascii.eqb_refl.
Qed.

Lemma replace_prefix pat repl s : JS.replace pat repl (pat +:+ s) = repl +:+ s.
Proof.
  destruct pat as [|a pat]; [destruct s; reflexivity|].
  rewrite str_app_cons. cbn [JS.replace].
  rewrite <- str_app_cons. now rewrite after_prefix_app.
Qed.

(** The pattern cannot start inside [s] when its first character is not
    in [s]. *)
Lemma replace_skip a pat repl s t :
  ~ In a (JS.chars s) ->
  JS.replace (String a pat) repl (s +:+ t) = s +:+ JS.replace (String a pat) repl t.
Proof.
  induction s as [|b s IH]; intros H; [reflexivity|].
  rewrite !str_app_cons. cbn [JS.replace JS.after_prefix].
  destruct (Ascii.eqb a b) eqn:E.
  - apply Ascii.eqb_eq in E. subst b. exfalso. apply H. now left.
  - rewrite IH; [reflexivity|]. intros Hin. apply H. now right.
Qed.

Lemma no_space_no_ip s :
  Forall (fun c => in_cls space c = false) (JS.chars s) ->
  Regex.replace ipPrefixRe "" s = s.
Proof.
  intros H. apply (regex_replace_absent (fun c => in_cls space c = true)).
  - unfold ipPrefixRe, Plus. cbn [some_char]. right. auto.
  - eapply Forall_impl; [exact H|]. intros c Hc Hc'. cbv beta in Hc. congruence.
Qed.

Lemma domain_char_no_space c : domain_char c -> in_cls space c = false.
Proof.
  unfold domain_char. intros H.
  destruct (in_cls space c) eqn:E; [|reflexivity].
  pose proof (cls_apart_correct space domain_cls eq_refl c E). congruence.
Qed.


Lemma in_cls_char c c' :
  in_cls [(nat_of_ascii c, nat_of_ascii c)] c' = Ascii.eqb c c'.
Proof.
  destruct (Ascii.eqb c c') eqn:E.
  - apply Ascii.eqb_eq in E. subst c'. unfold in_cls. simpl.
    now rewrite Nat.leb_refl.
  - destruct (in_cls [(nat_of_ascii c, nat_of_ascii c)] c') eqn:E'; [|reflexivity].
    apply in_cls_single in E'. rewrite ascii_nat_embedding in E'. subst c'.
    now rewrite Ascii.eqb_refl in E.
Qed.

Lemma match_re_Lit s : forall p, match_re (Lit s) p = lit_end (JS.chars s) p.
Proof.
  induction s as [|c s IH]; intros p; [reflexivity|].
  cbn [Lit match_re JS.chars list_ascii_of_string lit_end].
  destruct (snd p) as [|c' rest]; [reflexivity|].
  rewrite in_cls_char. destruct (Ascii.eqb c c'); [|reflexivity].
  cbn [flat_map]. rewrite app_nil_r. apply IH.
Qed.

Lemma match_re_spaces_one prev sp a rest :
  in_cls space sp = true -> in_cls space a = false ->
  match_re (Plus (Chr space)) (prev, sp :: a :: rest) = [(Some sp, a :: rest)].
Proof.
  intros Hsp Ha. unfold Plus.
  cbn [match_re exactly flat_map snd fst app]. rewrite Hsp.
  cbn [flat_map app length upto snd match_re]. rewrite Ha. reflexivity.
Qed.

Lemma exec_from_head r prev s prev' rest l :
  match_re r (prev, s) = (prev', rest) :: l ->
  exec_from r prev s = Some ([], rest).
Proof. intros H. destruct s; simpl; now rewrite H. Qed.

(** The address of a hosts line and the space behind it are removed. *)
Lemma ip_prefix_removed ip a rest :
  In ip ["0.0.0.0"; "127.0.0.1"; "::1"; "::"] ->
  in_cls space a = false ->
  Regex.replace ipPrefixRe "" (ip +:+ " " +:+ String a rest) = String a rest.
Proof.
  intros Hip Ha. unfold Regex.replace.
  assert (exec_from ipPrefixRe None (JS.chars (ip +:+ " " +:+ String a rest))
          = Some ([], JS.chars (String a rest))) as ->.
  { assert (in_cls space " " = true) as Hsp by reflexivity.
    assert (forall prev tl, match_re (Plus (Chr space)) (prev, "1"%char :: tl) = [])
      as Hone by reflexivity.
    rewrite !chars_app. simpl in Hip.
    destruct Hip as [<-|[<-|[<-|[<-|[]]]]];
      (apply (exec_from_head _ _ _ (Some " "%char) _ []); unfold ipPrefixRe;
       cbn [match_re]; rewrite !match_re_Lit;
       cbn [JS.chars list_ascii_of_string lit_end app snd Ascii.eqb Bool.eqb flat_map];
       rewrite ?Hone, (match_re_spaces_one _ _ _ _ Hsp Ha); reflexivity). }
  simpl. unfold JS.of_chars. now rewrite string_of_list_ascii_of_string.
Qed.

Lemma valid_no_char d n :
  isValidDomain d = true -> in_cls domain_cls (ascii_of_nat n) = false ->
  ~ In (ascii_of_nat n) (JS.chars d).
Proof.
  intros H Hn Hin. pose proof (validDomain_chars d H) as Hc.
  rewrite List.Forall_forall in Hc. apply Hc in Hin.
  unfold domain_char in Hin. congruence.
Qed.

Lemma valid_no_space d :
  isValidDomain d = true ->
  Forall (fun c => in_cls space c = false) (JS.chars d).
Proof.
  intros H. eapply Forall_impl; [apply validDomain_chars, H|].
  apply domain_char_no_space.
Qed.

Lemma normalizeDomain_valid d b :
  isValidDomain d = true -> normalizeDomain d b = d.
Proof. intros H. apply normalizeDomain_domain_chars. now apply validDomain_chars. Qed.

(** A hosts line. *)
Lemma normalizeDomain_hosts ip d b :
  In ip ["0.0.0.0"; "127.0.0.1"; "::1"; "::"] ->
  isValidDomain d = true ->
  normalizeDomain (ip +:+ " " +:+ d) b = d.
Proof.
  intros Hip H.
  destruct (valid_first_char d H) as (a & rest & E & Ha).
  assert (JS.replace "@@||" "" (ip +:+ " " +:+ d) = ip +:+ " " +:+ d) as E0.
  { apply (replace_absent _ _ "@"%char); [now left|].
    rewrite !chars_app, !in_app_iff.
    intros [Hin|[Hin|Hin]].
    - simpl in Hip. destruct Hip as [<-|[<-|[<-|[<-|[]]]]]; simpl in Hin;
        repeat (destruct Hin as [Hin|Hin]; [discriminate|]); exact Hin.
    - simpl in Hin. destruct Hin as [Hin|[]]. discriminate.
    - now apply (valid_no_char d 64 H). }
  assert (Regex.replace ipPrefixRe "" (ip +:+ " " +:+ d) = d) as E1.
  { rewrite E. apply ip_prefix_removed; [exact Hip|].
    now apply domain_char_no_space. }
  pose proof (normalizeDomain_valid d false H) as Hd.
  unfold normalizeDomain in Hd |- *.
  destruct b; rewrite ?E0, E1.
  - rewrite (no_space_no_ip d (valid_no_space d H)) in Hd. exact Hd.
  - rewrite (no_space_no_ip d (valid_no_space d H)) in Hd. exact Hd.
Qed.

Lemma not_in_chars_app c s t :
  ~ In c (JS.chars s) -> ~ In c (JS.chars t) -> ~ In c (JS.chars (s +:+ t)).
Proof. rewrite chars_app, in_app_iff. tauto. Qed.

(** The rest of [normalizeDomain] behind the two first replacements, on a
    valid domain followed by an anchor. *)
Lemma strip_markers d tail :
  isValidDomain d = true ->
  tail = "^" \/ tail = "^$important" ->
  JS.replace "^" ""
    (JS.replace "*." "" (JS.replace "^$important" "" (d +:+ tail))) = d.
Proof.
  intros H Htail.
  pose proof (valid_no_char d 94 H eq_refl) as Hcaret.
  pose proof (valid_no_char d 42 H eq_refl) as Hstar.
  pose proof (valid_no_char d 36 H eq_refl) as Hdollar.
  destruct Htail as [-> | ->].
  - rewrite (replace_absent "^$important" "" "$"%char);
      [|right; now left | apply not_in_chars_app; [exact Hdollar | simpl; intuition discriminate]].
    rewrite (replace_absent "*." "" "*"%char);
      [|now left | apply not_in_chars_app; [exact Hstar | simpl; intuition discriminate]].
    rewrite replace_skip by exact Hcaret. simpl. apply str_app_nil_r.
  - rewrite replace_skip by exact Hcaret.
    change (JS.replace "^$important" "" "^$important") with "".
    rewrite str_app_nil_r.
    rewrite (replace_absent "*." "" "*"%char); [|now left | exact Hstar].
    apply (replace_absent "^" "" "^"%char); [now left | exact Hcaret].
Qed.

(** An adblock line. *)
Lemma normalizeDomain_adblock d tail b :
  isValidDomain d = true ->
  tail = "^" \/ tail = "^$important" ->
  normalizeDomain ("||" +:+ d +:+ tail) b = d.
Proof.
  intros H Htail.
  assert (~ In "@"%char (JS.chars ("||" +:+ d +:+ tail))) as Hat.
  { apply not_in_chars_app; [simpl; intuition discriminate|].
    apply not_in_chars_app; [apply (valid_no_char d 64 H eq_refl)|].
    destruct Htail as [-> | ->]; simpl; intuition discriminate. }
  assert (Forall (fun c => in_cls space c = false) (JS.chars ("||" +:+ d +:+ tail))) as Hsp.
  { rewrite !chars_app. apply Forall_app. split; [repeat constructor|].
    apply Forall_app. split; [now apply valid_no_space|].
    destruct Htail as [-> | ->]; repeat constructor. }
  unfold normalizeDomain.
  assert (JS.replace "@@||" "" ("||" +:+ d +:+ tail) = "||" +:+ d +:+ tail) as ->
    by (apply (replace_absent _ _ "@"%char); [now left | exact Hat]).
  replace (if b then "||" +:+ d +:+ tail else "||" +:+ d +:+ tail)
    with ("||" +:+ d +:+ tail) by (destruct b; reflexivity).
  rewrite (no_space_no_ip _ Hsp), replace_prefix.
  change ("" +:+ ?x) with x. now apply strip_markers.
Qed.

(** A wildcard line. *)
Lemma normalizeDomain_wildcard d b :
  isValidDomain d = true -> normalizeDomain ("*." +:+ d) b = d.
Proof.
  intros H.
  assert (forall n, in_cls domain_cls (ascii_of_nat n) = false ->
                    ascii_of_nat n <> "*"%char -> ascii_of_nat n <> "."%char ->
                    ~ In (ascii_of_nat n) (JS.chars ("*." +:+ d))) as Hno.
  { intros n Hn H1 H2. apply not_in_chars_app; [|now apply valid_no_char].
    simpl. intuition congruence. }
  unfold normalizeDomain.
  assert (JS.replace "@@||" "" ("*." +:+ d) = "*." +:+ d) as ->
    by (apply (replace_absent _ _ "@"%char); [now left | now apply (Hno 64)]).
  replace (if b then "*." +:+ d else "*." +:+ d) with ("*." +:+ d)
    by (destruct b; reflexivity).
  rewrite no_space_no_ip
    by (rewrite chars_app; apply Forall_app; split;
        [repeat constructor | now apply valid_no_space]).
  rewrite (replace_absent "||" "" "|"%char); [|now left | now apply (Hno 124)].
  rewrite (replace_absent "^$important" "" "^"%char); [|now left | now apply (Hno 94)].
  rewrite replace_prefix. change ("" +:+ ?x) with x.
  apply (replace_absent "^" "" "^"%char); [now left | now apply (valid_no_char d 94)].
Qed.

(** X7: for a valid domain [d], [normalizeDomain] gives [d] back from
    [d] itself, from the hosts-file lines [0.0.0.0 d], [127.0.0.1 d],
    [::1 d] and [:: d], from the filter rules [||d^] and
    [||d^$important], and from the wildcard [*.d], with either value of
    the allowlist flag. *)
Theorem feed_lines_normalize_to_their_domain (d : string) (b : bool) :
  isValidDomain d = true ->
  normalizeDomain d b = d /\
  normalizeDomain ("0.0.0.0 " +:+ d) b = d /\
  normalizeDomain ("127.0.0.1 " +:+ d) b = d /\
  normalizeDomain ("::1 " +:+ d) b = d /\
  normalizeDomain (":: " +:+ d) b = d /\
  normalizeDomain ("||" +:+ d +:+ "^") b = d /\
  normalizeDomain ("||" +:+ d +:+ "^$important") b = d /\
  normalizeDomain ("*." +:+ d) b = d.
Proof.
  intros H.
  split; [now apply normalizeDomain_valid|].
  split; [apply (normalizeDomain_hosts "0.0.0.0"); simpl; auto|].
  split; [apply (normalizeDomain_hosts "127.0.0.1"); simpl; auto|].
  split; [apply (normalizeDomain_hosts "::1"); simpl; auto|].
  split; [apply (normalizeDomain_hosts "::"); simpl; auto|].
  split; [apply normalizeDomain_adblock; auto|].
  split; [apply normalizeDomain_adblock; auto|].
  now apply normalizeDomain_wildcard.
Qed.

Lemma feed_lines_normalize_to_their_domain_witness :
  normalizeDomain "127.0.0.1 ads.example.com" false = "ads.example.com" /\
  normalizeDomain "||ads.example.com^$important" false = "ads.example.com".
Proof.
  destruct (feed_lines_normalize_to_their_domain "ads.example.com" false)
    as (_ & _ & H1 & _ & _ & _ & H2 & _).
  - vm_compute. reflexivity.
  - split; [exact H1 | exact H2].
Defined.

(** X8: for a valid domain [d], the exception rule [@@||d^] normalizes
    to [d] when the allowlist flag is set; without the flag it normalizes
    to [@@d], which [isValidDomain] rejects. *)
Theorem exception_rule_needs_the_allowlist_flag (d : string) :
  isValidDomain d = true ->
  normalizeDomain ("@@||" +:+ d +:+ "^") true = d /\
  normalizeDomain ("@@||" +:+ d +:+ "^") false = "@@" +:+ d /\
  isValidDomain (normalizeDomain ("@@||" +:+ d +:+ "^") false) = false.
Proof.
  intros H.
  pose proof (valid_no_char d 94 H eq_refl) as Hcaret.
  pose proof (valid_no_char d 42 H eq_refl) as Hstar.
  pose proof (valid_no_char d 36 H eq_refl) as Hdollar.
  pose proof (valid_no_char d 124 H eq_refl) as Hbar.
  pose proof (valid_no_char d 64 H eq_refl) as Hat.
  assert (Forall (fun c => in_cls space c = false) (JS.chars (d +:+ "^"))) as Hsp.
  { rewrite chars_app. apply Forall_app. split; [now apply valid_no_space|].
    repeat constructor. }
  assert (normalizeDomain ("@@||" +:+ d +:+ "^") false = "@@" +:+ d) as Hfalse.
  { unfold normalizeDomain.
    rewrite no_space_no_ip
      by (rewrite chars_app; apply Forall_app; split; [repeat constructor | exact Hsp]).
    change ("@@||" +:+ d +:+ "^") with ("@@" +:+ "||" +:+ d +:+ "^").
    rewrite (replace_skip "|" "|" "" "@@") by (simpl; intuition discriminate).
    rewrite replace_prefix. change ("" +:+ ?x) with x.
    rewrite (replace_absent "^$important" "" "$"%char);
      [|right; now left |
       apply not_in_chars_app; [simpl; intuition discriminate|];
       apply not_in_chars_app; [exact Hdollar | simpl; intuition discriminate]].
    rewrite (replace_absent "*." "" "*"%char);
      [|now left |
       apply not_in_chars_app; [simpl; intuition discriminate|];
       apply not_in_chars_app; [exact Hstar | simpl; intuition discriminate]].
    rewrite <- str_app_assoc.
    rewrite replace_skip
      by (apply not_in_chars_app; [simpl; intuition discriminate | exact Hcaret]).
    simpl. rewrite str_app_nil_r. reflexivity. }
  split; [|split; [exact Hfalse|]].
  - unfold normalizeDomain. rewrite replace_prefix. change ("" +:+ ?x) with x.
    rewrite (no_space_no_ip _ Hsp).
    rewrite (replace_absent "||" "" "|"%char);
      [|now left | apply not_in_chars_app; [exact Hbar | simpl; intuition discriminate]].
    now apply strip_markers; [|left].
  - rewrite Hfalse. destruct (isValidDomain ("@@" +:+ d)) eqn:E; [|reflexivity].
    exfalso. apply (valid_no_char _ 64 E eq_refl). simpl. now left.
Qed.

Lemma exception_rule_needs_the_allowlist_flag_witness :
  normalizeDomain "@@||good.example.org^" true = "good.example.org" /\
  normalizeDomain "@@||good.example.org^" false = "@@good.example.org".
Proof.
  destruct (exception_rule_needs_the_allowlist_flag "good.example.org")
    as (H1 & H2 & _).
  - vm_compute. reflexivity.
  - split; [exact H1 | exact H2].
Defined.

(** ** The set built from a feed *)

Lemma new_Set_from acc : forall array,
  NoDup acc ->
  NoDup (fold_left (fun (set : list string) (x : string) =>
                      if bool_decide (x ∈ set) then set else set ++ [x])
                   array acc).
Proof.
  intros array. revert acc. induction array as [|x array IH]; intros acc H; [exact H|].
  simpl. apply IH. destruct (bool_decide (x ∈ acc)) eqn:E; [exact H|].
  apply bool_decide_eq_false in E. apply NoDup_app. repeat split.
  - exact H.
  - intros y Hy Hy'. apply list_elem_of_singleton in Hy'. now subst y.
  - apply NoDup_singleton.
Qed.

Lemma NoDup_new_Set array : NoDup (new_Set array).
Proof. apply new_Set_from. constructor. Qed.

Lemma new_Set_fresh array : forall acc,
  NoDup (acc ++ array) ->
  fold_left (fun (set : list string) (x : string) =>
               if bool_decide (x ∈ set) then set else set ++ [x])
            array acc = acc ++ array.
Proof.
  induction array as [|x array IH]; intros acc H; simpl; [now rewrite app_nil_r|].
  assert (x ∉ acc) as Hx.
  { apply NoDup_app in H. destruct H as (_ & H & _). intros Hin.
    apply (H x Hin). now left. }
  rewrite (bool_decide_eq_false_2 _ Hx).
  rewrite IH; rewrite <- app_assoc; [reflexivity | exact H].
Qed.

Lemma new_Set_NoDup_id array : NoDup array -> new_Set array = array.
Proof. intros H. unfold new_Set. now rewrite new_Set_fresh. Qed.

Lemma Forall_new_Set (P : string -> Prop) array :
  Forall P array -> Forall P (new_Set array).
Proof.
  rewrite !Forall_forall. intros H x Hx. apply H. now apply elem_of_new_Set.
Qed.

Lemma filter_all {A} (f : A -> bool) l :
  Forall (fun x => f x = true) l -> List.filter f l = l.
Proof.
  induction 1 as [|x l Hx _ IH]; [reflexivity|]. simpl. now rewrite Hx, IH.
Qed.

Lemma map_id_on {A} (f : A -> A) l :
  Forall (fun x => f x = x) l -> map f l = l.
Proof.
  induction 1 as [|x l Hx _ IH]; [reflexivity|]. simpl. now rewrite Hx, IH.
Qed.

Lemma parseDomains_valid feed b :
  Forall (fun domain => isValidDomain domain = true) (parseDomains feed b).
Proof.
  unfold parseDomains. apply Forall_new_Set. apply List.Forall_forall.
  intros x Hx. now apply filter_In in Hx.
Qed.

(** X9: the set [fetchDomains] builds from the text of a feed holds
    valid domains only, each once. *)
Theorem parsed_domains_are_valid_and_distinct (feed : string) (isAllowlist : bool) :
  NoDup (parseDomains feed isAllowlist) /\
  Forall (fun domain => isValidDomain domain = true) (parseDomains feed isAllowlist).
Proof.
  split.
  - unfold parseDomains. apply NoDup_new_Set.
  - apply parseDomains_valid.
Qed.

(** X10: a feed that is a list of distinct valid domains, one per line,
    is parsed to that list, in the same order. *)
Theorem plain_feed_round_trip (l : list string) (isAllowlist : bool) :
  Forall (fun domain => isValidDomain domain = true) l ->
  NoDup l ->
  parseDomains (JS.join (String LF "") l) isAllowlist = l.
Proof.
  intros Hv Hnd. unfold parseDomains.
  destruct l as [|d l]; [reflexivity|].
  rewrite split_join; [|discriminate|].
  2:{ eapply Forall_impl; [exact Hv|]. intros x Hx. cbv beta in Hx.
      apply (valid_no_char x 10 Hx eq_refl). }
  rewrite (map_id_on (fun line => JS.trim line)).
  2:{ eapply Forall_impl; [exact Hv|]. intros x Hx. now apply valid_trim. }
  rewrite (filter_all (fun line => JS.truthy line && negb (isComment line))).
  2:{ eapply Forall_impl; [exact Hv|]. intros x Hx. cbv beta in Hx |- *.
      now rewrite (valid_truthy x Hx), (valid_not_comment x Hx). }
  rewrite (map_id_on (fun line => normalizeDomain line isAllowlist)).
  2:{ eapply Forall_impl; [exact Hv|]. intros x Hx. now apply normalizeDomain_valid. }
  rewrite filter_all by exact Hv.
  now apply new_Set_NoDup_id.
Qed.

Lemma plain_feed_round_trip_witness :
  parseDomains (JS.join (String LF "") ["ads.example.com"; "tracker.example.net"]) false
  = ["ads.example.com"; "tracker.example.net"].
Proof.
  apply (plain_feed_round_trip ["ads.example.com"; "tracker.example.net"] false).
  - repeat constructor.
  - apply NoDup_cons. split; [|apply NoDup_singleton].
    intros H. apply list_elem_of_singleton in H. discriminate H.
Defined.

(** ** The downloads *)

Section Downloads.
Context {W : Type}.
Variable handler : forall c : request, W -> answer c * W.

Lemma fetchDomains_run url b w :
  exists l,
    run handler (fetchDomains url b) w
    = ([Fetch url], inr l, snd (handler (Fetch url) w)) /\
    NoDup l /\ Forall (fun d => isValidDomain d = true) l.
Proof.
  unfold fetchDomains, fetch, await. rewrite !bind_unfold. simpl.
  destruct (handler (Fetch url) w) as [[message|response] w1]; simpl.
  - exists []. repeat split; constructor.
  - destruct (ok response); simpl.
    + exists (parseDomains (text response) b).
      split; [reflexivity|].
      split; [unfold parseDomains; apply NoDup_new_Set | apply parseDomains_valid].
    + exists []. repeat split; constructor.
Qed.
End Downloads.

Section MoreRunFacts.
Context {W : Type}.
Variable handler : forall c : request, W -> answer c * W.

Lemma run_try_catch {A} (p : prog A) (h : string -> prog A) : forall w,
  run handler (try_catch p h) w
  = let '(calls, result, w') := run handler p w in
    match result with
    | inr a => (calls, inr a, w')
    | inl e =>
        let '(calls', result', w'') := run handler (h e) w' in
        (calls ++ calls', result', w'')
    end.
Proof.
  induction p as [a | e | c k IH]; intros w; simpl.
  - reflexivity.
  - destruct (run handler (h e) w) as [[calls result] w']. reflexivity.
  - destruct (handler c w) as [x w1]. rewrite IH.
    destruct (run handler (k x) w1) as [[calls result] w2].
    destruct result as [e|a]; [|reflexivity].
    destruct (run handler (h e) w2) as [[calls' result'] w3]. reflexivity.
Qed.

Lemma all_calls_run {A} (P : request -> Prop) (p : prog A) :
  all_calls P p -> forall w, Forall P (calls_of handler p w).
Proof.
  unfold calls_of. induction p as [a | e | c k IH]; intros H w; simpl.
  - constructor.
  - constructor.
  - destruct H as [Hc Hk]. destruct (handler c w) as [x w1].
    specialize (IH x (Hk x) w1).
    destruct (run handler (k x) w1) as [[calls result] w2]. simpl in *.
    now constructor.
Qed.

Lemma awaitAll_fetchDomains_run b : forall urls w,
  exists sets w',
    run handler (awaitAll (fun url => fetchDomains url b) urls) w
    = (map Fetch urls, inr sets, w') /\
    Forall (Forall (fun d => isValidDomain d = true)) sets.
Proof.
  induction urls as [|url urls IH]; intros w.
  - exists [], w. split; [reflexivity | constructor].
  - cbn [awaitAll map]. rewrite run_bind.
    destruct (fetchDomains_run handler url b w) as (l & -> & _ & Hl).
    rewrite run_bind.
    destruct (IH (snd (handler (Fetch url) w))) as (sets & w' & -> & Hsets).
    exists (l :: sets), w'. simpl. split; [now rewrite app_nil_r | now constructor].
Qed.

End MoreRunFacts.

Lemma all_calls_bind {A B} (P : request -> Prop) (p : prog A) (f : A -> prog B) :
  all_calls P p -> (forall a, all_calls P (f a)) -> all_calls P (p ≫= f).
Proof.
  intros Hp Hf. rewrite bind_unfold.
  induction p as [a | e | c k IH]; simpl; [apply Hf | exact I |].
  destruct Hp as [Hc Hk]. split; [exact Hc | intros x; apply IH, Hk].
Qed.

Lemma all_calls_try_catch {A} (P : request -> Prop) (p : prog A) h :
  all_calls P p -> (forall e, all_calls P (h e)) -> all_calls P (try_catch p h).
Proof.
  intros Hp Hh.
  induction p as [a | e | c k IH]; simpl; [exact I | apply Hh |].
  destruct Hp as [Hc Hk]. split; [exact Hc | intros x; apply IH, Hk].
Qed.

Lemma all_calls_forEach {A} (P : request -> Prop) (f : A -> prog unit) l :
  (forall x, all_calls P (f x)) -> all_calls P (forEach f l).
Proof.
  intros Hf. induction l as [|x l IH]; simpl; [exact I|].
  apply all_calls_bind; [apply Hf | intros _; exact IH].
Qed.

Lemma fetch_only_all_calls {A} (P : request -> Prop) (p : prog A) :
  (forall url, P (Fetch url)) -> fetch_only p -> all_calls P p.
Proof. intros HP. induction 1; simpl; auto. Qed.

(** X11: [fetchAndProcessUrls] fetches every URL of its list once, in
    order, and nothing else; whatever the answers, it returns (it never
    throws) a list of distinct valid domains. *)
Theorem downloads_fetch_each_url_once
    {W : Type} (handler : forall c : request, W -> answer c * W) (w : W)
    (urlList : list string) (isAllowlist : bool) :
  exists domainsFound w',
    run handler (fetchAndProcessUrls urlList isAllowlist) w
    = (map Fetch urlList, inr domainsFound, w') /\
    NoDup domainsFound /\
    Forall (fun d => isValidDomain d = true) domainsFound.
Proof.
  unfold fetchAndProcessUrls. rewrite run_bind.
  destruct (awaitAll_fetchDomains_run handler isAllowlist urlList w)
    as (sets & w' & -> & Hsets).
  exists (new_Set (concat sets)), w'. simpl.
  split; [now rewrite app_nil_r|]. split; [apply NoDup_new_Set|].
  apply Forall_new_Set. now apply Forall_concat.
Qed.

(** ** The environment and the end of the script *)

Lemma validateEnvironment_complete env :
  env_missing env "CLOUDFLARE_API_TOKEN" = false ->
  env_missing env "CLOUDFLARE_ACCOUNT_ID" = false ->
  env_missing env "ALLOWLIST_URLS" = false \/ env_missing env "BLOCKLIST_URLS" = false ->
  validateEnvironment env = Ret tt.
Proof.
  intros H1 H2 H3. unfold validateEnvironment. simpl. rewrite H1, H2. simpl.
  destruct H3 as [-> | ->]; [reflexivity | now rewrite andb_false_r].
Qed.

Lemma validateEnvironment_incomplete env :
  env_missing env "CLOUDFLARE_API_TOKEN" = true \/
  env_missing env "CLOUDFLARE_ACCOUNT_ID" = true \/
  (env_missing env "ALLOWLIST_URLS" = true /\ env_missing env "BLOCKLIST_URLS" = true) ->
  exists message, validateEnvironment env = Throw message.
Proof.
  intros H. unfold validateEnvironment. simpl.
  destruct (env_missing env "CLOUDFLARE_API_TOKEN") eqn:E1;
    destruct (env_missing env "CLOUDFLARE_ACCOUNT_ID") eqn:E2; simpl;
    try (eexists; reflexivity).
  destruct H as [H|[H|[-> ->]]]; try discriminate.
  simpl. eexists; reflexivity.
Qed.

(** X12: when [CLOUDFLARE_API_TOKEN] or [CLOUDFLARE_ACCOUNT_ID] is
    missing, or both [ALLOWLIST_URLS] and [BLOCKLIST_URLS] are,
    [processLists] throws before it makes any call, and the script sends
    the failure notification, its only call, and exits with status 1. *)
Theorem incomplete_environment_stops_before_any_download
    (K : Constants) (env : gmap string string)
    {W : Type} (handler : forall c : request, W -> answer c * W) (w : W) :
  env_missing env "CLOUDFLARE_API_TOKEN" = true \/
  env_missing env "CLOUDFLARE_ACCOUNT_ID" = true \/
  (env_missing env "ALLOWLIST_URLS" = true /\ env_missing env "BLOCKLIST_URLS" = true) ->
  exists message,
    run handler (processLists K env) w = ([], inl message, w) /\
    run handler (main K env) w
    = ([Telegram (UpdateFailed message) true], inr 1,
       snd (handler (Telegram (UpdateFailed message) true) w)).
Proof.
  intros H. destruct (validateEnvironment_incomplete env H) as (message & E).
  exists message.
  assert (processLists K env = Throw message) as Hp.
  { unfold processLists. now rewrite E. }
  split; [now rewrite Hp|].
  unfold main. rewrite run_try_catch, Hp. simpl.
  destruct (handler (Telegram (UpdateFailed message) true) w) as [[] w1].
  reflexivity.
Qed.

Lemma incomplete_environment_stops_before_any_download_witness :
  run (Example.gateway Example.feeds) (main Example.constants ∅) Example.empty_account
  = ([Telegram
        (UpdateFailed
           "Missing required environment variables: CLOUDFLARE_API_TOKEN, CLOUDFLARE_ACCOUNT_ID")
        true], inr 1, Example.empty_account).
Proof.
  destruct (incomplete_environment_stops_before_any_download
              Example.constants ∅ (Example.gateway Example.feeds) Example.empty_account)
    as (message & Hp & Hm).
  - left. vm_compute. reflexivity.
  - vm_compute in Hp. injection Hp as <-. exact Hm.
Defined.

Lemma returns_only_bind {A B} (Q : A -> Prop) (R : B -> Prop)
    (p : prog A) (f : A -> prog B) :
  returns_only Q p -> (forall a, Q a -> returns_only R (f a)) ->
  returns_only R (p ≫= f).
Proof.
  intros Hp Hf. rewrite bind_unfold.
  induction p as [a | e | c k IH]; simpl; [now apply Hf | exact I |].
  intros x. apply IH, Hp.
Qed.

Lemma all_calls_bind_post {A B} (P : request -> Prop) (Q : A -> Prop)
    (p : prog A) (f : A -> prog B) :
  all_calls P p -> returns_only Q p -> (forall a, Q a -> all_calls P (f a)) ->
  all_calls P (p ≫= f).
Proof.
  intros Hp Hq Hf. rewrite bind_unfold.
  induction p as [a | e | c k IH]; simpl; [now apply Hf | exact I |].
  destruct Hp as [Hc Hk]. split; [exact Hc|]. intros x. apply IH; [apply Hk | apply Hq].
Qed.

Lemma fetchDomains_returns_valid url b :
  returns_only (Forall (fun d => isValidDomain d = true)) (fetchDomains url b).
Proof.
  unfold fetchDomains, fetch, await. rewrite !bind_unfold. simpl.
  intros [message|response]; simpl; [constructor|].
  destruct (ok response); simpl; [apply parseDomains_valid | constructor].
Qed.

Lemma awaitAll_returns_valid b urls :
  returns_only (Forall (Forall (fun d => isValidDomain d = true)))
    (awaitAll (fun url => fetchDomains url b) urls).
Proof.
  induction urls as [|url urls IH]; [constructor|].
  cbn [awaitAll].
  eapply returns_only_bind; [apply fetchDomains_returns_valid|]. intros l Hl.
  eapply returns_only_bind; [exact IH|]. intros sets Hsets.
  simpl. now constructor.
Qed.

Lemma fetchAndProcessUrls_returns_valid urls b :
  returns_only (Forall (fun d => isValidDomain d = true)) (fetchAndProcessUrls urls b).
Proof.
  unfold fetchAndProcessUrls.
  eapply returns_only_bind; [apply awaitAll_returns_valid|]. intros sets Hsets.
  simpl. apply Forall_new_Set. now apply Forall_concat.
Qed.

Lemma fetchLists_returns_valid K :
  returns_only
    (fun lists => Forall (fun d => isValidDomain d = true) (fst lists) /\
                  Forall (fun d => isValidDomain d = true) (snd lists))
    (fetchLists K).
Proof.
  unfold fetchLists.
  eapply returns_only_bind; [apply fetchAndProcessUrls_returns_valid|].
  intros allowlist Ha.
  eapply returns_only_bind; [apply fetchAndProcessUrls_returns_valid|].
  intros raw Hr. simpl. now split.
Qed.

Lemma prefix_app p s : String.prefix p (p +:+ s) = true.
Proof.
  induction p as [|a p IH]; [destruct s; reflexivity|].
  rewrite str_app_cons. simpl. destruct (ascii_dec a a); [exact IH | congruence].
Qed.

Lemma createLists_well_formed items :
  Forall (fun d => isValidDomain d = true) items ->
  forall fuel i n, all_calls well_formed_request (createLists fuel items i n).
Proof.
  intros Hv. induction fuel as [|fuel IH]; intros i n; [exact I|].
  cbn [createLists]. destruct (Nat.ltb i (length items)) eqn:E; [|exact I].
  apply Nat.ltb_lt in E.
  apply all_calls_bind; [|intros _; apply IH].
  unfold createZeroTrustList, requestGateway, await. rewrite bind_unfold. simpl.
  split; [|intros [e|[]]; exact I].
  split; [|split].
  - unfold is_cgps_list, JS.startsWith. simpl list_name.
    change "CGPS List - Chunk " with ("CGPS List" +:+ " - Chunk ").
    rewrite str_app_assoc. apply prefix_app.
  - rewrite length_take, length_drop. change (Z.to_nat LIST_ITEM_SIZE) with 1000. lia.
  - apply Forall_take, Forall_drop, Hv.
Qed.

Lemma upsertZeroTrustRule_well_formed debug expr name filters :
  is_cgps_rule (mkRule "" name) = true ->
  all_calls well_formed_request (upsertZeroTrustRule debug expr name filters).
Proof.
  intros Hname. unfold upsertZeroTrustRule, getZeroTrustRules, requestGateway, await.
  rewrite !bind_unfold. simpl. split; [exact I|].
  intros [e|[rules|]]; simpl; try exact I.
  destruct (List.find _ rules) as [rule|]; simpl.
  - split; [exact Hname|]. intros [e|[]]; exact I.
  - destruct debug; simpl; [exact I|].
    split; [exact Hname|]. intros [e|[]]; exact I.
Qed.

Lemma synchronise_well_formed K n r :
  Forall (fun d => isValidDomain d = true) (domains r) ->
  all_calls well_formed_request (synchronise K n r).
Proof.
  intros Hv. unfold synchronise.
  apply all_calls_bind; [split; [exact I | intros x; exact I]|]. intros rules.
  apply all_calls_bind; [split; [exact I | intros x; exact I]|]. intros lists.
  destruct rules as [e|existingRules]; [exact I|].
  destruct lists as [e|existingLists]; [exact I|].
  apply all_calls_bind.
  { apply all_calls_forEach. intros rule.
    unfold deleteZeroTrustRule, requestGateway, await. rewrite bind_unfold. simpl.
    split; [exact I|]. intros [e|[]]; exact I. }
  intros _. apply all_calls_bind.
  { destruct (Nat.eqb _ 0); [exact I|].
    unfold deleteZeroTrustListsOneByOne. destruct (Nat.eqb _ 0); [exact I|].
    apply all_calls_forEach. intros l.
    unfold deleteZeroTrustList, requestGateway, await. rewrite bind_unfold. simpl.
    split; [exact I|]. intros [e|[]]; exact I. }
  intros _. apply all_calls_bind.
  { now apply createLists_well_formed. }
  intros _. apply all_calls_bind.
  { unfold getZeroTrustLists, requestGateway, await. rewrite bind_unfold. simpl.
    split; [exact I|]. intros [e|x]; exact I. }
  intros [lists|]; [|exact I].
  apply all_calls_bind; [now apply upsertZeroTrustRule_well_formed|].
  intros _. apply all_calls_bind.
  { destruct (BLOCK_BASED_ON_SNI K); [|exact I].
    now apply upsertZeroTrustRule_well_formed. }
  intros _. simpl. split; [exact I | intros x; exact I].
Qed.

(** X14: whatever the feeds and the gateway answer, every list the
    script asks to create has a name starting with [CGPS List] and holds
    1 to 1000 valid domains, and every rule it creates or updates bears
    one of the two names its clean-up deletes. *)
Theorem script_only_creates_what_it_can_clean_up
    (K : Constants) (env : gmap string string)
    {W : Type} (handler : forall c : request, W -> answer c * W) (w : W) :
  Forall well_formed_request (calls_of handler (main K env) w).
Proof.
  apply all_calls_run. unfold main.
  apply all_calls_try_catch; [|intros e; simpl; split; [exact I | intros x; exact I]].
  apply all_calls_bind; [|intros a; exact I].
  unfold processLists.
  apply all_calls_bind; [|intros _].
  { unfold validateEnvironment.
    destruct (Nat.ltb _ _); [exact I|]. destruct (_ && _); exact I. }
  eapply all_calls_bind_post.
  - apply fetch_only_all_calls; [intros url; exact I | apply fetchLists_fetch_only].
  - apply fetchLists_returns_valid.
  - intros [allowlist raw] [_ Hraw]. cbn [fst snd] in *.
    destruct (Nat.eqb _ 0); [exact I|].
    apply synchronise_well_formed.
    destruct (reconcile_from_sublist (LIST_ITEM_LIMIT K) (list_to_set allowlist) raw
                (mkReconciled (mkStats 0 0 0) ∅ [])) as (pushed & E & Hs & _).
    unfold reconcile. rewrite E. simpl.
    rewrite List.Forall_forall in Hraw |- *. intros x Hx. apply Hraw.
    apply list_elem_of_In. eapply elem_of_sublist; [|exact Hs].
    now apply list_elem_of_In.
Qed.

(** ** The loops of [lib/api.js] *)


Lemma one_more_chunk (remaining : nat) :
  0 < remaining ->
  ((Z.of_nat remaining + LIST_ITEM_SIZE - 1) / LIST_ITEM_SIZE
   = 1 + (Z.of_nat (remaining - 1000) + LIST_ITEM_SIZE - 1) / LIST_ITEM_SIZE)%Z.
Proof.
  intros Hpos. unfold LIST_ITEM_SIZE.
  destruct (Nat.lt_ge_cases remaining 1000) as [Hsmall|Hbig].
  - replace (remaining - 1000) with 0 by lia.
    change ((Z.of_nat 0 + 1000 - 1) / 1000)%Z with 0%Z.
    symmetry. apply (Z.div_unique_pos _ 1000 _ (Z.of_nat remaining - 1)); lia.
  - replace (Z.of_nat remaining + 1000 - 1)%Z
      with (Z.of_nat (remaining - 1000) + 1000 - 1 + 1 * 1000)%Z by lia.
    rewrite Z.div_add by lia. lia.
Qed.

Section ApiRuns.
Context {W : Type}.
Variable handler : forall c : request, W -> answer c * W.

Lemma run_createZeroTrustList name chunk (rest : prog unit) w :
  run handler
      (try_catch (createZeroTrustList name chunk) (fun err => Throw err) ;; rest) w
  = match fst (handler (CreateList name chunk) w) with
    | Rejected e =>
        ([CreateList name chunk], inl e, snd (handler (CreateList name chunk) w))
    | Resolved _ =>
        let '(calls, result, w') :=
          run handler rest (snd (handler (CreateList name chunk) w)) in
        (CreateList name chunk :: calls, result, w')
    end.
Proof.
  rewrite run_bind. unfold createZeroTrustList, requestGateway, await.
  rewrite bind_unfold. simpl.
  destruct (handler (CreateList name chunk) w) as [[e|[]] w1]; simpl; [reflexivity|].
  destruct (run handler rest w1) as [[calls result] w2]. reflexivity.
Qed.

Lemma run_deleteZeroTrustList id (rest : prog unit) w :
  run handler
      (try_catch (deleteZeroTrustList id) (fun error => Throw error) ;; rest) w
  = match fst (handler (DeleteList id) w) with
    | Rejected e => ([DeleteList id], inl e, snd (handler (DeleteList id) w))
    | Resolved _ =>
        let '(calls, result, w') :=
          run handler rest (snd (handler (DeleteList id) w)) in
        (DeleteList id :: calls, result, w')
    end.
Proof.
  rewrite run_bind. unfold deleteZeroTrustList, requestGateway, await.
  rewrite bind_unfold. simpl.
  destruct (handler (DeleteList id) w) as [[e|[]] w1]; simpl; [reflexivity|].
  destruct (run handler rest w1) as [[calls result] w2]. reflexivity.
Qed.

Hypothesis creates_resolve :
  forall name chunk w, fst (handler (CreateList name chunk) w) = Resolved tt.

Lemma createLists_chunks items : forall fuel i n w,
  length items - i <= fuel ->
  exists chunks w',
    run handler (createLists fuel items i n) w
    = (imap (fun j chunk => CreateList (chunk_name (n + j)) chunk) chunks,
       inr tt, w') /\
    concat chunks = drop i items /\
    Forall (fun chunk => 1 <= length chunk <= 1000) chunks /\
    (forall j chunk, chunks !! j = Some chunk -> S j < length chunks ->
                     length chunk = 1000) /\
    Z.of_nat (length chunks)
    = ((Z.of_nat (length items - i) + LIST_ITEM_SIZE - 1) / LIST_ITEM_SIZE)%Z.
Proof.
  induction fuel as [|fuel IH]; intros i n w Hfuel.
  - exists [], w. simpl. rewrite drop_ge by lia.
    replace (length items - i) with 0 by lia.
    repeat split; [constructor | intros j chunk Hj; discriminate Hj].
  - cbn [createLists]. destruct (Nat.ltb i (length items)) eqn:E.
    2:{ apply Nat.ltb_ge in E. exists [], w. simpl. rewrite drop_ge by lia.
        replace (length items - i) with 0 by lia.
        repeat split; [constructor | intros j chunk Hj; discriminate Hj]. }
    apply Nat.ltb_lt in E. cbv zeta.
    change (Z.to_nat LIST_ITEM_SIZE) with 1000.
    fold (chunk_name n).
    rewrite run_createZeroTrustList, creates_resolve.
    set (chunk := take 1000 (drop i items)).
    destruct (IH (i + 1000) (S n) (snd (handler (CreateList (chunk_name n) chunk) w)))
      as (chunks & w' & -> & Hcat & Hsize & Hfull & Hcount); [lia|].
    exists (chunk :: chunks), w'.
    assert (length chunk = Nat.min 1000 (length items - i)) as Hlen
      by (unfold chunk; now rewrite length_take, length_drop).
    split; [|split; [|split; [|split]]].
    + simpl. rewrite Nat.add_0_r. do 3 f_equal.
      apply imap_ext. intros j c _. simpl. do 2 f_equal. lia.
    + simpl. rewrite Hcat. unfold chunk. rewrite <- drop_drop. apply take_drop.
    + constructor; [lia | exact Hsize].
    + intros [|j] c Hj Hlast.
      * injection Hj as <-.
        destruct chunks as [|c' chunks]; [simpl in Hlast; lia|].
        assert (1 <= length (drop (i + 1000) items)) as Hmore.
        { rewrite <- Hcat. simpl. rewrite length_app.
          inversion Hsize; subst. lia. }
        rewrite length_drop in Hmore. rewrite Hlen. lia.
      * apply (Hfull j c Hj). simpl in Hlast. lia.
    + simpl length. rewrite Nat2Z.inj_succ, Hcount.
      rewrite (one_more_chunk (length items - i)) by lia.
      replace (length items - (i + 1000)) with (length items - i - 1000) by lia.
      lia.
Qed.

End ApiRuns.

(** X15: when every creation succeeds,
    [createZeroTrustListsOneByOne] posts the lists [CGPS List - Chunk 1],
    [2], ... in order; their items, put end to end, are the items given;
    every list but the last holds 1000 items, the last 1 to 1000; and
    there are [Math.ceil(items.length / 1000)] of them. *)
Theorem created_lists_partition_the_domains
    {W : Type} (handler : forall c : request, W -> answer c * W) (w : W)
    (items : list string) :
  (forall name chunk w, fst (handler (CreateList name chunk) w) = Resolved tt) ->
  exists chunks w',
    run handler (createZeroTrustListsOneByOne items) w
    = (imap (fun j chunk => CreateList ("CGPS List - Chunk " +:+ pretty (S j)) chunk)
            chunks,
       inr tt, w') /\
    concat chunks = items /\
    Forall (fun chunk => 1 <= length chunk <= 1000) chunks /\
    (forall j chunk, chunks !! j = Some chunk -> S j < length chunks ->
                     length chunk = 1000) /\
    length chunks = numberOfLists (length items).
Proof.
  intros Hok. unfold createZeroTrustListsOneByOne.
  destruct (createLists_chunks handler Hok items (length items) 0 1 w)
    as (chunks & w' & Hrun & Hcat & Hsize & Hfull & Hcount); [lia|].
  exists chunks, w'. split; [exact Hrun|].
  split; [now rewrite Hcat, drop_0|]. split; [exact Hsize|]. split; [exact Hfull|].
  unfold numberOfLists. rewrite Nat.sub_0_r in Hcount. rewrite <- Hcount.
  now rewrite Nat2Z.id.
Qed.

Lemma created_lists_partition_the_domains_witness :
  exists chunks,
    calls_of (Example.gateway Example.feeds)
             (createZeroTrustListsOneByOne ["a.com"; "b.com"]) Example.empty_account
    = imap (fun j chunk => CreateList ("CGPS List - Chunk " +:+ pretty (S j)) chunk)
           chunks /\
    concat chunks = ["a.com"; "b.com"].
Proof.
  destruct (created_lists_partition_the_domains
              (Example.gateway Example.feeds) Example.empty_account ["a.com"; "b.com"])
    as (chunks & w' & Hrun & Hcat & _).
  - intros name chunk w. reflexivity.
  - exists chunks. unfold calls_of. rewrite Hrun. split; [reflexivity | exact Hcat].
Defined.

Section DeleteRuns.
Context {W : Type}.
Variable handler : forall c : request, W -> answer c * W.
Hypothesis deletes_resolve :
  forall id w, fst (handler (DeleteList id) w) = Resolved tt.

Lemma forEach_delete_all lists : forall w,
  exists w',
    run handler
        (forEach (fun l => try_catch (deleteZeroTrustList (list_id l))
                                     (fun error => Throw error)) lists) w
    = (map (fun l => DeleteList (list_id l)) lists, inr tt, w').
Proof.
  induction lists as [|l lists IH]; intros w.
  - exists w. reflexivity.
  - cbn [forEach map]. rewrite run_deleteZeroTrustList, deletes_resolve.
    destruct (IH (snd (handler (DeleteList (list_id l)) w))) as (w' & ->).
    exists w'. reflexivity.
Qed.
End DeleteRuns.

(** X16: when every deletion succeeds,
    [deleteZeroTrustListsOneByOne] deletes each list it is given once, in
    the order given, and returns. *)
Theorem every_listed_list_is_deleted_in_order
    {W : Type} (handler : forall c : request, W -> answer c * W) (w : W)
    (lists : list ZeroTrustList) :
  (forall id w, fst (handler (DeleteList id) w) = Resolved tt) ->
  exists w',
    run handler (deleteZeroTrustListsOneByOne lists) w
    = (map (fun l => DeleteList (list_id l)) lists, inr tt, w').
Proof.
  intros Hok. unfold deleteZeroTrustListsOneByOne.
  destruct lists as [|l lists].
  - exists w. reflexivity.
  - cbn [length Nat.eqb]. now apply forEach_delete_all.
Qed.

Lemma every_listed_list_is_deleted_in_order_witness :
  exists w',
    run (Example.gateway Example.feeds)
        (deleteZeroTrustListsOneByOne [mkList "7" "CGPS List - Chunk 1";
                                       mkList "8" "CGPS List - Chunk 2"])
        Example.empty_account
    = ([DeleteList "7"; DeleteList "8"], inr tt, w').
Proof.
  apply (every_listed_list_is_deleted_in_order
           (Example.gateway Example.feeds) Example.empty_account
           [mkList "7" "CGPS List - Chunk 1"; mkList "8" "CGPS List - Chunk 2"]).
  intros id w. reflexivity.
Defined.

(** ** [upsertZeroTrustRule] *)

(** X17: when the rules can be listed, [upsertZeroTrustRule] lists them
    and then makes at most one more call: it updates the first rule that
    bears the name if there is one, and creates a rule otherwise, unless
    [DEBUG] is set; with [DEBUG] set and no rule of that name it throws a
    [TypeError] after the listing. *)
Theorem upsert_updates_the_first_rule_of_that_name
    {W : Type} (handler : forall c : request, W -> answer c * W) (w : W)
    (debug : bool) (expression name : string) (filters : list string)
    (existingRules : list ZeroTrustRule) :
  fst (handler GetRules w) = Resolved (Some existingRules) ->
  let payload := mkPayload name filters expression in
  let found := List.find (fun rule => String.eqb (rule_name rule) name) existingRules in
  calls_of handler (upsertZeroTrustRule debug expression name filters) w
  = GetRules ::
    match found with
    | Some rule => [UpdateRule (rule_id rule) payload]
    | None => if debug then [] else [CreateRule payload]
    end /\
  (found = None -> debug = true ->
   result_of handler (upsertZeroTrustRule debug expression name filters) w
   = inl TypeError).
Proof.
  intros Hrules payload found.
  unfold calls_of, result_of, upsertZeroTrustRule, getZeroTrustRules,
    requestGateway, await.
  rewrite !bind_unfold. simpl.
  destruct (handler GetRules w) as [x w1]. simpl in Hrules. subst x. simpl.
  fold found. destruct found as [rule|].
  - unfold updateZeroTrustRule, requestGateway, await, buildRulePayload.
    rewrite bind_unfold. simpl. fold payload.
    destruct (handler (UpdateRule (rule_id rule) payload) w1) as [[e|[]] w2];
      simpl; split; try reflexivity; discriminate.
  - destruct debug; simpl.
    + split; reflexivity.
    + unfold createZeroTrustRule, requestGateway, await, buildRulePayload.
      rewrite ?bind_unfold. simpl. fold payload.
      destruct (handler (CreateRule payload) w1) as [[e|[]] w2];
        simpl; split; try reflexivity; discriminate.
Qed.

Lemma upsert_updates_the_first_rule_of_that_name_witness :
  calls_of (Example.gateway Example.feeds)
           (upsertZeroTrustRule false "expr" "CGPS Filter Lists" ["dns"])
           (Example.mkAccount [] [mkRule "3" "Other"; mkRule "4" "CGPS Filter Lists"] 10)
  = [GetRules; UpdateRule "4" (mkPayload "CGPS Filter Lists" ["dns"] "expr")].
Proof.
  destruct (upsert_updates_the_first_rule_of_that_name
              (Example.gateway Example.feeds)
              (Example.mkAccount [] [mkRule "3" "Other"; mkRule "4" "CGPS Filter Lists"] 10)
              false "expr" "CGPS Filter Lists" ["dns"]
              [mkRule "3" "Other"; mkRule "4" "CGPS Filter Lists"]) as [H _].
  - reflexivity.
  - exact H.
Defined.

(** ** Listing the remote account *)

(** X18: when listing the rules or listing the lists is rejected,
    [processLists] throws one of the rejections and has sent no request
    that changes the account: nothing was deleted or created. *)
Theorem failed_listing_changes_nothing
    (K : Constants)
    {W : Type} (handler : forall c : request, W -> answer c * W) (w : W)
    (allowlistSize : nat) (r : Reconciled) :
  (exists error, fst (handler GetRules w) = Rejected error) \/
  (exists error,
      fst (handler GetLists (snd (handler GetRules w))) = Rejected error) ->
  Forall (fun c => mutates c = false)
         (calls_of handler (synchronise K allowlistSize r) w) /\
  exists error,
    result_of handler (synchronise K allowlistSize r) w = inl error /\
    (fst (handler GetRules w) = Rejected error \/
     fst (handler GetLists (snd (handler GetRules w))) = Rejected error).
Proof.
  intros H. unfold calls_of, result_of, synchronise, await.
  rewrite !bind_unfold. simpl.
  destruct (handler GetRules w) as [rules w1]. simpl in *.
  destruct (handler GetLists w1) as [lists w2]. simpl in *.
  destruct rules as [e1|rules].
  - split; [repeat constructor|]. exists e1. split; [|now left].
    now destruct lists.
  - destruct lists as [e2|lists].
    + split; [repeat constructor|]. exists e2. split; [reflexivity | now right].
    + destruct H as [[e H]|[e H]]; discriminate H.
Qed.

Lemma failed_listing_changes_nothing_witness :
  Forall (fun c => mutates c = false)
    (calls_of (fun c (w : unit) =>
                 (match c as c0 return answer c0 with
                  | Fetch _ => NetworkError "offline"
                  | GetLists => Rejected "offline"
                  | GetRules => Resolved None
                  | Telegram _ _ => tt
                  | _ => Resolved tt
                  end, w))
              (synchronise Example.constants 0 (reconcile 300000 ∅ ["a.com"])) tt).
Proof.
  apply (failed_listing_changes_nothing Example.constants
           (fun c (w : unit) =>
              (match c as c0 return answer c0 with
               | Fetch _ => NetworkError "offline"
               | GetLists => Rejected "offline"
               | GetRules => Resolved None
               | Telegram _ _ => tt
               | _ => Resolved tt
               end, w))
           tt 0 (reconcile 300000 ∅ ["a.com"])).
  right. exists "offline". reflexivity.
Defined.

Section FailingRuns.
Context {W : Type}.
Variable handler : forall c : request, W -> answer c * W.

Lemma forEach_delete_fails (before : list ZeroTrustList) l after error :
  (forall l' w, l' ∈ before ->
                fst (handler (DeleteList (list_id l')) w) = Resolved tt) ->
  (forall w, fst (handler (DeleteList (list_id l)) w) = Rejected error) ->
  forall w, exists w',
    run handler
        (forEach (fun l => try_catch (deleteZeroTrustList (list_id l))
                                     (fun error => Throw error))
                 (before ++ l :: after)) w
    = (map (fun l => DeleteList (list_id l)) (before ++ [l]), inl error, w').
Proof.
  intros Hbefore Hl. induction before as [|l0 before IH]; intros w.
  - cbn [app forEach map]. rewrite run_deleteZeroTrustList, Hl. eauto.
  - cbn [app forEach map]. rewrite run_deleteZeroTrustList.
    rewrite Hbefore by apply list_elem_of_here.
    destruct (IH (fun l' w Hin => Hbefore l' w (list_elem_of_further _ _ _ Hin))
                 (snd (handler (DeleteList (list_id l0)) w))) as (w' & ->).
    eauto.
Qed.

Lemma createLists_fails items k error :
  (forall n chunk w, n < k ->
     fst (handler (CreateList (chunk_name n) chunk) w) = Resolved tt) ->
  (forall chunk w,
     fst (handler (CreateList (chunk_name k) chunk) w) = Rejected error) ->
  forall fuel i n w,
    length items - i <= fuel -> n <= k -> (k - n) * 1000 < length items - i ->
    exists w',
      run handler (createLists fuel items i n) w
      = (map (fun j => CreateList (chunk_name (n + j))
                                  (take 1000 (drop (i + j * 1000) items)))
             (seq 0 (S (k - n))),
         inl error, w').
Proof.
  intros Hok Hfail. induction fuel as [|fuel IH]; intros i n w Hfuel Hn Hlong; [lia|].
  cbn [createLists].
  destruct (Nat.ltb i (length items)) eqn:E; [|apply Nat.ltb_ge in E; lia].
  cbv zeta. change (Z.to_nat LIST_ITEM_SIZE) with 1000. fold (chunk_name n).
  rewrite run_createZeroTrustList.
  destruct (decide (n = k)) as [->|Hne].
  - rewrite Hfail. eexists. replace (k - k) with 0 by lia.
    cbn [seq map]. now rewrite !Nat.add_0_r.
  - rewrite Hok by lia.
    destruct (IH (i + 1000) (S n)
                 (snd (handler (CreateList (chunk_name n) (take 1000 (drop i items))) w)))
      as (w' & ->); [lia | lia | lia |].
    exists w'. replace (S (k - n)) with (S (S (k - S n))) by lia.
    generalize (S (k - S n)). intros m.
    change (seq 0 (S m)) with (0 :: seq 1 m). rewrite <- seq_shift.
    cbn [map]. rewrite map_map.
    assert (forall a b c d, a = c -> b = d ->
              CreateList (chunk_name a) (take 1000 (drop b items))
              = CreateList (chunk_name c) (take 1000 (drop d items))) as Hsame
      by (intros a b c d -> ->; reflexivity).
    match goal with |- (?a, _, _) = (?b, _, _) => assert (a = b) as -> end;
      [|reflexivity].
    f_equal; [apply Hsame; lia | apply map_ext; intros j; apply Hsame; lia].
Qed.
End FailingRuns.

(** X19: when a deletion is rejected after the ones before it
    succeeded, [deleteZeroTrustListsOneByOne] throws its error; the lists
    before it and the list itself were requested to be deleted, and no
    other request that changes the account was sent. *)
Theorem deletion_stops_at_the_first_failure
    {W : Type} (handler : forall c : request, W -> answer c * W) (w : W)
    (before : list ZeroTrustList) (l : ZeroTrustList) (after : list ZeroTrustList)
    (error : string) :
  (forall l' w, l' ∈ before ->
                fst (handler (DeleteList (list_id l')) w) = Resolved tt) ->
  (forall w, fst (handler (DeleteList (list_id l)) w) = Rejected error) ->
  result_of handler (deleteZeroTrustListsOneByOne (before ++ l :: after)) w
  = inl error /\
  (forall l', l' ∈ before ++ [l] ->
     DeleteList (list_id l')
     ∈ calls_of handler (deleteZeroTrustListsOneByOne (before ++ l :: after)) w) /\
  Forall (fun c => mutates c = true ->
                   exists l', l' ∈ before ++ [l] /\ c = DeleteList (list_id l'))
         (calls_of handler (deleteZeroTrustListsOneByOne (before ++ l :: after)) w).
Proof.
  intros Hbefore Hl. unfold result_of, calls_of, deleteZeroTrustListsOneByOne.
  destruct (Nat.eqb (length (before ++ l :: after)) 0) eqn:E.
  { apply Nat.eqb_eq in E. rewrite length_app in E. simpl in E. lia. }
  destruct (forEach_delete_fails handler before l after error Hbefore Hl w)
    as (w' & ->).
  cbn [fst snd]. split; [reflexivity|]. split.
  - intros l' Hin. apply list_elem_of_fmap. now exists l'.
  - apply Forall_forall. intros c Hc _.
    apply list_elem_of_fmap in Hc as (l' & -> & Hin). now exists l'.
Qed.

Lemma deletion_stops_at_the_first_failure_witness :
  result_of
    (fun c (w : unit) =>
       (match c as c0 return answer c0 with
        | Fetch _ => NetworkError "offline"
        | GetLists => Resolved None
        | GetRules => Resolved None
        | Telegram _ _ => tt
        | DeleteList id => if String.eqb id "8" then Rejected "busy" else Resolved tt
        | _ => Resolved tt
        end, w))
    (deleteZeroTrustListsOneByOne
       ([mkList "7" "CGPS List - Chunk 1"] ++
        mkList "8" "CGPS List - Chunk 2" :: [mkList "9" "CGPS List - Chunk 3"])) tt
  = inl "busy".
Proof.
  apply (deletion_stops_at_the_first_failure
           (fun c (w : unit) =>
              (match c as c0 return answer c0 with
               | Fetch _ => NetworkError "offline"
               | GetLists => Resolved None
               | GetRules => Resolved None
               | Telegram _ _ => tt
               | DeleteList id => if String.eqb id "8" then Rejected "busy" else Resolved tt
               | _ => Resolved tt
               end, w))
           tt [mkList "7" "CGPS List - Chunk 1"] (mkList "8" "CGPS List - Chunk 2")
           [mkList "9" "CGPS List - Chunk 3"] "busy").
  - intros l' w Hin. apply list_elem_of_singleton in Hin. subst l'. reflexivity.
  - intros w. reflexivity.
Defined.

(** X20: when the creation of list number [k] is rejected after the
    ones before it succeeded, [createZeroTrustListsOneByOne] throws its
    error; each of the first [k] slices of 1000 items was posted under
    its name, and no other request that changes the account was sent:
    the items from index [1000 k] on are never sent, and the lists
    created before are not removed. *)
Theorem failed_creation_keeps_the_earlier_lists
    {W : Type} (handler : forall c : request, W -> answer c * W) (w : W)
    (items : list string) (k : nat) (error : string) :
  1 <= k -> (k - 1) * 1000 < length items ->
  (forall n chunk w, n < k ->
     fst (handler (CreateList ("CGPS List - Chunk " +:+ pretty n) chunk) w)
     = Resolved tt) ->
  (forall chunk w,
     fst (handler (CreateList ("CGPS List - Chunk " +:+ pretty k) chunk) w)
     = Rejected error) ->
  result_of handler (createZeroTrustListsOneByOne items) w = inl error /\
  (forall j, j < k ->
     CreateList ("CGPS List - Chunk " +:+ pretty (S j))
                (take 1000 (drop (j * 1000) items))
     ∈ calls_of handler (createZeroTrustListsOneByOne items) w) /\
  Forall (fun c => mutates c = true ->
                   exists j, j < k /\
                     c = CreateList ("CGPS List - Chunk " +:+ pretty (S j))
                                    (take 1000 (drop (j * 1000) items)))
         (calls_of handler (createZeroTrustListsOneByOne items) w).
Proof.
  intros Hk Hlong Hok Hfail.
  unfold result_of, calls_of, createZeroTrustListsOneByOne.
  destruct (createLists_fails handler items k error Hok Hfail (length items) 0 1 w)
    as (w' & ->); [lia | lia | lia |].
  cbn [fst snd]. replace (S (k - 1)) with k by lia. split; [reflexivity|]. split.
  - intros j Hj. apply list_elem_of_fmap. exists j.
    split; [reflexivity|]. apply elem_of_seq. lia.
  - apply Forall_forall. intros c Hc _.
    apply list_elem_of_fmap in Hc as (j & -> & Hin). apply elem_of_seq in Hin.
    exists j. split; [lia | reflexivity].
Qed.

Lemma failed_creation_keeps_the_earlier_lists_witness :
  result_of
    (fun c (w : unit) =>
       (match c as c0 return answer c0 with
        | Fetch _ => NetworkError "offline"
        | GetLists => Resolved None
        | GetRules => Resolved None
        | Telegram _ _ => tt
        | CreateList name _ =>
            if String.eqb name "CGPS List - Chunk 2"
            then Rejected "quota" else Resolved tt
        | _ => Resolved tt
        end, w))
    (createZeroTrustListsOneByOne (replicate 1001 "a.com")) tt
  = inl "quota".
Proof.
  apply (failed_creation_keeps_the_earlier_lists
           (fun c (w : unit) =>
              (match c as c0 return answer c0 with
               | Fetch _ => NetworkError "offline"
               | GetLists => Resolved None
               | GetRules => Resolved None
               | Telegram _ _ => tt
               | CreateList name _ =>
                   if String.eqb name "CGPS List - Chunk 2"
                   then Rejected "quota" else Resolved tt
               | _ => Resolved tt
               end, w))
           tt (replicate 1001 "a.com") 2 "quota").
  - lia.
  - rewrite length_replicate. lia.
  - intros n chunk w Hn. destruct n as [|[|n]]; [reflexivity | reflexivity | lia].
  - intros chunk w. reflexivity.
Defined.

Lemma staged_mono {A} (p : prog A) : forall lo lo',
  lo' <= lo -> staged lo p -> staged lo' p.
Proof.
  induction p as [a | e | c k IH]; intros lo lo' Hle; simpl; [trivial | trivial |].
  intros [Hc Hk]. split; [intros Hm; specialize (Hc Hm); lia|].
  intros x. specialize (Hk x). destruct (mutates c); [exact Hk|].
  now apply (IH x lo lo').
Qed.

Lemma in_stage_bind {A B} s (p : prog A) (f : A -> prog B) lo :
  in_stage s p -> lo <= s -> (forall a, staged s (f a)) -> staged lo (p ≫= f).
Proof.
  intros Hp Hle Hf. rewrite bind_unfold. revert lo Hle.
  induction p as [a | e | c k IH]; intros lo Hle; simpl.
  - apply (staged_mono _ s lo Hle), Hf.
  - exact I.
  - destruct Hp as [Hc Hk]. split; [intros Hm; specialize (Hc Hm); lia|].
    intros x. destruct (mutates c).
    + apply IH; [apply Hk | specialize (Hc eq_refl); lia].
    + apply IH; [apply Hk | exact Hle].
Qed.

Lemma quiet_in_stage {A} s (p : prog A) :
  all_calls (fun c => mutates c = false) p -> in_stage s p.
Proof.
  unfold in_stage. induction p as [a | e | c k IH]; simpl; [trivial | trivial |].
  intros [Hc Hk]. split; [congruence | intros x; apply IH, Hk].
Qed.

Lemma in_stage_staged {A} s (p : prog A) lo :
  in_stage s p -> lo <= s -> staged lo p.
Proof.
  intros Hp Hle. revert lo Hle.
  induction p as [a | e | c k IH]; intros lo Hle; simpl; [trivial | trivial |].
  destruct Hp as [Hc Hk]. split; [intros Hm; specialize (Hc Hm); lia|].
  intros x. destruct (mutates c).
  - apply IH; [apply Hk | specialize (Hc eq_refl); lia].
  - apply IH; [apply Hk | exact Hle].
Qed.

Lemma staged_try_catch_quiet {A} (p : prog A) h : forall lo,
  staged lo p -> (forall e, all_calls (fun c => mutates c = false) (h e)) ->
  staged lo (try_catch p h).
Proof.
  induction p as [a | e | c k IH]; intros lo Hp Hh; simpl.
  - exact I.
  - apply (in_stage_staged lo); [apply quiet_in_stage, Hh | lia].
  - destruct Hp as [Hc Hk]. split; [exact Hc|]. intros x. apply IH; [apply Hk | exact Hh].
Qed.

Section StagedRuns.
Context {W : Type}.
Variable handler : forall c : request, W -> answer c * W.

Lemma staged_run {A} (p : prog A) : forall lo w,
  staged lo p ->
  Forall (fun c => lo <= stage c) (List.filter mutates (calls_of handler p w)) /\
  StronglySorted (fun a b => stage a <= stage b)
                 (List.filter mutates (calls_of handler p w)).
Proof.
  unfold calls_of. induction p as [a | e | c k IH]; intros lo w Hp; simpl.
  - split; constructor.
  - split; constructor.
  - destruct Hp as [Hc Hk]. destruct (handler c w) as [x w1].
    specialize (IH x (if mutates c then stage c else lo) w1 (Hk x)).
    destruct (run handler (k x) w1) as [[calls result] w2]. simpl in *.
    destruct (mutates c) eqn:Em.
    + destruct IH as [Hlo Hsorted]. split.
      * constructor; [auto|]. eapply Forall_impl; [exact Hlo|].
        intros c' Hc'. simpl in Hc'. specialize (Hc eq_refl). lia.
      * constructor; [exact Hsorted | exact Hlo].
    + exact IH.
Qed.
End StagedRuns.

Lemma in_stage_deleteRules rules :
  in_stage 1 (forEach (fun rule => deleteZeroTrustRule (rule_id rule)) rules).
Proof.
  apply all_calls_forEach. intros rule.
  unfold deleteZeroTrustRule, requestGateway, await. rewrite bind_unfold. simpl.
  split; [reflexivity|]. intros [e|[]]; exact I.
Qed.

Lemma in_stage_deleteLists lists :
  in_stage 2 (deleteZeroTrustListsOneByOne lists).
Proof.
  unfold deleteZeroTrustListsOneByOne. destruct (Nat.eqb _ 0); [exact I|].
  apply all_calls_forEach. intros l.
  unfold deleteZeroTrustList, requestGateway, await. rewrite bind_unfold. simpl.
  split; [reflexivity|]. intros [e|[]]; exact I.
Qed.

Lemma in_stage_createLists items : forall fuel i n,
  in_stage 3 (createLists fuel items i n).
Proof.
  induction fuel as [|fuel IH]; intros i n; [exact I|].
  cbn [createLists]. destruct (Nat.ltb i (length items)); [|exact I].
  apply all_calls_bind; [|intros _; apply IH].
  unfold createZeroTrustList, requestGateway, await. rewrite bind_unfold. simpl.
  split; [reflexivity|]. intros [e|[]]; exact I.
Qed.

Lemma in_stage_upsert debug expr name filters :
  in_stage 4 (upsertZeroTrustRule debug expr name filters).
Proof.
  unfold in_stage, upsertZeroTrustRule, getZeroTrustRules, requestGateway, await.
  rewrite !bind_unfold. simpl. split; [discriminate|].
  intros [e|[rules|]]; simpl; try exact I.
  destruct (List.find _ rules) as [rule|]; simpl.
  - split; [reflexivity|]. intros [e|[]]; exact I.
  - destruct debug; simpl; [exact I|].
    split; [reflexivity|]. intros [e|[]]; exact I.
Qed.

Lemma synchronise_staged K n r : staged 0 (synchronise K n r).
Proof.
  unfold synchronise.
  apply (in_stage_bind 0); [split; [discriminate | intros x; exact I] | lia |].
  intros rules.
  apply (in_stage_bind 0); [split; [discriminate | intros x; exact I] | lia |].
  intros lists.
  destruct rules as [e|existingRules]; [exact I|].
  destruct lists as [e|existingLists]; [exact I|].
  apply (in_stage_bind 1); [apply in_stage_deleteRules | lia |]. intros _.
  apply (in_stage_bind 2).
  { destruct (Nat.eqb _ 0); [exact I | apply in_stage_deleteLists]. }
  { lia. }
  intros _.
  apply (in_stage_bind 3); [apply in_stage_createLists | lia |]. intros _.
  apply (in_stage_bind 3).
  { unfold in_stage, getZeroTrustLists, requestGateway, await.
    rewrite bind_unfold. simpl. split; [discriminate|]. intros [e|x]; exact I. }
  { lia. }
  intros [lists|]; [|exact I].
  apply (in_stage_bind 4); [apply in_stage_upsert | lia |]. intros _.
  apply (in_stage_bind 4).
  { destruct (BLOCK_BASED_ON_SNI K); [apply in_stage_upsert | exact I]. }
  { lia. }
  intros _. simpl. split; [discriminate | intros x; exact I].
Qed.

Lemma staged_bind_quiet {A B} (p : prog A) (f : A -> prog B) : forall lo,
  staged lo p -> (forall a, all_calls (fun c => mutates c = false) (f a)) ->
  staged lo (p ≫= f).
Proof.
  rewrite bind_unfold.
  induction p as [a | e | c k IH]; intros lo Hp Hf; simpl.
  - apply (in_stage_staged lo); [apply quiet_in_stage, Hf | lia].
  - exact I.
  - destruct Hp as [Hc Hk]. split; [exact Hc|]. intros x. apply IH; [apply Hk | exact Hf].
Qed.

Lemma processLists_staged K env : staged 0 (processLists K env).
Proof.
  unfold processLists.
  apply (in_stage_bind 0); [|lia|].
  { unfold validateEnvironment.
    repeat match goal with |- context [if ?b then _ else _] => destruct b end;
      exact I. }
  intros _. apply (in_stage_bind 0); [|lia|].
  { apply fetch_only_all_calls; [discriminate | apply fetchLists_fetch_only]. }
  intros lists. cbv zeta. destruct (Nat.eqb _ 0); [exact I|].
  apply synchronise_staged.
Qed.

(** X21: in every run of the script the requests that change the
    account come in this order: rule deletions, then list deletions, then
    list creations, then rule creations and updates. *)
Theorem changes_follow_the_clean_up_order
    (K : Constants) (env : gmap string string)
    {W : Type} (handler : forall c : request, W -> answer c * W) (w : W) :
  StronglySorted (fun earlier later => stage earlier <= stage later)
                 (List.filter mutates (calls_of handler (main K env) w)).
Proof.
  apply (staged_run handler (main K env) 0 w).
  unfold main. apply staged_try_catch_quiet.
  - apply staged_bind_quiet; [apply processLists_staged | intros a; exact I].
  - intros e. simpl. split; [reflexivity | intros x; exact I].
Qed.

Section SecondPass.
Variable limit : Z.
Variable A : gset string.

Lemma processDomain_replays r d :
  replays limit A r -> replays limit A (processDomain limit A r d).
Proof.
  unfold replays. cbv zeta. intros (Hdom & Hsub & Hal & Hdup).
  destruct (processDomain_cases limit A r d) as [ | |HA HB Hnc _|HA HB Hnc Hlim];
    cbn [domains blocklist count_allowed count_duplicate count_processed
         blocklist_add domains_push].
  - auto.
  - auto.
  - repeat split; [exact Hdom | set_solver | exact Hal | exact Hdup].
  - unfold reconcile in *. rewrite reconcile_from_app.
    set (again := reconcile_from limit A _ (domains r)) in *.
    cbn [reconcile_from fold_left]. unfold processDomain.
    rewrite (bool_decide_eq_false_2 _ HA).
    cbn [blocklist count_processed].
    rewrite bool_decide_eq_false_2 by set_solver.
    assert (scanItems A (blocklist again) (drop 1 (extractDomain d)) = None) as ->.
    { apply scanItems_None. intros item Hitem. split.
      - intros Hin. apply Hnc. right. exists item. auto.
      - intros Hin. apply Hnc. right. exists item. split; [exact Hitem|].
        right. now apply Hsub. }
    cbn [domains blocklist_add count_processed]. rewrite Hdom.
    destruct (Z.of_nat (length (domains r)) >? limit - LIST_ITEM_SIZE)%Z eqn:EL;
      [apply Z.gtb_lt in EL; lia|].
    cbn [domains blocklist stats domains_push blocklist_add count_processed
         allowed duplicates].
    rewrite Hdom. repeat split; [now apply union_mono_l | exact Hal | exact Hdup].
Qed.

Lemma reconcile_from_replays l : forall r,
  replays limit A r -> replays limit A (reconcile_from limit A r l).
Proof.
  induction l as [|x l IH]; intros r H; simpl; [exact H|].
  apply IH. now apply processDomain_replays.
Qed.

End SecondPass.

(** X22: the loop run on its own output, with the same allow set and
    limit, gives that output back and counts no allowed and no duplicate
    domain. *)
Theorem second_pass_keeps_the_final_list
    (limit : Z) (allowlist : gset string) (rawBlocklist : list string) :
  let first := reconcile limit allowlist rawBlocklist in
  let second := reconcile limit allowlist (domains first) in
  domains second = domains first /\
  allowed (stats second) = 0 /\ duplicates (stats second) = 0.
Proof.
  cbv zeta.
  destruct (reconcile_from_replays limit allowlist rawBlocklist
              (mkReconciled (mkStats 0 0 0) ∅ [])) as (Hdom & _ & Hal & Hdup).
  - unfold replays. cbn. repeat split. set_solver.
  - fold (reconcile limit allowlist rawBlocklist) in *. auto.
Qed.

Module RetryFacts.
Import Retry.

Lemma count_cons f a l :
  count f (a :: l) = ((if f a then 1 else 0) + count f l)%Z.
Proof. unfold count. simpl. destruct (f a); simpl length; lia. Qed.

Lemma fetchRetry_from_spec answers : forall attempt,
  (attempt < MAX_ATTEMPTS)%Z ->
  let n := snd (fetchRetry_from attempt answers) in
  n <= length answers /\
  match fst (fetchRetry_from attempt answers) with
  | Returned response =>
      exists before,
        take n answers = before ++ [Responded response] /\
        ok response = true /\
        Forall (fun a => succeeds a = false) before
  | LeftLoop => False
  | Failed notification message =>
      Forall (fun a => succeeds a = false) (take n answers) /\
      (attempt + count fails (take n answers)
       = MAX_ATTEMPTS + count rate_limited (take n answers))%Z /\
      notification = "Failed to fetch after 5 attempts: " +:+ message
  | Waiting =>
      n = length answers /\
      Forall (fun a => succeeds a = false) answers /\
      (attempt + count fails answers
       < MAX_ATTEMPTS + count rate_limited answers)%Z
  end.
Proof.
  unfold MAX_ATTEMPTS.
  induction answers as [|a answers IH]; intros attempt Hlt; cbn [fetchRetry_from];
    unfold MAX_ATTEMPTS; rewrite (proj2 (Z.ltb_lt _ _) Hlt).
  - simpl. split; [lia|]. split; [reflexivity|]. split; [constructor|].
    unfold count. simpl. lia.
  - destruct a as [message|response].
    + cbv zeta. destruct (Z.eqb_spec (attempt + 1) 5) as [E|E].
      * cbn [fetched fst snd take length]. split; [lia|].
        rewrite take_0. split; [repeat constructor|]. split.
        -- rewrite count_cons. cbn. unfold count. simpl. lia.
        -- now rewrite E.
      * specialize (IH (attempt + 1)%Z ltac:(lia)). cbv zeta in IH.
        destruct (fetchRetry_from (attempt + 1) answers) as [res n].
        cbn [fetched fst snd take length] in *. destruct IH as [Hn IH].
        split; [lia|]. destruct res as [r| |note msg|].
        -- destruct IH as (before & Htake & Hok & Hbefore).
           exists (NetworkError message :: before). rewrite Htake.
           repeat split; [exact Hok | constructor; [reflexivity | exact Hbefore]].
        -- exact IH.
        -- destruct IH as (Hnone & Hcount & Hnote).
           split; [constructor; [reflexivity | exact Hnone]|].
           split; [|exact Hnote]. rewrite !count_cons. cbn. lia.
        -- destruct IH as (-> & Hnone & Hcount).
           split; [reflexivity|]. split; [constructor; [reflexivity | exact Hnone]|].
           rewrite !count_cons. cbn. lia.
    + destruct (ok response) eqn:Eok.
      * cbn [fetched fst snd take length]. split; [lia|].
        exists []. rewrite take_0. repeat split; [exact Eok | constructor].
      * destruct (Nat.eqb (status response) RATE_LIMIT_STATUS) eqn:Erl.
        -- specialize (IH (attempt - 1)%Z ltac:(lia)). cbv zeta in IH.
           destruct (fetchRetry_from (attempt - 1) answers) as [res n].
           cbn [fetched fst snd take length] in *. destruct IH as [Hn IH].
           split; [lia|].
           assert (succeeds (Responded response) = false) as Hs by exact Eok.
           assert (fails (Responded response) = false) as Hf
             by (unfold fails; cbn; rewrite Eok, Erl; reflexivity).
           assert (rate_limited (Responded response) = true) as Hr
             by (cbn; rewrite Eok, Erl; reflexivity).
           destruct res as [r| |note msg|].
           ++ destruct IH as (before & Htake & Hok & Hbefore).
              exists (Responded response :: before). rewrite Htake.
              repeat split; [exact Hok | constructor; [exact Hs | exact Hbefore]].
           ++ exact IH.
           ++ destruct IH as (Hnone & Hcount & Hnote).
              split; [constructor; [exact Hs | exact Hnone]|].
              split; [|exact Hnote]. rewrite !count_cons, Hf, Hr. lia.
           ++ destruct IH as (-> & Hnone & Hcount).
              split; [reflexivity|]. split; [constructor; [exact Hs | exact Hnone]|].
              rewrite !count_cons, Hf, Hr. lia.
        -- assert (succeeds (Responded response) = false) as Hs by exact Eok.
           assert (fails (Responded response) = true) as Hf
             by (unfold fails; cbn; rewrite Eok, Erl; reflexivity).
           assert (rate_limited (Responded response) = false) as Hr
             by (cbn; rewrite Eok, Erl; reflexivity).
           cbv zeta. destruct (Z.eqb_spec (attempt + 1) 5) as [E|E].
           ++ cbn [fetched fst snd take length]. split; [lia|].
              rewrite take_0. split; [repeat constructor; exact Hs|]. split.
              ** rewrite !count_cons, Hf, Hr. unfold count. simpl. lia.
              ** now rewrite E.
           ++ specialize (IH (attempt + 1)%Z ltac:(lia)). cbv zeta in IH.
              destruct (fetchRetry_from (attempt + 1) answers) as [res n].
              cbn [fetched fst snd take length] in *. destruct IH as [Hn IH].
              split; [lia|]. destruct res as [r| |note msg|].
              ** destruct IH as (before & Htake & Hok & Hbefore).
                 exists (Responded response :: before). rewrite Htake.
                 repeat split; [exact Hok | constructor; [exact Hs | exact Hbefore]].
              ** exact IH.
              ** destruct IH as (Hnone & Hcount & Hnote).
                 split; [constructor; [exact Hs | exact Hnone]|].
                 split; [|exact Hnote]. rewrite !count_cons, Hf, Hr. lia.
              ** destruct IH as (-> & Hnone & Hcount).
                 split; [reflexivity|].
                 split; [constructor; [exact Hs | exact Hnone]|].
                 rewrite !count_cons, Hf, Hr. lia.
Qed.

End RetryFacts.

(** X23: [fetchRetry] returns the first answer that is [ok], if it gets
    that far; it throws when the failures met so far are five more than
    the rate-limited answers met so far, always announcing 5 attempts; it
    never leaves its loop in any other way; and as long as neither
    happens it goes on fetching. *)
Theorem fetchRetry_returns_the_first_success_or_gives_up
    (answers : list FetchOutcome) :
  let n := snd (Retry.fetchRetry answers) in
  n <= length answers /\
  match fst (Retry.fetchRetry answers) with
  | Retry.Returned response =>
      exists before,
        take n answers = before ++ [Responded response] /\
        ok response = true /\
        Forall (fun a => Retry.succeeds a = false) before
  | Retry.LeftLoop => False
  | Retry.Failed notification message =>
      Forall (fun a => Retry.succeeds a = false) (take n answers) /\
      (Retry.count Retry.fails (take n answers)
       = 5 + Retry.count Retry.rate_limited (take n answers))%Z /\
      notification = "Failed to fetch after 5 attempts: " +:+ message
  | Retry.Waiting =>
      n = length answers /\
      Forall (fun a => Retry.succeeds a = false) answers /\
      (Retry.count Retry.fails answers
       < 5 + Retry.count Retry.rate_limited answers)%Z
  end.
Proof.
  pose proof (RetryFacts.fetchRetry_from_spec answers 0 ltac:(reflexivity)) as H.
  cbv zeta in *. unfold Retry.fetchRetry. destruct H as [Hn H]. split; [exact Hn|].
  destruct (fst (Retry.fetchRetry_from 0 answers)); exact H.
Qed.

(** X24: [fetchRetry] ends: given answers none of which is [ok], with
    at least five more failures than rate-limited answers, it notifies
    and throws. *)
Theorem fetchRetry_throws_when_failures_outnumber_rate_limits
    (answers : list FetchOutcome) :
  Forall (fun a => Retry.succeeds a = false) answers ->
  (5 + Retry.count Retry.rate_limited answers
   <= Retry.count Retry.fails answers)%Z ->
  exists message,
    fst (Retry.fetchRetry answers)
    = Retry.Failed ("Failed to fetch after 5 attempts: " +:+ message) message.
Proof.
  intros Hnone Hmany.
  pose proof (RetryFacts.fetchRetry_from_spec answers 0 ltac:(reflexivity)) as H.
  cbv zeta in H. unfold Retry.fetchRetry. destruct H as [_ H].
  destruct (fst (Retry.fetchRetry_from 0 answers)) as [r| |note msg|].
  - destruct H as (before & Htake & Hok & _). exfalso.
    assert (Responded r ∈ answers) as Hin.
    { eapply elem_of_sublist; [|apply sublist_take].
      rewrite Htake. apply elem_of_app. right. apply list_elem_of_here. }
    rewrite Forall_forall in Hnone. specialize (Hnone _ Hin). simpl in Hnone.
    congruence.
  - contradiction.
  - destruct H as (_ & _ & ->). now exists msg.
  - destruct H as (_ & _ & Hfew). unfold Retry.MAX_ATTEMPTS in Hfew. lia.
Qed.

Lemma fetchRetry_throws_when_failures_outnumber_rate_limits_witness :
  exists message,
    fst (Retry.fetchRetry
           [Responded (mkResponse false 429 "Too Many Requests" "");
            NetworkError "reset"; NetworkError "reset"; NetworkError "reset";
            NetworkError "reset"; NetworkError "reset"; NetworkError "timeout"])
    = Retry.Failed ("Failed to fetch after 5 attempts: " +:+ message) message.
Proof.
  apply (fetchRetry_throws_when_failures_outnumber_rate_limits
           [Responded (mkResponse false 429 "Too Many Requests" "");
            NetworkError "reset"; NetworkError "reset"; NetworkError "reset";
            NetworkError "reset"; NetworkError "reset"; NetworkError "timeout"]).
  - repeat constructor.
  - vm_compute. discriminate.
Defined.

Section MemoizeFacts.
Context {R : Type}.
Variable fn : list string -> R.

Lemma memoized_calls_lookup calls : forall cache i args,
  calls !! i = Some args ->
  exists first,
    List.find (fun a => String.eqb (JS.join "-" a) (JS.join "-" args)) calls
    = Some first /\
    memoized_calls fn cache calls !! i
    = Some (match cache !! JS.join "-" args with
            | Some cached => cached
            | None => fn first
            end).
Proof.
  induction calls as [|a calls IH]; intros cache i args Hi; [discriminate|].
  cbn [memoized_calls List.find]. unfold memoized. cbv zeta.
  destruct i as [|i].
  - injection Hi as ->. rewrite String.eqb_refl. exists args. split; [reflexivity|].
    destruct (cache !! JS.join "-" args); reflexivity.
  - simpl in Hi. destruct (String.eqb_spec (JS.join "-" a) (JS.join "-" args)) as [E|E].
    + exists a. split; [reflexivity|]. rewrite E.
      destruct (cache !! JS.join "-" args) as [cached|] eqn:Ec; simpl.
      * destruct (IH cache i args Hi) as (first & _ & ->). now rewrite Ec.
      * destruct (IH (<[JS.join "-" args := fn a]> cache) i args Hi) as (first & _ & ->).
        now rewrite lookup_insert_eq.
    + destruct (cache !! JS.join "-" a) as [cached|] eqn:Ec; simpl.
      * apply IH, Hi.
      * destruct (IH (<[JS.join "-" a := fn a]> cache) i args Hi) as (first & Hf & ->).
        exists first. split; [exact Hf|]. now rewrite lookup_insert_ne.
Qed.

End MemoizeFacts.

(** X25: a memoized function of strings answers every call with the
    result of the first call whose arguments joined by [-] give the same
    key, which need not be a call with the same arguments. *)
Theorem memoize_answers_for_the_first_call_with_the_same_key
    {R : Type} (fn : list string -> R) (calls : list (list string))
    (i : nat) (args : list string) :
  calls !! i = Some args ->
  exists first,
    List.find (fun a => String.eqb (JS.join "-" a) (JS.join "-" args)) calls
    = Some first /\
    memoized_calls fn ∅ calls !! i = Some (fn first).
Proof.
  intros Hi.
  destruct (memoized_calls_lookup fn calls ∅ i args Hi) as (first & Hfind & Hres).
  exists first. split; [exact Hfind|]. rewrite Hres. now rewrite lookup_empty.
Qed.

Lemma memoize_answers_for_the_first_call_with_the_same_key_witness :
  memoized_calls (fun args => length args) ∅ [["a-b"]; ["a"; "b"]] !! 1 = Some 1.
Proof.
  destruct (memoize_answers_for_the_first_call_with_the_same_key
              (fun args => length args) [["a-b"]; ["a"; "b"]] 1 ["a"; "b"])
    as (first & Hfind & Hres).
  - reflexivity.
  - vm_compute in Hfind. injection Hfind as <-. exact Hres.
Defined.

Module WorkerFacts.
Import Worker.
Section WorkerFacts.
Variable size code : nat.

Lemma requestGateway_from_spec answers : forall retries,
  retries <= length answers ->
  (exists before response,
      answers = before ++ Responded response
                  :: snd (requestGateway_from code retries answers) /\
      length before < retries /\
      Forall (fun a => Retry.succeeds a = false) before /\
      ok response = true /\
      fst (requestGateway_from code retries answers) = Json response) \/
  (Forall (fun a => Retry.succeeds a = false) (take retries answers) /\
   requestGateway_from code retries answers = (LeftLoop, drop retries answers)).
Proof.
  induction answers as [|a answers IH]; intros retries Hlen.
  - right. assert (retries = 0) as -> by (simpl in Hlen; lia).
    split; [constructor | reflexivity].
  - destruct retries as [|fewer]; [right; split; [constructor | reflexivity]|].
    simpl in Hlen. specialize (IH fewer ltac:(lia)).
    assert (forall a0, Retry.succeeds a0 = false ->
              requestGateway_from code (S fewer) (a0 :: answers)
              = requestGateway_from code fewer answers) as Hskip.
    { intros [message|response] Hs; cbn [requestGateway_from Nat.eqb].
      - reflexivity.
      - simpl in Hs. rewrite Hs. cbn [negb]. now destruct (Nat.eqb _ code). }
    destruct (Retry.succeeds a) eqn:Es.
    + left. destruct a as [message|response]; [discriminate|]. simpl in Es.
      exists [], response. cbn [requestGateway_from]. rewrite Es. cbn.
      split; [reflexivity|]. split; [lia|]. split; [constructor|].
      split; reflexivity.
    + rewrite (Hskip a Es). destruct IH as [(before & response & Heq & Hb & Hnone & Hok & Hres)|[Hnone Hrun]].
      * left. exists (a :: before), response. cbn [app length].
        split; [now rewrite <- Heq|]. split; [lia|]. split; [now constructor|].
        split; [exact Hok | exact Hres].
      * right. cbn [take drop]. split; [now constructor | exact Hrun].
Qed.

Lemma requestGateway_all_fail answers :
  3 <= length answers ->
  Forall (fun a => Retry.succeeds a = false) answers ->
  requestGateway code answers = (LeftLoop, drop 3 answers).
Proof.
  intros Hlen Hnone. unfold requestGateway.
  destruct (requestGateway_from_spec answers 3 Hlen)
    as [(before & response & Heq & _ & _ & Hok & _)|[_ Hrun]]; [|exact Hrun].
  exfalso. rewrite Forall_forall in Hnone.
  specialize (Hnone (Responded response)). simpl in Hnone.
  rewrite Hok in Hnone. enough (true = false) by discriminate. apply Hnone.
  rewrite Heq. apply elem_of_app. right. apply list_elem_of_here.
Qed.

Lemma createLists_all_fail items : forall fuel i n answers,
  0 < size ->
  length items - i <= fuel ->
  Forall (fun a => Retry.succeeds a = false) answers ->
  3 * (length items - i) <= length answers ->
  exists posted,
    createLists size code fuel items i n answers
    = (Done, posted, drop (3 * length posted) answers) /\
    concat (map snd posted) = drop i items /\
    Forall (fun p => 1 <= length (snd p) <= size) posted.
Proof.
  induction fuel as [|fuel IH]; intros i n answers Hsize Hfuel Hnone Hmany.
  - exists []. cbn [createLists]. rewrite (proj2 (Nat.ltb_ge _ _)) by lia.
    simpl. rewrite (drop_ge items i) by lia. repeat split. constructor.
  - cbn [createLists]. destruct (Nat.ltb i (length items)) eqn:E.
    2:{ apply Nat.ltb_ge in E. exists []. simpl. rewrite (drop_ge items i) by lia.
        repeat split. constructor. }
    apply Nat.ltb_lt in E. cbv zeta.
    rewrite requestGateway_all_fail by (trivial; lia).
    destruct (IH (i + size) (S n) (drop 3 answers)) as (posted & -> & Hcat & Hlen).
    + exact Hsize.
    + lia.
    + now apply Forall_drop.
    + rewrite length_drop. lia.
    + exists (("CGPS List - Chunk " +:+ pretty n, take size (drop i items)) :: posted).
      split; [|split].
      * rewrite drop_drop. cbn [length].
        replace (3 + 3 * length posted) with (3 * S (length posted)) by lia.
        reflexivity.
      * cbn [map concat snd]. rewrite Hcat, <- drop_drop. apply take_drop.
      * constructor; [|exact Hlen]. cbn [snd].
        rewrite length_take, length_drop. lia.
Qed.

End WorkerFacts.
End WorkerFacts.

(** X26: the worker's [requestGateway], given three answers or more,
    either returns the body of the first [ok] answer among the first
    three, or, when none of the three is [ok], returns [undefined] after
    three calls: failed requests and rate limits are never thrown to the
    caller. *)
Theorem worker_request_never_reports_a_failure
    (code : nat) (answers : list FetchOutcome) :
  3 <= length answers ->
  (exists before response,
      answers = before ++ Responded response
                  :: snd (Worker.requestGateway code answers) /\
      length before < 3 /\
      Forall (fun a => Retry.succeeds a = false) before /\
      ok response = true /\
      fst (Worker.requestGateway code answers) = Worker.Json response) \/
  (Forall (fun a => Retry.succeeds a = false) (take 3 answers) /\
   Worker.requestGateway code answers = (Worker.LeftLoop, drop 3 answers)).
Proof.
  intros Hlen. unfold Worker.requestGateway.
  destruct (WorkerFacts.requestGateway_from_spec code answers 3 Hlen) as [H|H].
  - left. exact H.
  - right. exact H.
Qed.

Lemma worker_request_never_reports_a_failure_witness :
  Worker.requestGateway 429
    [NetworkError "reset"; Responded (mkResponse false 500 "Internal" "down");
     Responded (mkResponse false 429 "Too Many Requests" "")]
  = (Worker.LeftLoop, []).
Proof.
  destruct (worker_request_never_reports_a_failure 429
              [NetworkError "reset"; Responded (mkResponse false 500 "Internal" "down");
               Responded (mkResponse false 429 "Too Many Requests" "")])
    as [(before & response & _ & _ & _ & _ & Hres)|[_ Hrun]].
  - simpl. lia.
  - vm_compute in Hres. discriminate Hres.
  - exact Hrun.
Defined.

(** X27: when every request fails, the worker's
    [createZeroTrustListsOneByOne] still goes through all the chunks,
    three attempts each, and ends normally. *)
Theorem worker_list_loop_passes_over_failed_requests
    (size code : nat) (items : list string) (answers : list FetchOutcome) :
  0 < size ->
  Forall (fun a => Retry.succeeds a = false) answers ->
  3 * length items <= length answers ->
  exists posted,
    Worker.createZeroTrustListsOneByOne size code items answers
    = (Worker.Done, posted, drop (3 * length posted) answers) /\
    concat (map snd posted) = items /\
    Forall (fun p => 1 <= length (snd p) <= size) posted.
Proof.
  intros Hsize Hnone Hmany. unfold Worker.createZeroTrustListsOneByOne.
  destruct (WorkerFacts.createLists_all_fail size code items (length items) 0 1 answers)
    as (posted & Hrun & Hcat & Hlen); [exact Hsize | lia | exact Hnone | lia |].
  exists posted. split; [exact Hrun|]. split; [|exact Hlen].
  rewrite Hcat. apply drop_0.
Qed.

Lemma worker_list_loop_passes_over_failed_requests_witness :
  exists posted,
    Worker.createZeroTrustListsOneByOne 1 429 ["a.com"; "b.com"]
      (replicate 6 (NetworkError "reset"))
    = (Worker.Done, posted, drop (3 * length posted) (replicate 6 (NetworkError "reset"))) /\
    concat (map snd posted) = ["a.com"; "b.com"] /\
    Forall (fun p => 1 <= length (snd p) <= 1) posted.
Proof.
  apply (worker_list_loop_passes_over_failed_requests 1 429 ["a.com"; "b.com"]
           (replicate 6 (NetworkError "reset"))).
  - lia.
  - repeat constructor.
  - simpl. lia.
Defined.
